(** * Wave-function stability analysis (pyscf/scf/stability.py)

    A shallow embedding of the stability drivers of [pyscf.scf.stability]
    and the properties of their control flow, of the preconditioner, of the
    symmetry projection in the external Hessian-vector products and of the
    orbital rotation.

    Conventions of the embedding.

    - Numbers.  The arrays of the source hold IEEE doubles.  They are
      modelled by exact rationals ([Qc], canonical fractions, so that Leibniz
      equality is numeric equality): no rounding, no infinities, no NaN.
      The result of an orbital-Hessian product of [newton_ah] may be
      complex; it is a list of [complex] and [.real] is the projection
      [real].
    - Arrays.  A one-dimensional array is a list.  A two-dimensional array
      is a shape and its row-major buffer ([ndarray]), as in NumPy; reading
      outside the buffer gives 0 (NumPy raises: the arrays of one
      mean-field object are consistent with each other, this is an
      invariant of the SCF collaborator and it is a hypothesis wherever a
      statement needs it).
    - Effects.  The Davidson solver [lib.davidson] and the logger are
      collaborators.  A driver is a tree of type [prog]: it returns, raises,
      logs a line, or hands a problem to the solver and continues with the
      solver's answer.  [play] runs a tree against a script of answers and
      gives the trace (solver calls and log lines) and the outcome. *)

From Stdlib Require Import ZArith QArith Qcanon Qcabs.
From Equations.Prop Require Import Equations Logic.
From stdpp Require Import base list numbers strings.

Open Scope Qc_scope.
Open Scope list_scope.

(** ** Numbers *)

Definition vec := list Qc.

Record complex := Complex { real : Qc; imag : Qc }.

Definition cvec := list complex.

(** [a < b] on doubles, as a boolean. *)
Definition Qcltb (a b : Qc) : bool := bool_decide (a < b).

(** The literals of the source. *)
Definition lit_1e_5 : Qc := Q2Qc 1e-5.
Definition lit_1e_8 : Qc := Q2Qc 1e-8.
Definition lit_1e_6 : Qc := Q2Qc 1e-6.

(** ** Exceptions and results *)

Inductive exn := NotImplementedError | ValueError | TypeError | IndexError.

Inductive result (A : Type) : Type :=
| Ok (a : A)
| Err (e : exn).
Arguments Ok {A} a.
Arguments Err {A} e.

#[global] Instance result_ret : MRet result := λ A a, Ok a.
#[global] Instance result_bind : MBind result := λ A B f m,
  match m with Ok a => f a | Err e => Err e end.

(** ** The Davidson solver and the logger *)

(** What [lib.davidson] returns is a pair [e, v]: a scalar and a vector
    when [nroots == 1], a sequence of eigenvalues (ascending) and a
    sequence of eigenvectors otherwise.  The two components are Python
    values of their own; [v[0]] of a vector is a number. *)
Inductive eigs :=
| Eig (e : Qc)
| Eigs (es : list Qc).

Inductive vectors :=
| Number (x : Qc)
| Vector (v : vec)
| Vectors (vs : list vec).

Definition dav_result := (eigs * vectors)%type.

(** The arguments of one call [lib.davidson(aop, x0, precond, tol=tol,
    verbose=log, nroots=nroots)]. *)
Record dav_call := DavCall {
  call_aop : vec → result vec;
  call_x0 : vectors;
  call_precond : vec → Qc → vec → result vec;
  call_tol : Qc;
  call_nroots : Z
}.

(** [log.note(msg)] and [log.info(fmt, e)]; the eigenvalues are kept as
    they are passed, unformatted. *)
Inductive log_entry :=
| LogNote (msg : string)
| LogInfo (fmt : string) (e : eigs).

Inductive prog (A : Type) : Type :=
| Ret (a : A)
| Raise (e : exn)
| Log (l : log_entry) (k : prog A)
| Davidson (c : dav_call) (k : dav_result → prog A).
Arguments Ret {A} a.
Arguments Raise {A} e.
Arguments Log {A} l k.
Arguments Davidson {A} c k.

Fixpoint prog_bind {A B} (f : A → prog B) (m : prog A) : prog B :=
  match m with
  | Ret a => f a
  | Raise e => Raise e
  | Log l k => Log l (prog_bind f k)
  | Davidson c k => Davidson c (λ r, prog_bind f (k r))
  end.

#[global] Instance prog_ret : MRet prog := λ A a, Ret a.
#[global] Instance prog_bind_inst : MBind prog := λ A B f m, prog_bind f m.

Definition lift {A} (r : result A) : prog A :=
  match r with Ok a => Ret a | Err e => Raise e end.

Definition note (msg : string) : prog unit := Log (LogNote msg) (Ret tt).
Definition info (fmt : string) (e : eigs) : prog unit :=
  Log (LogInfo fmt e) (Ret tt).
Definition davidson (aop : vec → result vec) (x0 : vectors)
    (precond : vec → Qc → vec → result vec) (tol : Qc) (nroots : Z)
  : prog dav_result :=
  Davidson (DavCall aop x0 precond tol nroots) Ret.

(** Playing a driver against the answers of the solver. *)
Inductive event :=
| EvLog (l : log_entry)
| EvSolve (c : dav_call) (r : dav_result).

Inductive outcome (A : Type) : Type :=
| Returned (a : A)
| Raised (e : exn)
| Starved.
Arguments Returned {A} a.
Arguments Raised {A} e.
Arguments Starved {A}.

(** [exec p script] gives the trace, the outcome and what is left of the
    script. *)
Fixpoint exec {A} (p : prog A) (script : list dav_result)
  : list event * outcome A * list dav_result :=
  match p with
  | Ret a => ([], Returned a, script)
  | Raise e => ([], Raised e, script)
  | Log l k => let '(t, o, rest) := exec k script in (EvLog l :: t, o, rest)
  | Davidson c k =>
      match script with
      | [] => ([], Starved, [])
      | r :: rs =>
          let '(t, o, rest) := exec (k r) rs in (EvSolve c r :: t, o, rest)
      end
  end.

(** The same with the trace so far as an accumulator, for symbolic
    execution. *)
Fixpoint exec_acc {A} (p : prog A) (script : list dav_result)
    (acc : list event) : list event * outcome A * list dav_result :=
  match p with
  | Ret a => (rev acc, Returned a, script)
  | Raise e => (rev acc, Raised e, script)
  | Log l k => exec_acc k script (EvLog l :: acc)
  | Davidson c k =>
      match script with
      | [] => (rev acc, Starved, [])
      | r :: rs => exec_acc (k r) rs (EvSolve c r :: acc)
      end
  end.

Definition play {A} (p : prog A) (script : list dav_result)
  : list event * outcome A :=
  (exec p script).1.

Definition logs (t : list event) : list log_entry :=
  omap (λ ev, match ev with EvLog l => Some l | EvSolve _ _ => None end) t.

Definition calls (t : list event) : list dav_call :=
  omap (λ ev, match ev with EvLog _ => None | EvSolve c _ => Some c end) t.

Definition answers (t : list event) : list dav_result :=
  omap (λ ev, match ev with EvLog _ => None | EvSolve _ r => Some r end) t.

(** ** The stability classifier and the unwrapping of the roots *)

(** The scalar test [e < -1e-5] and the classifier [not (e < -1e-5)]. *)
Definition below_threshold (e : Qc) : bool := Qcltb e (- lit_1e_5).
Definition is_stable (e : Qc) : bool := negb (below_threshold e).

(** The truth value of [e < -1e-5] for the Python value [e].  On a
    sequence NumPy compares entry by entry, and the truth value of the
    resulting array is that of its single entry, an error for two entries
    or more (for none as well in current NumPy). *)
Definition lt_threshold (e : eigs) : result bool :=
  match e with
  | Eig e => Ok (below_threshold e)
  | Eigs [e] => Ok (below_threshold e)
  | Eigs _ => Err ValueError
  end.

(** [e[0]] and [v[0]]: indexing a scalar or an empty sequence raises. *)
Definition eigs_0 (e : eigs) : result eigs :=
  match e with
  | Eigs (e :: _) => Ok (Eig e)
  | _ => Err IndexError
  end.

Definition vectors_0 (v : vectors) : result vectors :=
  match v with
  | Vectors (v :: _) => Ok (Vector v)
  | Vector (x :: _) => Ok (Number x)
  | _ => Err IndexError
  end.

(** [if nroots != 1: e, v = e[0], v[0]] *)
Definition unwrap (nroots : Z) (r : dav_result) : result dav_result :=
  if bool_decide (nroots ≠ 1%Z)
  then e ← eigs_0 r.1; v ← vectors_0 r.2; mret (e, v)
  else mret r.

(** [v] where a one-dimensional array is expected. *)
Definition eigenvector (v : vectors) : result vec :=
  match v with
  | Vector v => Ok v
  | _ => Err TypeError
  end.

(** The lowest eigenvalue of an answer: the scalar, or entry 0 of the
    ascending sequence. *)
Definition lowest (r : dav_result) : option Qc :=
  match r.1 with
  | Eig e => Some e
  | Eigs es => head es
  end.

(** The eigenvector that goes with it. *)
Definition lowest_vector (r : dav_result) : option vec :=
  match r.2 with
  | Number _ => None
  | Vector v => Some v
  | Vectors vs => head vs
  end.

Definition status_line (stable : bool) (method_class stab_type : string)
  : string :=
  if negb stable
  then method_class +:+ " wavefunction has an " +:+ stab_type
       +:+ " instability"
  else method_class +:+ " wavefunction is stable in the " +:+ stab_type
       +:+ " stability analysis".

Definition dump_status (stable : bool) (method_class stab_type : string)
  : prog unit :=
  if negb stable
  then note (method_class +:+ " wavefunction has an " +:+ stab_type
             +:+ " instability")
  else note (method_class +:+ " wavefunction is stable in the " +:+ stab_type
             +:+ " stability analysis").

(** ** Arrays *)

Definition zeros_like {A} (g : list A) : vec := map (λ _, 0) g.

(** [x[m]]: the entries of [x] at the true positions of the mask. *)
Fixpoint select_mask {A} (m : list bool) (x : list A) : list A :=
  match m, x with
  | b :: m, a :: x => if b then a :: select_mask m x else select_mask m x
  | _, _ => []
  end.

(** [x[m] = vals]: the values go, in order, to the true positions. *)
Fixpoint put_mask {A} (m : list bool) (vals : list A) (x : list A) : list A :=
  match m, x with
  | b :: m, a :: x =>
      if b then
        match vals with
        | v :: vals => v :: put_mask m vals x
        | [] => a :: put_mask m [] x
        end
      else a :: put_mask m vals x
  | _, _ => x
  end.

(** [x[m] = c] for a scalar [c]. *)
Definition fill_mask (m : list bool) (c : Qc) (x : vec) : vec :=
  mask (λ _, c) m x.

(** [x[m] = c] on an argument: the mask and [x] must agree in length. *)
Definition fill_mask_arg (m : list bool) (c : Qc) (x : vec) : result vec :=
  if bool_decide (length x = length m) then Ok (fill_mask m c x)
  else Err IndexError.

Definition count_true (m : list bool) : nat := length (filter (λ b, b = true) m).

(** [numpy.where(p(x))[0]] *)
Definition where_ (p : Qc → bool) (x : vec) : list nat :=
  omap (λ '(i, a), if p a then Some i else None) (imap pair x).

(** [numpy.argmin]: the first index of the least entry. *)
Fixpoint argmin_from (i best : nat) (least : Qc) (x : vec) : nat :=
  match x with
  | [] => best
  | a :: x =>
      if Qcltb a least then argmin_from (S i) i a x
      else argmin_from (S i) best least x
  end.

Definition argmin (x : vec) : result nat :=
  match x with
  | [] => Err ValueError
  | a :: x => Ok (argmin_from 1 0 a x)
  end.

(** [a / b] on one-dimensional arrays, with NumPy's broadcasting. *)
Definition divide (a b : vec) : result vec :=
  if bool_decide (length a = length b) then Ok (zip_with Qcdiv a b)
  else match a, b with
       | (x :: nil)%list, _ => Ok (map (λ y, x / y) b)
       | _, (y :: nil)%list => Ok (map (λ x, x / y) a)
       | _, _ => Err ValueError
       end.

(** Two-dimensional arrays: the shape and the row-major buffer. *)
Record ndarray := NdArray { nrows : nat; ncols : nat; data : vec }.

Definition get (M : ndarray) (i j : nat) : Qc :=
  nth (i * ncols M + j)%nat (data M) 0.

Definition tabulate (n m : nat) (f : nat → nat → Qc) : ndarray :=
  NdArray n m (flat_map (λ i, map (f i) (seq 0 m)) (seq 0 n)).

Definition zeros (n m : nat) : ndarray := NdArray n m (replicate (n * m)%nat 0).

Definition eye (n : nat) : ndarray :=
  tabulate n n (λ i j, if bool_decide (i = j) then 1 else 0).

Definition sum_upto (n : nat) (f : nat → Qc) : Qc :=
  foldr (λ k acc, f k + acc) 0 (seq 0 n).

(** [numpy.dot(A, B)] *)
Definition dot (A B : ndarray) : ndarray :=
  tabulate (nrows A) (ncols B)
    (λ i j, sum_upto (ncols A) (λ k, get A i k * get B k j)).

(** [A.T] *)
Definition transpose (A : ndarray) : ndarray :=
  tabulate (ncols A) (nrows A) (λ i j, get A j i).

(** [A.conj()] and [A.real] on an array of doubles. *)
Definition conj (A : ndarray) : ndarray := A.
Definition real_part (A : ndarray) : ndarray := A.

(** [A + B], [A - B] (also in place, [A += B], [A -= B]) and [A * c]. *)
Definition add (A B : ndarray) : ndarray :=
  tabulate (nrows A) (ncols A) (λ i j, get A i j + get B i j).
Definition sub (A B : ndarray) : ndarray :=
  tabulate (nrows A) (ncols A) (λ i j, get A i j - get B i j).
Definition scale (A : ndarray) (c : Qc) : ndarray :=
  NdArray (nrows A) (ncols A) (map (λ a, a * c) (data A)).

(** [x.reshape(n, m)], [A.ravel()], [A[m] = c] on a two-dimensional mask. *)
Definition reshape (n m : nat) (x : vec) : result ndarray :=
  if bool_decide (length x = (n * m)%nat) then Ok (NdArray n m x) else Err ValueError.
Definition ravel (A : ndarray) : vec := data A.
Definition fill_mask2 (m : list bool) (c : Qc) (A : ndarray) : ndarray :=
  NdArray (nrows A) (ncols A) (fill_mask m c (data A)).

(** [A[:, idx]], [A[ridx[:,None], cidx]], [A.diagonal()], [A[idx, idx]]. *)
Definition take_cols (A : ndarray) (idx : list nat) : ndarray :=
  tabulate (nrows A) (length idx) (λ i j, get A i (nth j idx 0%nat)).
Definition take_block (A : ndarray) (ridx cidx : list nat) : ndarray :=
  tabulate (length ridx) (length cidx)
    (λ i j, get A (nth i ridx 0%nat) (nth j cidx 0%nat)).
Definition diagonal (A : ndarray) : vec :=
  map (λ i, get A i i) (seq 0 (nrows A `min` ncols A)).
Definition take_diag (A : ndarray) (idx : list nat) : vec :=
  map (λ i, get A i i) idx.

(** [a.reshape(-1,1) - b]: the table of the differences [a[i] - b[j]]. *)
Definition outer_sub (a b : vec) : ndarray :=
  tabulate (length a) (length b) (λ i j, nth i a 0 - nth j b 0).

(** [s[ridx].reshape(-1,1) != t[cidx]], row-major. *)
Definition outer_ne (s t : list Z) (ridx cidx : list nat) : list bool :=
  flat_map (λ a, map (λ i, bool_decide (nth a s 0%Z ≠ nth i t 0%Z)) cidx) ridx.

(** [A[:, a:b]] and [numpy.hstack] of two-dimensional arrays. *)
Definition cols (A : ndarray) (a b : nat) : ndarray :=
  tabulate (nrows A) (b `min` ncols A - a)%nat (λ i j, get A i (a + j)%nat).
Fixpoint hstack (As : list ndarray) : ndarray :=
  match As with
  | [] => NdArray 0 0 []
  | (A :: nil)%list => A
  | A :: As =>
      let B := hstack As in
      tabulate (nrows A) (ncols A + ncols B)%nat
        (λ i j, if bool_decide (j < ncols A)%nat then get A i j
                else get B i (j - ncols A)%nat)
  end.

(** [scipy.linalg.block_diag(A, B)] *)
Definition block_diag (A B : ndarray) : ndarray :=
  tabulate (nrows A + nrows B)%nat (ncols A + ncols B)%nat
    (λ i j,
       if bool_decide (i < nrows A)%nat then
         if bool_decide (j < ncols A)%nat then get A i j else 0
       else
         if bool_decide (j < ncols A)%nat then 0
         else get B (i - nrows A)%nat (j - ncols A)%nat).

(** [A[ridx[:,None], cidx] = B] *)
Definition index_of (i : nat) (idx : list nat) : option nat :=
  fst <$> list_find (λ k, k = i) idx.
Definition put_block (A : ndarray) (ridx cidx : list nat) (B : ndarray)
  : ndarray :=
  tabulate (nrows A) (ncols A)
    (λ i j, match index_of i ridx, index_of j cidx with
            | Some p, Some q => get B p q
            | _, _ => get A i j
            end).

(** ** The mean-field object *)

(** The keyword arguments of [mf.gen_response]. *)
Inductive kwarg :=
| singlet (v : option bool)
| with_j (b : bool)
| hermi (h : Z).

(** What the drivers read from [mf].  [orb], [occ], [sym] and [dm] are
    the types of the coefficients, of the occupations, of the orbital
    symmetry labels and of a density matrix: one array each for the
    restricted, generalized and relativistic objects, a pair of arrays
    (alpha, beta) for the unrestricted one. *)
Record mean_field (orb occ sym dm : Type) := MeanField {
  (** [f'{mf.__class__}'] *)
  class_name : string;
  (** the truth value of [mf.mol.symmetry] *)
  mol_symmetry : bool;
  mo_coeff : orb;
  mo_occ : occ;
  (** [hf_symm.get_orbsym(mol, mo_coeff)] and its [uhf_symm], [ghf_symm]
      variants *)
  get_orbsym : sym;
  get_hcore : ndarray;
  (** [mf.get_veff(mol, dm)], [mf.get_fock(h1e, dm=dm)],
      [mf.make_rdm1(mo_coeff, mo_occ)], [mf.gen_response(...)] *)
  get_veff : dm → dm;
  get_fock : ndarray → dm → ndarray;
  make_rdm1 : orb → occ → dm;
  gen_response : list kwarg → dm → dm;
  (** [newton_ah.gen_g_hop_rhf(mf, mf.mo_coeff, mf.mo_occ, with_symmetry)]
      and its [rohf], [uhf], [ghf], [dhf] variants: the gradient, the
      Hessian-vector product and the Hessian diagonal.  The argument is
      [None] where the call passes no [with_symmetry]. *)
  gen_g_hop : option bool → vec * (vec → cvec) * vec;
  (** the operator and the diagonal built by
      [_gen_hop_ghf_complex_internal(mf)], taken as they come *)
  gen_hop_ghf_complex_internal : (vec → result vec) * vec
}.
Arguments class_name {orb occ sym dm} m.
Arguments mol_symmetry {orb occ sym dm} m.
Arguments mo_coeff {orb occ sym dm} m.
Arguments mo_occ {orb occ sym dm} m.
Arguments get_orbsym {orb occ sym dm} m.
Arguments get_hcore {orb occ sym dm} m.
Arguments get_veff {orb occ sym dm} m.
Arguments get_fock {orb occ sym dm} m.
Arguments make_rdm1 {orb occ sym dm} m.
Arguments gen_response {orb occ sym dm} m.
Arguments gen_g_hop {orb occ sym dm} m.
Arguments gen_hop_ghf_complex_internal {orb occ sym dm} m.

Definition RHF := mean_field ndarray vec (list Z) ndarray.
Definition UHF :=
  mean_field (ndarray * ndarray) (vec * vec) (list Z * list Z)
             (ndarray * ndarray).

Definition STAB_NROOTS : Z := 3.

(** What a driver returns: [mo] or, with [return_status], [(mo, stable)]. *)
Definition returns {A} (return_status : bool) (mo : A) (stable : bool)
  : A * option bool :=
  (mo, if return_status then Some stable else None).

(** ** Preconditioner and effective operator *)

(** The closure [precond(dx, e, x0)] over [hdiag]:
<<
    hdiagd = hdiag - e
    hdiagd[abs(hdiagd)<1e-8] = 1e-8
    return dx/hdiagd
>> *)
Definition floor_divisor (hdiag : vec) (e : Qc) : vec :=
  let hdiagd := map (λ h, h - e) hdiag in
  fill_mask (map (λ d, Qcltb (Qcabs d) lit_1e_8) hdiagd) lit_1e_8 hdiagd.

Definition precond (hdiag : vec) (dx : vec) (e : Qc) (x0 : vec)
  : result vec :=
  divide dx (floor_divisor hdiag e).

(** The closure [hessian_x(x)] over [hop]: [hop(x).real * 2]. *)
Definition hessian_x (hop : vec → cvec) (x : vec) : result vec :=
  Ok (map (λ z, real z * 2) (hop x)).

(** [x0 = zeros_like(g); x0[g!=0] = 1. / hdiag[g!=0]] *)
Definition guess_gradient (g hdiag : vec) : vec :=
  let m := map (λ a, bool_decide (a ≠ 0)) g in
  put_mask m (map (λ h, 1 / h) (select_mask m hdiag)) (zeros_like g).

(** [x0 = zeros_like(hdiag); x0[hdiag>1e-5] = 1. / hdiag[hdiag>1e-5]] *)
Definition guess_diagonal (hdiag : vec) : vec :=
  let m := map (λ h, Qcltb lit_1e_5 h) hdiag in
  put_mask m (map (λ h, 1 / h) (select_mask m hdiag)) (zeros_like hdiag).

(** [x0[numpy.argmin(hdiag)] = 1] *)
Definition break_symmetry (hdiag x0 : vec) : result vec :=
  i ← argmin hdiag; mret (<[i := 1]> x0).

(** [if not with_symmetry: x0[numpy.argmin(hdiag)] = 1] *)
Definition allow_break (with_symmetry : bool) (hdiag x0 : vec) : result vec :=
  if negb with_symmetry then break_symmetry hdiag x0 else mret x0.

(** ** Hessian-vector products of the external channels *)

(** [_gen_hop_rhf_external(mf, with_symmetry)].  The contractions:
    [einsum('ps,sq->pq', fvv, x1)] is [dot fvv x1] and
    [einsum('ps,rp->rs', foo, x1)] is [dot x1 foo]. *)
Definition _gen_hop_rhf_external (mf : RHF) (with_symmetry : bool)
  : (vec → result vec) * vec * (vec → result vec) * vec :=
  let mo_coeff := mo_coeff mf in
  let mo_occ := mo_occ mf in
  let occidx := where_ (λ n, bool_decide (n = 2)) mo_occ in
  let viridx := where_ (λ n, bool_decide (n = 0)) mo_occ in
  let nocc := length occidx in
  let nvir := length viridx in
  let orbv := take_cols mo_coeff viridx in
  let orbo := take_cols mo_coeff occidx in
  let symm := with_symmetry && mol_symmetry mf in
  let orbsym := get_orbsym mf in
  let sym_forbid := outer_ne orbsym orbsym viridx occidx in
  let h1e := get_hcore mf in
  let dm0 := make_rdm1 mf mo_coeff mo_occ in
  let fock_ao := add h1e (get_veff mf dm0) in
  let fock := dot (dot (transpose (conj mo_coeff)) fock_ao) mo_coeff in
  let foo := take_block fock occidx occidx in
  let fvv := take_block fock viridx viridx in
  let hdiag := outer_sub (diagonal fvv) (diagonal foo) in
  let hdiag := if symm then fill_mask2 sym_forbid 0 hdiag else hdiag in
  let hdiag := ravel hdiag in
  let vrespz := gen_response mf [singlet None; hermi 2] in
  let hop_real2complex (x1 : vec) : result vec :=
    x1 ← reshape nvir nocc x1;
    let x1 := if symm then fill_mask2 sym_forbid 0 x1 else x1 in
    let x2 := dot fvv x1 in
    let x2 := sub x2 (dot x1 foo) in
    let d1 := dot (dot orbv (scale x1 2)) (transpose (conj orbo)) in
    let dm1 := sub d1 (transpose (conj d1)) in
    let v1 := vrespz dm1 in
    let x2 := add x2 (dot (dot (transpose (conj orbv)) v1) orbo) in
    let x2 := if symm then fill_mask2 sym_forbid 0 x2 else x2 in
    mret (ravel x2) in
  let vresp1 := gen_response mf [singlet (Some false); hermi 1] in
  let hop_rhf2uhf (x1 : vec) : result vec :=
    x1 ← reshape nvir nocc x1;
    let x1 := if symm then fill_mask2 sym_forbid 0 x1 else x1 in
    let x2 := dot fvv x1 in
    let x2 := sub x2 (dot x1 foo) in
    let d1 := dot (dot orbv (scale x1 2)) (transpose (conj orbo)) in
    let dm1 := add d1 (transpose (conj d1)) in
    let v1ao := vresp1 dm1 in
    let x2 := add x2 (dot (dot (transpose (conj orbv)) v1ao) orbo) in
    let x2 := if symm then fill_mask2 sym_forbid 0 x2 else x2 in
    mret (ravel (real_part x2)) in
  (hop_real2complex, hdiag, hop_rhf2uhf, hdiag).

(** [_gen_hop_uhf_external(mf, with_symmetry)].  The contractions:
    [einsum('pr,rq->pq', fvv, x)] is [dot fvv x],
    [einsum('sq,ps->pq', foo, x)] is [dot x foo] and
    [einsum('qs,ps->pq', foo, x)] is [dot x (transpose foo)]. *)
Definition _gen_hop_uhf_external (mf : UHF) (with_symmetry : bool)
  : (vec → result vec) * vec * (vec → result vec) * vec :=
  let mo_coeff := mo_coeff mf in
  let mo_occ := mo_occ mf in
  let occidxa := where_ (λ n, Qcltb 0 n) mo_occ.1 in
  let occidxb := where_ (λ n, Qcltb 0 n) mo_occ.2 in
  let viridxa := where_ (λ n, bool_decide (n = 0)) mo_occ.1 in
  let viridxb := where_ (λ n, bool_decide (n = 0)) mo_occ.2 in
  let nocca := length occidxa in
  let noccb := length occidxb in
  let nvira := length viridxa in
  let nvirb := length viridxb in
  let orboa := take_cols mo_coeff.1 occidxa in
  let orbob := take_cols mo_coeff.2 occidxb in
  let orbva := take_cols mo_coeff.1 viridxa in
  let orbvb := take_cols mo_coeff.2 viridxb in
  let symm := with_symmetry && mol_symmetry mf in
  let '(orbsyma, orbsymb) := get_orbsym mf in
  let sym_forbida := outer_ne orbsyma orbsyma viridxa occidxa in
  let sym_forbidb := outer_ne orbsymb orbsymb viridxb occidxb in
  let sym_forbid1 := sym_forbida ++ sym_forbidb in
  let h1e := get_hcore mf in
  let dm0 := make_rdm1 mf mo_coeff mo_occ in
  let veff := get_veff mf dm0 in
  let fock_ao := (add h1e veff.1, add h1e veff.2) in
  let focka := dot (dot (transpose (conj mo_coeff.1)) fock_ao.1) mo_coeff.1 in
  let fockb := dot (dot (transpose (conj mo_coeff.2)) fock_ao.2) mo_coeff.2 in
  let fooa := take_block focka occidxa occidxa in
  let fvva := take_block focka viridxa viridxa in
  let foob := take_block fockb occidxb occidxb in
  let fvvb := take_block fockb viridxb viridxb in
  let h_diaga := outer_sub (take_diag focka viridxa) (take_diag focka occidxa) in
  let h_diagb := outer_sub (take_diag fockb viridxb) (take_diag fockb occidxb) in
  let hdiag1 := ravel h_diaga ++ ravel h_diagb in
  let hdiag1 := if symm then fill_mask sym_forbid1 0 hdiag1 else hdiag1 in
  let vrespz := gen_response mf [with_j false; hermi 2] in
  let hop_real2complex (x1 : vec) : result vec :=
    x1 ← (if symm then fill_mask_arg sym_forbid1 0 x1 else mret x1);
    x1a ← reshape nvira nocca (take (nvira * nocca)%nat x1);
    x1b ← reshape nvirb noccb (drop (nvira * nocca)%nat x1);
    let x2a := dot fvva x1a in
    let x2a := sub x2a (dot x1a fooa) in
    let x2b := dot fvvb x1b in
    let x2b := sub x2b (dot x1b (transpose foob)) in
    let d1a := dot (dot orbva x1a) (transpose (conj orboa)) in
    let d1b := dot (dot orbvb x1b) (transpose (conj orbob)) in
    let dm1 := (sub d1a (transpose (conj d1a)),
                sub d1b (transpose (conj d1b))) in
    let v1 := vrespz dm1 in
    let x2a := add x2a (dot (dot (transpose (conj orbva)) v1.1) orboa) in
    let x2b := add x2b (dot (dot (transpose (conj orbvb)) v1.2) orbob) in
    let x2 := ravel x2a ++ ravel x2b in
    let x2 := if symm then fill_mask sym_forbid1 0 x2 else x2 in
    mret x2 in
  let sym_forbidab := outer_ne orbsyma orbsymb viridxa occidxb in
  let sym_forbidba := outer_ne orbsymb orbsyma viridxb occidxa in
  let sym_forbid2 := sym_forbidab ++ sym_forbidba in
  let hdiagab := outer_sub (diagonal fvva) (diagonal foob) in
  let hdiagba := outer_sub (diagonal fvvb) (diagonal fooa) in
  let hdiag2 := ravel hdiagab ++ ravel hdiagba in
  let hdiag2 := if symm then fill_mask sym_forbid2 0 hdiag2 else hdiag2 in
  let vresp1 := gen_response mf [with_j false; hermi 0] in
  let hop_uhf2ghf (x1 : vec) : result vec :=
    x1 ← (if symm then fill_mask_arg sym_forbid2 0 x1 else mret x1);
    x1ab ← reshape nvira noccb (take (nvira * noccb)%nat x1);
    x1ba ← reshape nvirb nocca (drop (nvira * noccb)%nat x1);
    let x2ab := dot fvva x1ab in
    let x2ab := sub x2ab (dot x1ab foob) in
    let x2ba := dot fvvb x1ba in
    let x2ba := sub x2ba (dot x1ba (transpose fooa)) in
    let d1ab := dot (dot orbva x1ab) (transpose (conj orbob)) in
    let d1ba := dot (dot orbvb x1ba) (transpose (conj orboa)) in
    let dm1 := (add d1ab (transpose (conj d1ba)),
                add d1ba (transpose (conj d1ab))) in
    let v1 := vresp1 dm1 in
    let x2ab := add x2ab (dot (dot (transpose (conj orbva)) v1.1) orbob) in
    let x2ba := add x2ba (dot (dot (transpose (conj orbvb)) v1.2) orboa) in
    let x2 := ravel (real_part x2ab) ++ ravel (real_part x2ba) in
    let x2 := if symm then fill_mask sym_forbid2 0 x2 else x2 in
    mret x2 in
  (hop_real2complex, hdiag1, hop_uhf2ghf, hdiag2).

(** [_gen_hop_ghf_real2complex(mf, with_symmetry)] *)
Definition _gen_hop_ghf_real2complex (mf : RHF) (with_symmetry : bool)
  : (vec → result vec) * vec :=
  let mo_coeff := mo_coeff mf in
  let mo_occ := mo_occ mf in
  let occidx := where_ (λ n, bool_decide (n = 1)) mo_occ in
  let viridx := where_ (λ n, bool_decide (n = 0)) mo_occ in
  let nocc := length occidx in
  let nvir := length viridx in
  let orbv := take_cols mo_coeff viridx in
  let orbo := take_cols mo_coeff occidx in
  let symm := with_symmetry && mol_symmetry mf in
  let orbsym := get_orbsym mf in
  let sym_forbid := outer_ne orbsym orbsym viridx occidx in
  let h1e := get_hcore mf in
  let dm0 := make_rdm1 mf mo_coeff mo_occ in
  let fock_ao := get_fock mf h1e dm0 in
  let fock := dot (dot (transpose (conj mo_coeff)) fock_ao) mo_coeff in
  let foo := take_block fock occidx occidx in
  let fvv := take_block fock viridx viridx in
  let hdiag := outer_sub (diagonal fvv) (diagonal foo) in
  let hdiag := if symm then fill_mask2 sym_forbid 0 hdiag else hdiag in
  let hdiag := ravel hdiag in
  let vrespz := gen_response mf [with_j false; hermi 0] in
  let hop_real2complex (x1 : vec) : result vec :=
    x1 ← reshape nvir nocc x1;
    let x1 := if symm then fill_mask2 sym_forbid 0 x1 else x1 in
    let x2 := dot fvv x1 in
    let x2 := sub x2 (dot x1 foo) in
    let d1 := dot (dot orbv x1) (transpose (conj orbo)) in
    let dm1 := sub d1 (transpose (conj d1)) in
    let v1 := vrespz dm1 in
    let x2 := add x2 (dot (dot (transpose (conj orbv)) v1) orbo) in
    let x2 := if symm then fill_mask2 sym_forbid 0 x2 else x2 in
    mret (ravel x2) in
  (hop_real2complex, hdiag).

(** ** Orbital rotation and the drivers *)

Section Stability.

(** Modelled from the spec: [newton_ah.expmat], the matrix exponential of
    the rotation generator, is not part of the sources at hand and the
    exponential is no rational function.  It is a parameter; what the
    specification states of it (the exponential of the zero generator is
    the identity) is a hypothesis of the one statement that needs it. *)
Variable expmat : ndarray → ndarray.

(** Modelled from the spec: [hf.uniq_var_indices], the mask of the
    rotation pairs in the [nmo] by [nmo] generator, row-major, is not part
    of the sources at hand.  The pairs couple a virtual orbital (zero
    occupation, the row) with an occupied one (nonzero occupation, the
    column), in the order of a trial vector of dimension n_vir x n_occ. *)
Definition uniq_var_indices (mo_occ : vec) : list bool :=
  flat_map (λ a, map (λ i, bool_decide (a = 0) && bool_decide (i ≠ 0)) mo_occ)
           mo_occ.

(** Modelled from the spec: [hf.unpack_uniq_var(dx, mo_occ)] is not part
    of the sources at hand.  It scatters the eigenvector into the rotation
    pairs of a zero matrix and returns the antisymmetric completion, the
    matrix minus its conjugate transpose.  The scatter needs as many
    entries as there are pairs. *)
Definition unpack_uniq_var (dx : vec) (mo_occ : vec) : result ndarray :=
  let nmo := length mo_occ in
  let idx := uniq_var_indices mo_occ in
  let x1 := zeros nmo nmo in
  if bool_decide (length dx = count_true idx) then
    let x1 := NdArray nmo nmo (put_mask idx dx (data x1)) in
    Ok (sub x1 (transpose (conj x1)))
  else Err ValueError.

(** [_rotate_mo(mo_coeff, mo_occ, dx)] *)
Definition _rotate_mo (mo_coeff : ndarray) (mo_occ : vec) (dx : vec)
  : result ndarray :=
  dr ← unpack_uniq_var dx mo_occ;
  let u := expmat dr in
  mret (dot mo_coeff u).

(** [dhf_stability(mf, verbose, return_status, nroots, tol)] *)
Definition dhf_stability (mf : RHF) (return_status : bool) (nroots : Z)
    (tol : Qc) : prog (ndarray * option bool) :=
  let '(g, hop, hdiag) := gen_g_hop mf None in
  let hdiag := map (λ h, h * 2) hdiag in
  let stable := true in
  let x0 := guess_gradient g hdiag in
  x0 ← lift (break_symmetry hdiag x0);
  '(e, v) ← davidson (hessian_x hop) (Vector x0) (precond hdiag) tol nroots;
  unstable ← lift (lt_threshold e);
  '(mo, stable) ←
    (if unstable : bool then
       note (class_name mf +:+ " wavefunction has an internal instability");;
       v ← lift (eigenvector v);
       mo ← lift (_rotate_mo (mo_coeff mf) (mo_occ mf) v);
       mret (mo, false)
     else
       note (class_name mf +:+ " wavefunction is stable in the internal "
             +:+ "stability analysis");;
       mret (mo_coeff mf, stable));
  mret (returns return_status mo stable).

(** [rhf_internal(mf, with_symmetry, verbose, return_status, nroots, tol)] *)
Definition rhf_internal (mf : RHF) (with_symmetry return_status : bool)
    (nroots : Z) (tol : Qc) : prog (ndarray * option bool) :=
  let '(g, hop, hdiag) := gen_g_hop mf (Some with_symmetry) in
  let hdiag := map (λ h, h * 2) hdiag in
  let x0 := guess_gradient g hdiag in
  x0 ← lift (allow_break with_symmetry hdiag x0);
  r ← davidson (hessian_x hop) (Vector x0) (precond hdiag) tol nroots;
  info "rhf_internal: lowest eigs of H = %s" r.1;;
  '(e, v) ← lift (unwrap nroots r);
  unstable ← lift (lt_threshold e);
  let stable := negb unstable in
  dump_status stable (class_name mf) "internal";;
  mo ← (if stable then mret (mo_coeff mf)
        else v ← lift (eigenvector v);
             lift (_rotate_mo (mo_coeff mf) (mo_occ mf) v));
  mret (returns return_status mo stable).

(** [rohf_internal(mf, with_symmetry, verbose, return_status, nroots, tol)] *)
Definition rohf_internal (mf : RHF) (with_symmetry return_status : bool)
    (nroots : Z) (tol : Qc) : prog (ndarray * option bool) :=
  let '(g, hop, hdiag) := gen_g_hop mf (Some with_symmetry) in
  let hdiag := map (λ h, h * 2) hdiag in
  let x0 := guess_gradient g hdiag in
  x0 ← lift (allow_break with_symmetry hdiag x0);
  r ← davidson (hessian_x hop) (Vector x0) (precond hdiag) tol nroots;
  info "rohf_internal: lowest eigs of H = %s" r.1;;
  '(e, v) ← lift (unwrap nroots r);
  unstable ← lift (lt_threshold e);
  let stable := negb unstable in
  dump_status stable (class_name mf) "internal";;
  mo ← (if stable then mret (mo_coeff mf)
        else v ← lift (eigenvector v);
             lift (_rotate_mo (mo_coeff mf) (mo_occ mf) v));
  mret (returns return_status mo stable).


(** The branch [else:] of [uhf_internal]: the two rotated sets
<<
    nocca = numpy.count_nonzero(mf.mo_occ[0]> 0)
    nvira = numpy.count_nonzero(mf.mo_occ[0]==0)
    mo = (_rotate_mo(mf.mo_coeff[0], mf.mo_occ[0], v[:nocca*nvira]),
          _rotate_mo(mf.mo_coeff[1], mf.mo_occ[1], v[nocca*nvira:]))
>> *)
Definition uhf_internal_rotate (mf : UHF) (v : vec)
  : result (ndarray * ndarray) :=
  let nocca := length (where_ (λ n, Qcltb 0 n) (mo_occ mf).1) in
  let nvira := length (where_ (λ n, bool_decide (n = 0)) (mo_occ mf).1) in
  moa ← _rotate_mo (mo_coeff mf).1 (mo_occ mf).1 (take (nocca * nvira)%nat v);
  mob ← _rotate_mo (mo_coeff mf).2 (mo_occ mf).2 (drop (nocca * nvira)%nat v);
  mret (moa, mob).

(** [uhf_internal(mf, with_symmetry, verbose, return_status, nroots, tol)] *)
Definition uhf_internal (mf : UHF) (with_symmetry return_status : bool)
    (nroots : Z) (tol : Qc) : prog ((ndarray * ndarray) * option bool) :=
  let '(g, hop, hdiag) := gen_g_hop mf (Some with_symmetry) in
  let hdiag := map (λ h, h * 2) hdiag in
  let x0 := guess_gradient g hdiag in
  x0 ← lift (allow_break with_symmetry hdiag x0);
  r ← davidson (hessian_x hop) (Vector x0) (precond hdiag) tol nroots;
  info "uhf_internal: lowest eigs of H = %s" r.1;;
  '(e, v) ← lift (unwrap nroots r);
  unstable ← lift (lt_threshold e);
  let stable := negb unstable in
  dump_status stable (class_name mf) "internal";;
  mo ← (if stable then mret (mo_coeff mf)
        else v ← lift (eigenvector v);
             lift (uhf_internal_rotate mf v));
  mret (returns return_status mo stable).

(** [rhf_external(mf, with_symmetry, verbose, return_status, nroots, tol)] *)
Definition rhf_external (mf : RHF) (with_symmetry return_status : bool)
    (nroots : Z) (tol : Qc) : prog ((ndarray * ndarray) * option bool) :=
  let '(hop1, hdiag1, hop2, hdiag2) := _gen_hop_rhf_external mf with_symmetry in
  let x0 := guess_diagonal hdiag1 in
  x0 ← lift (allow_break with_symmetry hdiag1 x0);
  r1 ← davidson hop1 (Vector x0) (precond hdiag1) tol nroots;
  info "rhf_real2complex: lowest eigs of H = %s" r1.1;;
  '(e1, v1) ← lift (unwrap nroots r1);
  unstable1 ← lift (lt_threshold e1);
  let stable1 := negb unstable1 in
  dump_status stable1 (class_name mf) "real -> complex";;
  let x0 := v1 in
  r3 ← davidson hop2 x0 (precond hdiag2) tol nroots;
  info "rhf_external: lowest eigs of H = %s" r3.1;;
  '(e3, v3) ← lift (unwrap nroots r3);
  unstable ← lift (lt_threshold e3);
  let stable := negb unstable in
  dump_status stable (class_name mf) "RHF/RKS -> UHF/UKS";;
  mo ← (if stable then mret (mo_coeff mf, mo_coeff mf)
        else v3 ← lift (eigenvector v3);
             mo ← lift (_rotate_mo (mo_coeff mf) (mo_occ mf) v3);
             mret (mo, mo_coeff mf));
  mret (returns return_status mo stable).
(** The branch [if not stable:] of [uhf_external], from the block
    diagonal [mo] of the two coefficient matrices:
<<
    nmo = nocca + nvira
    dx = numpy.zeros((nmo*2,nmo*2))
    dx[viridxa[:,None],nmo+occidxb] = v[:nvira*noccb].reshape(nvira,noccb)
    dx[nmo+viridxb[:,None],occidxa] = v[nvira*noccb:].reshape(nvirb,nocca)
    u = newton_ah.expmat(dx - dx.conj().T)
    mo = numpy.dot(mo, u)
    mo = numpy.hstack([mo[:,:nocca], mo[:,nmo:nmo+noccb],
                       mo[:,nocca:nmo], mo[:,nmo+noccb:]])
>> *)
Definition uhf_external_rotate (mf : UHF) (mo : ndarray) (v : vec)
  : result ndarray :=
  let occidxa := where_ (λ n, Qcltb 0 n) (mo_occ mf).1 in
  let viridxa := where_ (λ n, bool_decide (n = 0)) (mo_occ mf).1 in
  let occidxb := where_ (λ n, Qcltb 0 n) (mo_occ mf).2 in
  let viridxb := where_ (λ n, bool_decide (n = 0)) (mo_occ mf).2 in
  let nocca := length occidxa in
  let nvira := length viridxa in
  let noccb := length occidxb in
  let nvirb := length viridxb in
  let nmo := (nocca + nvira)%nat in
  let dx := zeros (nmo * 2) (nmo * 2) in
  blk ← reshape nvira noccb (take (nvira * noccb)%nat v);
  let dx := put_block dx viridxa (map (λ i, nmo + i)%nat occidxb) blk in
  blk ← reshape nvirb nocca (drop (nvira * noccb)%nat v);
  let dx := put_block dx (map (λ i, nmo + i)%nat viridxb) occidxa blk in
  let u := expmat (sub dx (transpose (conj dx))) in
  let mo := dot mo u in
  mret (hstack [cols mo 0 nocca; cols mo nmo (nmo + noccb);
                cols mo nocca nmo; cols mo (nmo + noccb) (ncols mo)]).

(** [uhf_external(mf, with_symmetry, verbose, return_status, nroots, tol)] *)
Definition uhf_external (mf : UHF) (with_symmetry return_status : bool)
    (nroots : Z) (tol : Qc) : prog (ndarray * option bool) :=
  let '(hop1, hdiag1, hop2, hdiag2) := _gen_hop_uhf_external mf with_symmetry in
  let x0 := guess_diagonal hdiag1 in
  x0 ← lift (allow_break with_symmetry hdiag1 x0);
  r1 ← davidson hop1 (Vector x0) (precond hdiag1) tol nroots;
  info "uhf_real2complex: lowest eigs of H = %s" r1.1;;
  '(e1, v) ← lift (unwrap nroots r1);
  unstable1 ← lift (lt_threshold e1);
  let stable1 := negb unstable1 in
  dump_status stable1 (class_name mf) "real -> complex";;
  let x0 := guess_diagonal hdiag2 in
  x0 ← lift (allow_break with_symmetry hdiag2 x0);
  r3 ← davidson hop2 (Vector x0) (precond hdiag2) tol nroots;
  info "uhf_external: lowest eigs of H = %s" r3.1;;
  '(e3, v) ← lift (unwrap nroots r3);
  unstable ← lift (lt_threshold e3);
  let stable := negb unstable in
  dump_status stable (class_name mf) "UHF/UKS -> GHF/GKS";;
  let mo := block_diag (mo_coeff mf).1 (mo_coeff mf).2 in
  mo ← (if negb stable
        then v ← lift (eigenvector v); lift (uhf_external_rotate mf mo v)
        else mret mo);
  mret (returns return_status mo stable).

(** [ghf_real(mf, with_symmetry, verbose, return_status, nroots, tol)].
    The second unwrapping reads [e2, v = e2[0], v[0]]: it indexes the
    eigenvector [v] of the internal channel. *)
Definition ghf_real (mf : RHF) (with_symmetry return_status : bool)
    (nroots : Z) (tol : Qc) : prog (ndarray * option bool) :=
  let '(g, hop, hdiag) := gen_g_hop mf None in
  let hdiag := map (λ h, h * 2) hdiag in
  let x0 := guess_gradient g hdiag in
  x0 ← lift (allow_break with_symmetry hdiag x0);
  r ← davidson (hessian_x hop) (Vector x0) (precond hdiag) tol nroots;
  info "ghf_real_internal: lowest eigs of H = %s" r.1;;
  '(e, v) ← lift (unwrap nroots r);
  unstable ← lift (lt_threshold e);
  let stable := negb unstable in
  dump_status stable (class_name mf +:+ " (real)") "internal";;
  mo ← (if stable then mret (mo_coeff mf)
        else v' ← lift (eigenvector v);
             lift (_rotate_mo (mo_coeff mf) (mo_occ mf) v'));
  let '(hop_r2c, hdiag_r2c) := _gen_hop_ghf_real2complex mf with_symmetry in
  let x0 := guess_diagonal hdiag_r2c in
  x0 ← lift (allow_break with_symmetry hdiag_r2c x0);
  '(e2, v2) ← davidson hop_r2c (Vector x0) (precond hdiag_r2c) tol nroots;
  info "ghf_real2complex: lowest eigs of H = %s" e2;;
  '(e2, v) ← lift (if bool_decide (nroots ≠ 1%Z)
                   then e2 ← eigs_0 e2; v ← vectors_0 v; mret (e2, v)
                   else mret (e2, v));
  unstable_r2c ← lift (lt_threshold e2);
  let stable_r2c := negb unstable_r2c in
  dump_status stable_r2c (class_name mf +:+ " (real)") "real -> complex";;
  mret (returns return_status mo stable).

(** [ghf_complex(mf, verbose, return_status, nroots, tol)] *)
Definition ghf_complex (mf : RHF) (return_status : bool) (nroots : Z)
    (tol : Qc) : prog (ndarray * option bool) :=
  let with_symmetry := true in
  let '(hop, hdiag) := gen_hop_ghf_complex_internal mf in
  let x0 := guess_diagonal hdiag in
  x0 ← lift (allow_break with_symmetry hdiag x0);
  r ← davidson hop (Vector x0) (precond hdiag) tol nroots;
  info "ghf_complex_internal: lowest eigs of H = %s" r.1;;
  '(e, v) ← lift (unwrap nroots r);
  unstable ← lift (lt_threshold e);
  let stable := negb unstable in
  dump_status stable (class_name mf +:+ " (complex)") "internal";;
  mo ← (if stable then mret (mo_coeff mf)
        else v ← lift (eigenvector v);
             lift (_rotate_mo (mo_coeff mf) (mo_occ mf) v));
  mret (returns return_status mo stable).

(** [rhf_stability(mf, internal, external, verbose, return_status, nroots,
    tol)].  It returns [(mo_i, mo_e)] or, with [return_status],
    [(mo_i, mo_e, stable_i, stable_e)]; what was not requested is [None]. *)
Definition rhf_stability (mf : RHF) (internal external return_status : bool)
    (nroots : Z) (tol : Qc)
  : prog (option ndarray * option (ndarray * ndarray)
          * option (option bool * option bool)) :=
  if return_status then
    '(mo_i, stable_i) ←
      (if internal
       then '(mo, st) ← rhf_internal mf true true nroots tol; mret (Some mo, st)
       else mret (None, None));
    '(mo_e, stable_e) ←
      (if external
       then '(mo, st) ← rhf_external mf true true nroots tol; mret (Some mo, st)
       else mret (None, None));
    mret (mo_i, mo_e, Some (stable_i, stable_e))
  else
    mo_i ← (if internal
            then '(mo, _) ← rhf_internal mf true false nroots tol; mret (Some mo)
            else mret None);
    mo_e ← (if external
            then '(mo, _) ← rhf_external mf true false nroots tol; mret (Some mo)
            else mret None);
    mret (mo_i, mo_e, None).

(** [uhf_stability(mf, internal, external, verbose, return_status, nroots,
    tol)] *)
Definition uhf_stability (mf : UHF) (internal external return_status : bool)
    (nroots : Z) (tol : Qc)
  : prog (option (ndarray * ndarray) * option ndarray
          * option (option bool * option bool)) :=
  if return_status then
    '(mo_i, stable_i) ←
      (if internal
       then '(mo, st) ← uhf_internal mf true true nroots tol; mret (Some mo, st)
       else mret (None, None));
    '(mo_e, stable_e) ←
      (if external
       then '(mo, st) ← uhf_external mf true true nroots tol; mret (Some mo, st)
       else mret (None, None));
    mret (mo_i, mo_e, Some (stable_i, stable_e))
  else
    mo_i ← (if internal
            then '(mo, _) ← uhf_internal mf true false nroots tol; mret (Some mo)
            else mret None);
    mo_e ← (if external
            then '(mo, _) ← uhf_external mf true false nroots tol; mret (Some mo)
            else mret None);
    mret (mo_i, mo_e, None).


(** The entry points that call the solver, as one type, and what each
    of them states about itself: the lines of its verdicts, in the order of
    its solver calls, the call whose verdict it returns, and the orbitals
    it returns when it does not rotate. *)
Inductive orbitals :=
| Orbs (C : ndarray)
| OrbsPair (Ca Cb : ndarray).

Inductive entry :=
| Rhf_internal (mf : RHF) (with_symmetry : bool)
| Rohf_internal (mf : RHF) (with_symmetry : bool)
| Uhf_internal (mf : UHF) (with_symmetry : bool)
| Ghf_real (mf : RHF) (with_symmetry : bool)
| Ghf_complex (mf : RHF)
| Dhf_stability (mf : RHF)
| Rhf_external (mf : RHF) (with_symmetry : bool)
| Uhf_external (mf : UHF) (with_symmetry : bool).

Definition one (r : ndarray * option bool) : orbitals * option bool :=
  (Orbs r.1, r.2).
Definition two (r : ndarray * ndarray * option bool)
  : orbitals * option bool :=
  (OrbsPair r.1.1 r.1.2, r.2).

Definition entry_prog (en : entry) (return_status : bool) (nroots : Z)
    (tol : Qc) : prog (orbitals * option bool) :=
  match en with
  | Rhf_internal mf ws =>
      r ← rhf_internal mf ws return_status nroots tol; mret (one r)
  | Rohf_internal mf ws =>
      r ← rohf_internal mf ws return_status nroots tol; mret (one r)
  | Uhf_internal mf ws =>
      r ← uhf_internal mf ws return_status nroots tol; mret (two r)
  | Ghf_real mf ws =>
      r ← ghf_real mf ws return_status nroots tol; mret (one r)
  | Ghf_complex mf =>
      r ← ghf_complex mf return_status nroots tol; mret (one r)
  | Dhf_stability mf =>
      r ← dhf_stability mf return_status nroots tol; mret (one r)
  | Rhf_external mf ws =>
      r ← rhf_external mf ws return_status nroots tol; mret (two r)
  | Uhf_external mf ws =>
      r ← uhf_external mf ws return_status nroots tol; mret (one r)
  end.

Definition channels (en : entry) : list (string * string) :=
  match en with
  | Rhf_internal mf _ | Rohf_internal mf _ | Dhf_stability mf =>
      [(class_name mf, "internal")]
  | Uhf_internal mf _ => [(class_name mf, "internal")]
  | Ghf_real mf _ =>
      [(class_name mf +:+ " (real)", "internal");
       (class_name mf +:+ " (real)", "real -> complex")]
  | Ghf_complex mf => [(class_name mf +:+ " (complex)", "internal")]
  | Rhf_external mf _ =>
      [(class_name mf, "real -> complex");
       (class_name mf, "RHF/RKS -> UHF/UKS")]
  | Uhf_external mf _ =>
      [(class_name mf, "real -> complex");
       (class_name mf, "UHF/UKS -> GHF/GKS")]
  end.

Definition is_internal (en : entry) : bool :=
  match en with
  | Rhf_external _ _ | Uhf_external _ _ => false
  | _ => true
  end.

Definition deciding (en : entry) : nat :=
  if is_internal en then 0%nat else 1%nat.

Definition unrotated (en : entry) : orbitals :=
  match en with
  | Rhf_internal mf _ | Rohf_internal mf _ | Ghf_real mf _ | Ghf_complex mf
  | Dhf_stability mf => Orbs (mo_coeff mf)
  | Uhf_internal mf _ => OrbsPair (mo_coeff mf).1 (mo_coeff mf).2
  | Rhf_external mf _ => OrbsPair (mo_coeff mf) (mo_coeff mf)
  | Uhf_external mf _ => Orbs (block_diag (mo_coeff mf).1 (mo_coeff mf).2)
  end.

(** The orbitals an entry point returns when it rotates along [v]. *)
Definition rotated (en : entry) (v : vec) : result orbitals :=
  match en with
  | Rhf_internal mf _ | Rohf_internal mf _ | Ghf_real mf _ | Ghf_complex mf
  | Dhf_stability mf =>
      mo ← _rotate_mo (mo_coeff mf) (mo_occ mf) v; mret (Orbs mo)
  | Uhf_internal mf _ =>
      mo ← uhf_internal_rotate mf v; mret (OrbsPair mo.1 mo.2)
  | Rhf_external mf _ =>
      mo ← _rotate_mo (mo_coeff mf) (mo_occ mf) v;
      mret (OrbsPair mo (mo_coeff mf))
  | Uhf_external mf _ =>
      mo ← uhf_external_rotate mf
             (block_diag (mo_coeff mf).1 (mo_coeff mf).2) v;
      mret (Orbs mo)
  end.

End Stability.

(** ** The stabilize-and-reoptimize driver *)

(** What [mf.stability(return_status=True)] returns: the four values of
    the restricted and unrestricted dispatchers, the two values of the
    generalized and relativistic ones, or something else. *)
Inductive stability_result (orbs ext : Type) :=
| Tuple4 (mo_i : orbs) (mo_e : ext) (stable_i : bool) (stable_e : ext)
| Tuple2 (mo : orbs) (stable : bool)
| TupleOther.
Arguments Tuple4 {orbs ext} mo_i mo_e stable_i stable_e.
Arguments Tuple2 {orbs ext} mo stable.
Arguments TupleOther {orbs ext}.

(** The lines of the driver's log ([fmt % cyc]) and its calls of
    [mf.run(dm1)]. *)
Inductive opt_event (dm : Type) :=
| OptNote (fmt : string) (cyc : Z)
| OptRun (dm1 : dm).
Arguments OptNote {dm} fmt cyc.
Arguments OptRun {dm} dm1.

Section StableOpt.

Context {scf orbs ext occ dm : Type}.

(** The methods of the mean-field object: [mf.stability], [mf.mo_occ],
    [mf.make_rdm1] and [mf.run], which re-optimizes from a density matrix
    and gives the new solution. *)
Variable stability : scf → result (stability_result orbs ext).
Variable mf_mo_occ : scf → occ.
Variable mf_make_rdm1 : scf → orbs → occ → dm.
Variable mf_run : scf → dm → scf.

(** [_get_internal_stability_status(mf)]: [None] falls out of the
    conditional when the result has neither four nor two entries. *)
Definition _get_internal_stability_status (mf : scf)
  : result (option (orbs * bool)) :=
  res ← stability mf;
  match res with
  | Tuple4 mo_i _ stable_i _ => mret (Some (mo_i, stable_i))
  | Tuple2 mo stable => mret (Some (mo, stable))
  | TupleOther => mret None
  end.

(** [mo1, stable = _get_internal_stability_status(mf)]: unpacking [None]
    is a type error. *)
Definition status_pair (mf : scf) : result (orbs * bool) :=
  res ← _get_internal_stability_status mf;
  match res with
  | Some p => mret p
  | None => Err TypeError
  end.

(** The loop
<<
    while (not stable and cyc < max_attempt):
        log.note('Try to optimize orbitals until stable, attempt %d' % cyc)
        dm1 = mf.make_rdm1(mo1, mf.mo_occ)
        mf = mf.run(dm1)
        mo1, stable = _get_internal_stability_status(mf)
        cyc += 1
>>
    from the state [(mf, mo1, stable, cyc)]; it gives the events and the
    state at the exit. *)
Equations? opt_loop (max_attempt : Z) (mf : scf) (mo1 : orbs) (stable : bool)
    (cyc : Z) : list (opt_event dm) * result (scf * bool * Z)
    by wf (Z.to_nat (max_attempt - cyc)) lt :=
  opt_loop max_attempt mf mo1 stable cyc
    with inspect (negb stable && (cyc <? max_attempt)%Z) => {
    | exist _ true H :=
        let dm1 := mf_make_rdm1 mf mo1 (mf_mo_occ mf) in
        let mf := mf_run mf dm1 in
        let here :=
          [OptNote "Try to optimize orbitals until stable, attempt %d" cyc;
           OptRun dm1] in
        match status_pair mf with
        | Ok (mo1, stable) =>
            let '(t, r) := opt_loop max_attempt mf mo1 stable (cyc + 1)%Z in
            (here ++ t, r)
        | Err e => (here, Err e)
        end;
    | exist _ false H := ([], Ok (mf, stable, cyc)) }.
Proof. apply andb_prop in H as [_ H%Z.ltb_lt]. lia. Qed.

(** [stable_opt_internal(mf, max_attempt=10)] *)
Definition stable_opt_internal (mf : scf) (max_attempt : Z)
  : list (opt_event dm) * result scf :=
  match status_pair mf with
  | Err e => ([], Err e)
  | Ok (mo1, stable) =>
      let cyc := 0%Z in
      let '(t, r) := opt_loop max_attempt mf mo1 stable cyc in
      match r with
      | Err e => (t, Err e)
      | Ok (mf, stable, cyc) =>
          if negb stable
          then (t ++ [OptNote "Stability Opt failed after %d attempts" cyc],
                Ok mf)
          else (t, Ok mf)
      end
  end.

End StableOpt.

(** The default of the keyword [max_attempt]. *)
Definition max_attempt_default : Z := 10.

Definition runs {dm} (t : list (opt_event dm)) : list dm :=
  omap (λ ev, match ev with OptRun d => Some d | OptNote _ _ => None end) t.

(** ** Vocabulary of the statements *)

(** The lines [log.note] wrote, in order. *)
Definition notes (t : list event) : list string :=
  omap (λ ev, match ev with EvLog (LogNote m) => Some m | _ => None end) t.

(** The events of one solved channel: the call and its answer, the line
    with the eigenvalues, the verdict. *)
Definition channel_events (c : dav_call) (fmt cls chan : string)
    (r : dav_result) (e : Qc) : list event :=
  [EvSolve c r; EvLog (LogInfo fmt r.1);
   EvLog (LogNote (status_line (is_stable e) cls chan))].

(** The orbitals a driver returns for the lowest eigenpair [e], [v] of the
    answer [r]: [keep] when stable, the rotation along [v] otherwise. *)
Definition chosen {A} (e : Qc) (r : dav_result) (keep : A)
    (rot : vec → result A) (mo : A) : Prop :=
  if is_stable e then mo = keep
  else ∃ v, lowest_vector r = Some v ∧ rot v = Ok mo.

(** The call of an internal channel built on [gen_g_hop]. *)
Definition internal_call (gen : vec * (vec → cvec) * vec) (x0 : vec)
    (tol : Qc) (nroots : Z) : dav_call :=
  DavCall (hessian_x gen.1.2) (Vector x0)
          (precond (map (λ h, h * 2) gen.2)) tol nroots.

(** The first call of a driver, if it gets that far. *)
Fixpoint first_call {A} (p : prog A) : option dav_call :=
  match p with
  | Davidson c _ => Some c
  | Log _ k => first_call k
  | _ => None
  end.

(** What the classifier says of an eigenvalue. *)
Definition classified (e : Qc) (stable : bool) : Prop :=
  stable = negb (Qcltb e (- lit_1e_5))
  ∧ (0 ≤ e → stable = true)
  ∧ (e < - lit_1e_5 → stable = false).

(** The raw product and the raw diagonal of an internal channel, as its
    builder gives them: those of [gen_g_hop], or, for the complex
    generalized driver, those of [_gen_hop_ghf_complex_internal]. *)
Definition result_map {A B} (f : A → B) (r : result A) : result B :=
  match r with Ok a => Ok (f a) | Err e => Err e end.

Definition raw_problem (en : entry) : option ((vec → result cvec) * vec) :=
  match en with
  | Rhf_internal mf ws | Rohf_internal mf ws =>
      let gen := gen_g_hop mf (Some ws) in Some (λ x, Ok (gen.1.2 x), gen.2)
  | Uhf_internal mf ws =>
      let gen := gen_g_hop mf (Some ws) in Some (λ x, Ok (gen.1.2 x), gen.2)
  | Ghf_real mf _ | Dhf_stability mf =>
      let gen := gen_g_hop mf None in Some (λ x, Ok (gen.1.2 x), gen.2)
  | Ghf_complex mf =>
      let gen := gen_hop_ghf_complex_internal mf in
      Some (λ x, result_map (map (λ a, Complex a 0)) (gen.1 x), gen.2)
  | Rhf_external _ _ | Uhf_external _ _ => None
  end.

Definition is_ghf_complex (en : entry) : bool :=
  match en with Ghf_complex _ => true | _ => false end.

(** The call [c] hands over twice the real part of [hop] and twice the
    diagonal [hdiag]. *)
Definition twice_real_part (c : dav_call) (hop : vec → result cvec)
    (hdiag : vec) : Prop :=
  (∀ x, call_aop c x = result_map (map (λ z, 2 * real z)) (hop x))
  ∧ (∀ dx e x0,
       call_precond c dx e x0 = precond (map (λ h, 2 * h) hdiag) dx e x0).

Definition hands_twice_real_part (expmat : ndarray → ndarray) (en : entry)
  : Prop :=
  ∀ hop hdiag rs nroots tol c,
    raw_problem en = Some (hop, hdiag) →
    first_call (entry_prog expmat en rs nroots tol) = Some c →
    twice_real_part c hop hdiag.

(** One divisor of the preconditioner, from the difference [d] of a
    diagonal entry and the eigenvalue estimate. *)
Definition floored (d : Qc) : Qc :=
  if Qcltb (Qcabs d) lit_1e_8 then lit_1e_8 else d.

(** ** The attempts of the driver

    The counters the driver wrote with the format [fmt], and the two
    formats of its log. *)
Definition note_cycles {dm} (fmt : string) (t : list (opt_event dm)) : list Z :=
  omap (λ ev, match ev with
              | OptNote f c => if decide (f = fmt) then Some c else None
              | OptRun _ => None
              end) t.

Definition fmt_try : string :=
  "Try to optimize orbitals until stable, attempt %d".
Definition fmt_failed : string := "Stability Opt failed after %d attempts".

Section Attempts.

Context {scf orbs ext occ dm : Type}.
Variable stability : scf → result (stability_result orbs ext).
Variable mf_mo_occ : scf → occ.
Variable mf_make_rdm1 : scf → orbs → occ → dm.
Variable mf_run : scf → dm → scf.

(** One pass of the body of the loop: the solution re-optimized from the
    density matrix of the orbitals [mo1]. *)
Definition reoptimized (mf : scf) (mo1 : orbs) : scf :=
  mf_run mf (mf_make_rdm1 mf mo1 (mf_mo_occ mf)).

(** The solution after [k] passes, each along the orbitals the stability
    query gave for the solution before it. *)
Fixpoint solution (mf : scf) (k : nat) : result scf :=
  match k with
  | O => Ok mf
  | S k =>
      match status_pair stability mf with
      | Ok (mo1, _) => solution (reoptimized mf mo1) k
      | Err e => Err e
      end
  end.

(** The [k] re-optimizations of a run of the driver: each started from
    an unstable solution, and the solution after the last one is [mfk]. *)
Definition attempts_from (mf : scf) (t : list (opt_event dm)) (k : nat)
    (mfk : scf) : Prop :=
  length (runs t) = k
  ∧ (∀ j, (j < k)%nat →
       ∃ mfj moj, solution mf j = Ok mfj
                  ∧ status_pair stability mfj = Ok (moj, false)
                  ∧ runs t !! j = Some (mf_make_rdm1 mfj moj (mf_mo_occ mfj)))
  ∧ solution mf k = Ok mfk.

End Attempts.

(** ** Symmetry projection in the external operators

    The index sets and the masks [sym_forbid] of the three builders, as
    the builders compute them. *)
Definition rhf_virtual (mf : RHF) : list nat :=
  where_ (λ n, bool_decide (n = 0)) (mo_occ mf).
Definition rhf_occupied (mf : RHF) : list nat :=
  where_ (λ n, bool_decide (n = 2)) (mo_occ mf).
Definition rhf_sym_forbid (mf : RHF) : list bool :=
  outer_ne (get_orbsym mf) (get_orbsym mf) (rhf_virtual mf) (rhf_occupied mf).

Definition ghf_virtual (mf : RHF) : list nat :=
  where_ (λ n, bool_decide (n = 0)) (mo_occ mf).
Definition ghf_occupied (mf : RHF) : list nat :=
  where_ (λ n, bool_decide (n = 1)) (mo_occ mf).
Definition ghf_sym_forbid (mf : RHF) : list bool :=
  outer_ne (get_orbsym mf) (get_orbsym mf) (ghf_virtual mf) (ghf_occupied mf).

Definition uhf_occupied_a (mf : UHF) : list nat :=
  where_ (λ n, Qcltb 0 n) (mo_occ mf).1.
Definition uhf_occupied_b (mf : UHF) : list nat :=
  where_ (λ n, Qcltb 0 n) (mo_occ mf).2.
Definition uhf_virtual_a (mf : UHF) : list nat :=
  where_ (λ n, bool_decide (n = 0)) (mo_occ mf).1.
Definition uhf_virtual_b (mf : UHF) : list nat :=
  where_ (λ n, bool_decide (n = 0)) (mo_occ mf).2.
Definition uhf_sym_forbid1 (mf : UHF) : list bool :=
  let s := get_orbsym mf in
  outer_ne s.1 s.1 (uhf_virtual_a mf) (uhf_occupied_a mf)
  ++ outer_ne s.2 s.2 (uhf_virtual_b mf) (uhf_occupied_b mf).
Definition uhf_sym_forbid2 (mf : UHF) : list bool :=
  let s := get_orbsym mf in
  outer_ne s.1 s.2 (uhf_virtual_a mf) (uhf_occupied_b mf)
  ++ outer_ne s.2 s.1 (uhf_virtual_b mf) (uhf_occupied_a mf).

(** An array all of whose entries are zero, whatever its shape. *)
Definition all_zero (A : ndarray) : Prop := ∀ i j, get A i j = 0.

(** The five Hessian-vector products of the external channels, built
    with [with_symmetry=True]. *)
Inductive external_operator :=
| Op_rhf_real2complex (mf : RHF)
| Op_rhf_rhf2uhf (mf : RHF)
| Op_uhf_real2complex (mf : UHF)
| Op_uhf_uhf2ghf (mf : UHF)
| Op_ghf_real2complex (mf : RHF).

Definition external_hop (o : external_operator) : vec → result vec :=
  match o with
  | Op_rhf_real2complex mf => (_gen_hop_rhf_external mf true).1.1.1
  | Op_rhf_rhf2uhf mf => (_gen_hop_rhf_external mf true).1.2
  | Op_uhf_real2complex mf => (_gen_hop_uhf_external mf true).1.1.1
  | Op_uhf_uhf2ghf mf => (_gen_hop_uhf_external mf true).1.2
  | Op_ghf_real2complex mf => (_gen_hop_ghf_real2complex mf true).1
  end.

Definition has_symmetry (o : external_operator) : bool :=
  match o with
  | Op_rhf_real2complex mf | Op_rhf_rhf2uhf mf | Op_ghf_real2complex mf =>
      mol_symmetry mf
  | Op_uhf_real2complex mf | Op_uhf_uhf2ghf mf => mol_symmetry mf
  end.

Definition sym_forbidden (o : external_operator) : list bool :=
  match o with
  | Op_rhf_real2complex mf | Op_rhf_rhf2uhf mf => rhf_sym_forbid mf
  | Op_uhf_real2complex mf => uhf_sym_forbid1 mf
  | Op_uhf_uhf2ghf mf => uhf_sym_forbid2 mf
  | Op_ghf_real2complex mf => ghf_sym_forbid mf
  end.

(** The response function of the operator sends the zero density
    perturbation to a zero potential. *)
Definition zero_response (o : external_operator) : Prop :=
  match o with
  | Op_rhf_real2complex mf =>
      let nao := nrows (mo_coeff mf) in
      all_zero (gen_response mf [singlet None; hermi 2] (zeros nao nao))
  | Op_rhf_rhf2uhf mf =>
      let nao := nrows (mo_coeff mf) in
      all_zero (gen_response mf [singlet (Some false); hermi 1]
                  (zeros nao nao))
  | Op_uhf_real2complex mf =>
      let naoa := nrows (mo_coeff mf).1 in
      let naob := nrows (mo_coeff mf).2 in
      let v := gen_response mf [with_j false; hermi 2]
                 (zeros naoa naoa, zeros naob naob) in
      all_zero v.1 ∧ all_zero v.2
  | Op_uhf_uhf2ghf mf =>
      let naoa := nrows (mo_coeff mf).1 in
      let naob := nrows (mo_coeff mf).2 in
      let v := gen_response mf [with_j false; hermi 0]
                 (zeros naoa naob, zeros naob naoa) in
      all_zero v.1 ∧ all_zero v.2
  | Op_ghf_real2complex mf =>
      let nao := nrows (mo_coeff mf) in
      all_zero (gen_response mf [with_j false; hermi 0] (zeros nao nao))
  end.

(** [hop] sends to the zero vector every trial vector that is zero
    outside the forbidden positions. *)
Definition annihilates (forbid : list bool) (hop : vec → result vec) : Prop :=
  ∀ x, length x = length forbid →
       (∀ i, forbid !! i = Some false → x !! i = Some 0) →
       hop x = Ok (replicate (length x) 0).

(** Whatever [hop] returns is zero at the forbidden positions, and [hop]
    returns on every trial vector of the length of the mask. *)
Definition projects (forbid : list bool) (hop : vec → result vec) : Prop :=
  (∀ x y i, hop x = Ok y → forbid !! i = Some true → y !! i = Some 0)
  ∧ (∀ x, length x = length forbid → ∃ y, hop x = Ok y ∧ length y = length x).

(** ** A small closed-shell example

    Two orbitals in an orthonormal basis, the first doubly occupied, of
    different symmetry; the core Hamiltonian is diagonal with entries 0
    and 1, the oracles are the simplest ones of the right shape. *)
Definition qc (q : Q) : Qc := Q2Qc q.

Definition ex_rhf : RHF := {|
  class_name := "RHF";
  mol_symmetry := true;
  mo_coeff := eye 2;
  mo_occ := [2; 0];
  get_orbsym := [0%Z; 1%Z];
  get_hcore :=
    tabulate 2 2 (λ i j, if bool_decide (i = j) then qc (Z.of_nat i # 1) else 0);
  get_veff := λ dm, dm;
  get_fock := λ h dm, add h dm;
  make_rdm1 := λ C occ, zeros 2 2;
  gen_response := λ _ dm, dm;
  gen_g_hop := λ _, ([0], λ x, map (λ a, Complex a 0) x, [1]);
  gen_hop_ghf_complex_internal := (λ x, Ok x, [1])
|}.

(** The same two orbitals for each spin. *)
Definition ex_uhf : UHF := {|
  class_name := "UHF";
  mol_symmetry := true;
  mo_coeff := (eye 2, eye 2);
  mo_occ := ([1; 0], [1; 0]);
  get_orbsym := ([0%Z; 1%Z], [0%Z; 1%Z]);
  get_hcore :=
    tabulate 2 2 (λ i j, if bool_decide (i = j) then qc (Z.of_nat i # 1) else 0);
  get_veff := λ dm, dm;
  get_fock := λ h dm, h;
  make_rdm1 := λ C occ, (zeros 2 2, zeros 2 2);
  gen_response := λ _ dm, dm;
  gen_g_hop := λ _, ([0; 0], λ x, map (λ a, Complex a 0) x, [1; 1]);
  gen_hop_ghf_complex_internal := (λ x, Ok x, [1; 1])
|}.

(** A generalized object with one occupied and one virtual spin orbital,
    of energies 0 and 1, without symmetry and without response.  For it
    [_gen_hop_ghf_complex_internal] gives the diagonal of the two energy
    differences and the operator that sends the pair (X, Y) to
    (X fvv - foo X, Y fvv - foo Y), the identity. *)
Definition ex_ghf : RHF := {|
  class_name := "GHF";
  mol_symmetry := false;
  mo_coeff := eye 2;
  mo_occ := [1; 0];
  get_orbsym := [0%Z; 0%Z];
  get_hcore :=
    tabulate 2 2 (λ i j, if bool_decide (i = j) then qc (Z.of_nat i # 1) else 0);
  get_veff := λ dm, zeros 2 2;
  get_fock := λ h dm, h;
  make_rdm1 := λ C occ, zeros 2 2;
  gen_response := λ _ dm, zeros 2 2;
  gen_g_hop := λ _, ([0], λ x, map (λ a, Complex a 0) x, [1]);
  gen_hop_ghf_complex_internal := (λ x, Ok x, [1; 1])
|}.

(** An exponential to first order, [I + A]: exact on the zero matrix. *)
Definition expmat_1 (A : ndarray) : ndarray := add (eye (nrows A)) A.

(** An answer of the solver with the given roots; the eigenvector of the
    root [e] is the one-entry vector [[e]]. *)
Definition answer (es : list Q) : dav_result :=
  (Eigs (map qc es), Vectors (map (λ e, [qc e]) es)).

Definition ex_tol : Qc := qc 1e-4.

(** A collaborator for the driver: the solutions are numbered, a solution
    is stable from the number [good] on, and a re-optimization gives the
    next one. *)
Definition ex_query (good : Z) (mf : Z) : result (stability_result Z unit) :=
  Ok (Tuple2 mf (good <=? mf)%Z).
Definition ex_opt (good : Z) (mf max_attempt : Z)
  : list (opt_event Z) * result Z :=
  stable_opt_internal (ex_query good) (λ _, tt) (λ _ mo _, mo)
    (λ mf dm1, (dm1 + 1)%Z) mf max_attempt.

(** ** The dispatcher of the generalized method *)

(** A generalized mean-field object with what [is_complex] reads of it:
    whether [mf.mo_coeff.dtype] is [numpy.float64], and the imaginary
    parts of the entries of [mf.make_rdm1()]. *)
Record ghf_object := GhfObject {
  ghf_mf : RHF;
  dtype_is_float64 : bool;
  rdm1_imag : vec
}.

(** [a.max()]: the largest entry, an error on an empty array. *)
Definition amax (a : vec) : result Qc :=
  match a with
  | [] => Err ValueError
  | x :: a => Ok (foldl (λ m y, if Qcltb m y then y else m) x a)
  end.

(** [is_complex(mf)] *)
Definition is_complex (mf : ghf_object) : result bool :=
  if dtype_is_float64 mf then Ok false
  else m ← amax (map Qcabs (rdm1_imag mf)); Ok (Qcltb lit_1e_6 m).

Section Ghf.
Variable expmat : ndarray → ndarray.

(** [ghf_stability(mf, verbose, return_status, nroots, tol)] *)
Definition ghf_stability (mf : ghf_object) (return_status : bool)
    (nroots : Z) (tol : Qc) : prog (ndarray * option bool) :=
  c ← lift (is_complex mf);
  if c : bool then ghf_complex expmat (ghf_mf mf) return_status nroots tol
  else ghf_real expmat (ghf_mf mf) true return_status nroots tol.
End Ghf.

(** ** Vocabulary of the further properties *)

(** The guesses of the solver calls of a run, in order. *)
Definition guesses (t : list event) : list vectors := map call_x0 (calls t).




(** The operator and the diagonal of an external channel, built with or
    without point-group symmetry, and the number of virtual-occupied pairs
    of the channel. *)
Definition external_hop_with (with_symmetry : bool) (o : external_operator)
  : vec → result vec :=
  match o with
  | Op_rhf_real2complex mf => (_gen_hop_rhf_external mf with_symmetry).1.1.1
  | Op_rhf_rhf2uhf mf => (_gen_hop_rhf_external mf with_symmetry).1.2
  | Op_uhf_real2complex mf => (_gen_hop_uhf_external mf with_symmetry).1.1.1
  | Op_uhf_uhf2ghf mf => (_gen_hop_uhf_external mf with_symmetry).1.2
  | Op_ghf_real2complex mf => (_gen_hop_ghf_real2complex mf with_symmetry).1
  end.

Definition external_hdiag (with_symmetry : bool) (o : external_operator)
  : vec :=
  match o with
  | Op_rhf_real2complex mf => (_gen_hop_rhf_external mf with_symmetry).1.1.2
  | Op_rhf_rhf2uhf mf => (_gen_hop_rhf_external mf with_symmetry).2
  | Op_uhf_real2complex mf => (_gen_hop_uhf_external mf with_symmetry).1.1.2
  | Op_uhf_uhf2ghf mf => (_gen_hop_uhf_external mf with_symmetry).2
  | Op_ghf_real2complex mf => (_gen_hop_ghf_real2complex mf with_symmetry).2
  end.

Definition hop_dim (o : external_operator) : nat :=
  match o with
  | Op_rhf_real2complex mf | Op_rhf_rhf2uhf mf =>
      length (rhf_virtual mf) * length (rhf_occupied mf)
  | Op_uhf_real2complex mf =>
      length (uhf_virtual_a mf) * length (uhf_occupied_a mf)
      + length (uhf_virtual_b mf) * length (uhf_occupied_b mf)
  | Op_uhf_uhf2ghf mf =>
      length (uhf_virtual_a mf) * length (uhf_occupied_b mf)
      + length (uhf_virtual_b mf) * length (uhf_occupied_a mf)
  | Op_ghf_real2complex mf =>
      length (ghf_virtual mf) * length (ghf_occupied mf)
  end%nat.

(** The error of an operator on a trial vector of the wrong length. *)
Definition dimension_error (with_symmetry : bool) (o : external_operator)
  : exn :=
  match o with
  | Op_uhf_real2complex mf | Op_uhf_uhf2ghf mf =>
      if with_symmetry && mol_symmetry mf then IndexError else ValueError
  | _ => ValueError
  end.

(** The symmetry-forbidden entries zeroed. *)
Definition project (o : external_operator) (x : vec) : vec :=
  fill_mask (sym_forbidden o) 0 x.

Definition lit_1e5 : Qc := Q2Qc 1e5.

(** [res[0], res[2]] of four values, [res] of two: the part of the answer
    of [mf.stability] about the internal channel. *)
Definition internal_part {orbs ext} (res : stability_result orbs ext)
  : stability_result orbs ext :=
  match res with
  | Tuple4 mo_i _ stable_i _ => Tuple2 mo_i stable_i
  | res => res
  end.

(** [x + y] on one-dimensional arrays of one length. *)
Definition vadd (x y : vec) : vec := zip_with Qcplus x y.





Definition ex_ghf_object : ghf_object := {|
  ghf_mf := ex_ghf;
  dtype_is_float64 := false;
  rdm1_imag := [0; qc 1e-7; - qc 1e-7; 0]
|}.

(** * Properties *)

(** ** Arithmetic of the thresholds *)

Lemma lit_1e_5_pos : 0 < lit_1e_5.
Proof. reflexivity. Qed.

Lemma lit_1e_8_pos : 0 < lit_1e_8.
Proof. reflexivity. Qed.

Lemma Qcltb_true a b : Qcltb a b = true ↔ a < b.
Proof. unfold Qcltb. apply bool_decide_eq_true. Qed.

Lemma Qcltb_false a b : Qcltb a b = false ↔ b ≤ a.
Proof.
  unfold Qcltb. rewrite bool_decide_eq_false. split.
  - apply Qcnot_lt_le.
  - apply Qcle_not_lt.
Qed.

Lemma is_stable_spec e : is_stable e = negb (Qcltb e (- lit_1e_5)).
Proof. reflexivity. Qed.

Lemma is_stable_true e : is_stable e = true ↔ - lit_1e_5 ≤ e.
Proof.
  unfold is_stable, below_threshold. rewrite negb_true_iff. apply Qcltb_false.
Qed.

Lemma is_stable_false e : is_stable e = false ↔ e < - lit_1e_5.
Proof.
  unfold is_stable, below_threshold. rewrite negb_false_iff. apply Qcltb_true.
Qed.

Lemma is_stable_nonneg e : 0 ≤ e → is_stable e = true.
Proof.
  intros He. apply is_stable_true.
  apply Qcle_trans with 0; [|exact He].
  apply Qclt_le_weak. reflexivity.
Qed.

(** ** Symbolic execution of the drivers *)

Lemma unwrap_lowest nroots r e' v' b :
  unwrap nroots r = Ok (e', v') → lt_threshold e' = Ok b →
  ∃ e, lowest r = Some e ∧ b = below_threshold e.
Proof.
  destruct r as [e v]. unfold unwrap, lowest. simpl.
  case_bool_decide.
  - destruct e as [e|[|e es]]; simpl; try done.
    destruct (vectors_0 v); simpl; [|done].
    intros [= <- <-]. simpl. intros [= <-]. eauto.
  - intros [= <- <-]. destruct e as [e|[|e [|??]]]; simpl; try done.
    + intros [= <-]. eauto.
    + intros [= <-]. eauto.
Qed.

Lemma unwrap_lowest_vector nroots r e' v' v :
  unwrap nroots r = Ok (e', v') → eigenvector v' = Ok v →
  lowest_vector r = Some v.
Proof.
  destruct r as [e w]. unfold unwrap, lowest_vector. simpl.
  case_bool_decide.
  - destruct (eigs_0 e); simpl; [|done].
    destruct w as [x|[|x w]|[|w ws]]; simpl; try done.
    + intros [= <- <-]. done.
    + intros [= <- <-]. simpl. by intros [= <-].
  - intros [= <- <-]. destruct w; simpl; try done. by intros [= <-].
Qed.

Lemma exec_acc_spec {A} (p : prog A) script acc :
  exec_acc p script acc =
  let '(t, o, rest) := exec p script in (rev acc ++ t, o, rest).
Proof.
  revert script acc. induction p as [a|e|l k IH|c k IH]; intros script acc; simpl.
  - by rewrite app_nil_r.
  - by rewrite app_nil_r.
  - rewrite IH. destruct (exec k script) as [[t o] rest]. simpl.
    by rewrite <- app_assoc.
  - destruct script as [|r rs]; [by rewrite app_nil_r|].
    rewrite IH. destruct (exec (k r) rs) as [[t o] rest]. simpl.
    by rewrite <- app_assoc.
Qed.

Lemma exec_exec_acc {A} (p : prog A) script : exec p script = exec_acc p script [].
Proof. rewrite exec_acc_spec. by destruct (exec p script) as [[??]?]. Qed.

Lemma exec_acc_lift_bind {A B} (r : result A) (f : A → prog B) script acc :
  exec_acc (lift r ≫= f) script acc =
  match r with
  | Ok a => exec_acc (f a) script acc
  | Err e => (rev acc, Raised e, script)
  end.
Proof. by destruct r. Qed.

Lemma exec_acc_assoc {A B C} (m : prog A) (f : A → prog B) (g : B → prog C)
    script acc :
  exec_acc ((m ≫= f) ≫= g) script acc
  = exec_acc (m ≫= λ a, f a ≫= g) script acc.
Proof.
  revert script acc. induction m as [a|e|l k IH|c k IH]; intros script acc.
  - done.
  - done.
  - apply IH.
  - destruct script as [|r rs]; [done|]. apply IH.
Qed.

Lemma exec_acc_dump_status {B} stable cls chan (f : () → prog B) script acc :
  exec_acc (dump_status stable cls chan ≫= f) script acc
  = exec_acc (f ()) script
      (EvLog (LogNote (status_line stable cls chan)) :: acc).
Proof. by destruct stable. Qed.

Ltac exec_step H :=
  first
    [ rewrite exec_acc_lift_bind in H;
      match type of H with
      | (match ?x with Ok _ => _ | Err _ => _ end) = _ => destruct x eqn:?
      end
    | rewrite exec_acc_assoc in H
    | rewrite exec_acc_dump_status in H
    | match type of H with
      | exec_acc (match ?x with _ => _ end) _ _ = _ => destruct x eqn:?
      | exec_acc (match ?x with _ => _ end ≫= _) _ _ = _ => destruct x eqn:?
      | (match ?x with _ => _ end) = _ => destruct x eqn:?
      end ];
  simpl in H; simplify_eq.

Ltac exec_all H := simpl in H; repeat exec_step H.


Lemma unwrap_ghf_lowest (nroots : Z) (e2 : eigs) (v : vectors) e' v' b :
  (if bool_decide (nroots ≠ 1%Z)
   then e2 ← eigs_0 e2; v ← vectors_0 v; mret (e2, v)
   else mret (e2, v)) = Ok (e', v') →
  lt_threshold e' = Ok b →
  ∃ e, (∀ v2, lowest (e2, v2) = Some e) ∧ b = below_threshold e.
Proof.
  intros Hu Hl.
  destruct (unwrap_lowest nroots (e2, v) e' v' b) as (e & He & Hb);
    [exact Hu|done|].
  by exists e.
Qed.

Lemma is_stable_negb e b : b = below_threshold e → negb b = is_stable e.
Proof. by intros ->. Qed.

(** The facts of a solved channel: its lowest eigenvalue, its verdict and,
    where the driver rotates, its eigenvector. *)
Ltac channel_facts :=
  repeat match goal with
    | Hu : unwrap _ ?r = Ok (?e', ?v'), Hl : lt_threshold ?e' = Ok ?b |- _ =>
        let e := fresh "e" in let He := fresh "He" in let Hb := fresh "Hb" in
        destruct (unwrap_lowest _ _ _ _ _ Hu Hl) as (e & He & Hb);
        apply is_stable_negb in Hb; clear Hl
    | Hu : (if bool_decide _ then _ else _) = Ok (?e', ?v'),
      Hl : lt_threshold ?e' = Ok ?b |- _ =>
        let e := fresh "e" in let He := fresh "He" in let Hb := fresh "Hb" in
        destruct (unwrap_ghf_lowest _ _ _ _ _ _ Hu Hl) as (e & He & Hb);
        apply is_stable_negb in Hb; clear Hl Hu
    | Hu : unwrap _ ?r = Ok (?e', ?v'), Hv : eigenvector ?v' = Ok ?v |- _ =>
        let Hw := fresh "Hw" in
        pose proof (unwrap_lowest_vector _ _ _ _ _ Hu Hv) as Hw;
        clear Hv
    end;
  repeat match goal with
    | Hb : negb ?b = is_stable ?e, Hs : negb ?b = _ |- _ =>
        rewrite Hb in Hs
    | Hb : negb ?b = is_stable ?e, Hs : ?b = _ |- _ =>
        apply (f_equal negb) in Hs; rewrite Hb in Hs; simpl in Hs
    | Hb : negb ?b = is_stable ?e, Hs : negb (negb ?b) = _ |- _ =>
        rewrite Hb in Hs
    | Hs : negb (is_stable _) = true |- _ => apply negb_true_iff in Hs
    | Hs : negb (is_stable _) = false |- _ => apply negb_false_iff in Hs
    end.

Ltac use_verdicts :=
  unfold channel_events, chosen;
  repeat match goal with
    | Hb : negb ?b = is_stable ?e |- context [negb ?b] => rewrite Hb
    | Hs : is_stable ?e = _ |- context [is_stable ?e] => rewrite Hs
    end.

Ltac close_run :=
  channel_facts;
  repeat first [ reflexivity | eassumption | progress use_verdicts
               | match goal with
                 | He : ∀ v, lowest (_, v) = Some _ |- lowest _ = Some _ =>
                     apply He
                 end
               | split | eexists ].

Arguments dump_status : simpl never.

Lemma exec_bind {A B} (m : prog A) (f : A → prog B) script :
  exec (m ≫= f) script =
  match exec m script with
  | (t1, Returned a, rest) =>
      let '(t2, o, rest') := exec (f a) rest in (t1 ++ t2, o, rest')
  | (t1, Raised e, rest) => (t1, Raised e, rest)
  | (t1, Starved, rest) => (t1, Starved, rest)
  end.
Proof.
  revert script. induction m as [a|e|l k IH|c k IH]; intros script; simpl.
  - by destruct (exec (f a) script) as [[??]?].
  - done.
  - change (prog_bind f k) with (k ≫= f). rewrite IH.
    destruct (exec k script) as [[t1 [a|e|]] rest]; simpl; [|done..].
    by destruct (exec (f a) rest) as [[??]?].
  - destruct script as [|r rs]; [done|].
    change (prog_bind f (k r)) with (k r ≫= f). rewrite IH.
    destruct (exec (k r) rs) as [[t1 [a|e|]] rest]; simpl; [|done..].
    by destruct (exec (f a) rest) as [[??]?].
Qed.

Lemma exec_fmap_returned {A B} (m : prog A) (g : A → B) script t b rest :
  exec (m ≫= λ a, mret (g a)) script = (t, Returned b, rest) →
  ∃ a, exec m script = (t, Returned a, rest) ∧ b = g a.
Proof.
  rewrite exec_bind. destruct (exec m script) as [[t1 [a|e|]] rest1]; [|done..].
  simpl. rewrite app_nil_r. intros [= <- <- <-]. eauto.
Qed.

Section Runs.

Variable expmat : ndarray → ndarray.

Lemma rhf_internal_run mf ws rs nroots tol script t mo st rest :
  exec (rhf_internal expmat mf ws rs nroots tol) script
    = (t, Returned (mo, st), rest) →
  ∃ x0 r e,
    script = r :: rest ∧ lowest r = Some e ∧
    t = channel_events
          (internal_call (gen_g_hop mf (Some ws)) x0 tol nroots)
          "rhf_internal: lowest eigs of H = %s" (class_name mf) "internal"
          r e ∧
    st = (if rs then Some (is_stable e) else None) ∧
    chosen e r (mo_coeff mf) (_rotate_mo expmat (mo_coeff mf) (mo_occ mf)) mo.
Proof.
  rewrite exec_exec_acc. unfold rhf_internal, internal_call. intros H.
  destruct (gen_g_hop mf (Some ws)) as [[g hop] hdiag] eqn:Hg.
  exec_all H; close_run.
Qed.

Lemma rohf_internal_run mf ws rs nroots tol script t mo st rest :
  exec (rohf_internal expmat mf ws rs nroots tol) script
    = (t, Returned (mo, st), rest) →
  ∃ x0 r e,
    script = r :: rest ∧ lowest r = Some e ∧
    t = channel_events
          (internal_call (gen_g_hop mf (Some ws)) x0 tol nroots)
          "rohf_internal: lowest eigs of H = %s" (class_name mf) "internal"
          r e ∧
    st = (if rs then Some (is_stable e) else None) ∧
    chosen e r (mo_coeff mf) (_rotate_mo expmat (mo_coeff mf) (mo_occ mf)) mo.
Proof.
  rewrite exec_exec_acc. unfold rohf_internal, internal_call. intros H.
  destruct (gen_g_hop mf (Some ws)) as [[g hop] hdiag] eqn:Hg.
  exec_all H; close_run.
Qed.

Lemma uhf_internal_run mf ws rs nroots tol script t mo st rest :
  exec (uhf_internal expmat mf ws rs nroots tol) script
    = (t, Returned (mo, st), rest) →
  ∃ x0 r e,
    script = r :: rest ∧ lowest r = Some e ∧
    t = channel_events
          (internal_call (gen_g_hop mf (Some ws)) x0 tol nroots)
          "uhf_internal: lowest eigs of H = %s" (class_name mf) "internal"
          r e ∧
    st = (if rs then Some (is_stable e) else None) ∧
    chosen e r (mo_coeff mf) (uhf_internal_rotate expmat mf) mo.
Proof.
  rewrite exec_exec_acc. unfold uhf_internal, internal_call. intros H.
  destruct (gen_g_hop mf (Some ws)) as [[g hop] hdiag] eqn:Hg.
  exec_all H; close_run.
Qed.

Lemma ghf_complex_run mf rs nroots tol script t mo st rest :
  exec (ghf_complex expmat mf rs nroots tol) script
    = (t, Returned (mo, st), rest) →
  ∃ x0 r e,
    script = r :: rest ∧ lowest r = Some e ∧
    t = channel_events
          (DavCall (gen_hop_ghf_complex_internal mf).1 (Vector x0)
             (precond (gen_hop_ghf_complex_internal mf).2) tol nroots)
          "ghf_complex_internal: lowest eigs of H = %s"
          (class_name mf +:+ " (complex)") "internal" r e ∧
    st = (if rs then Some (is_stable e) else None) ∧
    chosen e r (mo_coeff mf) (_rotate_mo expmat (mo_coeff mf) (mo_occ mf)) mo.
Proof.
  rewrite exec_exec_acc. unfold ghf_complex. intros H.
  destruct (gen_hop_ghf_complex_internal mf) as [hop hdiag] eqn:Hg.
  exec_all H; close_run.
Qed.

Lemma lt_threshold_lowest e v b :
  lt_threshold e = Ok b → ∃ e0, lowest (e, v) = Some e0 ∧ negb b = is_stable e0.
Proof.
  intros Hl. destruct (unwrap_lowest 1 (e, v) e v b) as (e0 & He & Hb);
    [done..|].
  exists e0. split; [done|]. by apply is_stable_negb.
Qed.

Lemma eigenvector_lowest e v a : eigenvector v = Ok a → lowest_vector (e, v) = Some a.
Proof. intros Hv. by apply (unwrap_lowest_vector 1 (e, v) e v a). Qed.

Lemma dhf_stability_run mf rs nroots tol script t mo st rest :
  exec (dhf_stability expmat mf rs nroots tol) script
    = (t, Returned (mo, st), rest) →
  ∃ x0 r e,
    script = r :: rest ∧ lowest r = Some e ∧
    t = [EvSolve (internal_call (gen_g_hop mf None) x0 tol nroots) r;
         EvLog (LogNote (status_line (is_stable e) (class_name mf)
                           "internal"))] ∧
    st = (if rs then Some (is_stable e) else None) ∧
    chosen e r (mo_coeff mf) (_rotate_mo expmat (mo_coeff mf) (mo_occ mf)) mo.
Proof.
  rewrite exec_exec_acc. unfold dhf_stability, internal_call. intros H.
  destruct (gen_g_hop mf None) as [[g hop] hdiag] eqn:Hg.
  exec_all H;
    match goal with
    | Hl : lt_threshold ?e = Ok _ |- context [(?e, ?v)] =>
        destruct (lt_threshold_lowest e v _ Hl) as (e0 & He & Hs);
        simpl in Hs; symmetry in Hs
    end;
    try match goal with
    | Hv : eigenvector ?v = Ok _ |- context [(?e, ?v)] =>
        apply (eigenvector_lowest e) in Hv
    end;
    close_run.
Qed.

Lemma ghf_real_run mf ws rs nroots tol script t mo st rest :
  exec (ghf_real expmat mf ws rs nroots tol) script
    = (t, Returned (mo, st), rest) →
  ∃ x0 r e x0' r2 e2,
    script = r :: r2 :: rest ∧ lowest r = Some e ∧ lowest r2 = Some e2 ∧
    t = channel_events
          (internal_call (gen_g_hop mf None) x0 tol nroots)
          "ghf_real_internal: lowest eigs of H = %s"
          (class_name mf +:+ " (real)") "internal" r e
        ++ channel_events
          (DavCall (_gen_hop_ghf_real2complex mf ws).1 (Vector x0')
             (precond (_gen_hop_ghf_real2complex mf ws).2) tol nroots)
          "ghf_real2complex: lowest eigs of H = %s"
          (class_name mf +:+ " (real)") "real -> complex" r2 e2 ∧
    st = (if rs then Some (is_stable e) else None) ∧
    chosen e r (mo_coeff mf) (_rotate_mo expmat (mo_coeff mf) (mo_occ mf)) mo.
Proof.
  rewrite exec_exec_acc. unfold ghf_real, internal_call. intros H.
  destruct (gen_g_hop mf None) as [[g hop] hdiag] eqn:Hg.
  destruct (_gen_hop_ghf_real2complex mf ws) as [hop2 hdiag2] eqn:Hg2.
  exec_all H; close_run.
Qed.

Lemma rhf_external_run mf ws rs nroots tol script t mo st rest :
  exec (rhf_external expmat mf ws rs nroots tol) script
    = (t, Returned (mo, st), rest) →
  ∃ x0 r1 e1 x0' r3 e3,
    script = r1 :: r3 :: rest ∧ lowest r1 = Some e1 ∧ lowest r3 = Some e3 ∧
    t = channel_events
          (DavCall (_gen_hop_rhf_external mf ws).1.1.1 (Vector x0)
             (precond (_gen_hop_rhf_external mf ws).1.1.2) tol nroots)
          "rhf_real2complex: lowest eigs of H = %s"
          (class_name mf) "real -> complex" r1 e1
        ++ channel_events
          (DavCall (_gen_hop_rhf_external mf ws).1.2 x0'
             (precond (_gen_hop_rhf_external mf ws).2) tol nroots)
          "rhf_external: lowest eigs of H = %s"
          (class_name mf) "RHF/RKS -> UHF/UKS" r3 e3 ∧
    st = (if rs then Some (is_stable e3) else None) ∧
    chosen e3 r3 (mo_coeff mf, mo_coeff mf)
      (λ v, mo ← _rotate_mo expmat (mo_coeff mf) (mo_occ mf) v;
            mret (mo, mo_coeff mf)) mo.
Proof.
  rewrite exec_exec_acc. unfold rhf_external. intros H.
  destruct (_gen_hop_rhf_external mf ws) as [[[hop1 hdiag1] hop2] hdiag2].
  exec_all H; close_run.
  all: match goal with Hr : _rotate_mo _ _ _ _ = Ok _ |- _ => by rewrite Hr end.
Qed.

Lemma uhf_external_run mf ws rs nroots tol script t mo st rest :
  exec (uhf_external expmat mf ws rs nroots tol) script
    = (t, Returned (mo, st), rest) →
  ∃ x0 r1 e1 x0' r3 e3,
    script = r1 :: r3 :: rest ∧ lowest r1 = Some e1 ∧ lowest r3 = Some e3 ∧
    t = channel_events
          (DavCall (_gen_hop_uhf_external mf ws).1.1.1 (Vector x0)
             (precond (_gen_hop_uhf_external mf ws).1.1.2) tol nroots)
          "uhf_real2complex: lowest eigs of H = %s"
          (class_name mf) "real -> complex" r1 e1
        ++ channel_events
          (DavCall (_gen_hop_uhf_external mf ws).1.2 (Vector x0')
             (precond (_gen_hop_uhf_external mf ws).2) tol nroots)
          "uhf_external: lowest eigs of H = %s"
          (class_name mf) "UHF/UKS -> GHF/GKS" r3 e3 ∧
    st = (if rs then Some (is_stable e3) else None) ∧
    chosen e3 r3 (block_diag (mo_coeff mf).1 (mo_coeff mf).2)
      (uhf_external_rotate expmat mf
         (block_diag (mo_coeff mf).1 (mo_coeff mf).2)) mo.
Proof.
  rewrite exec_exec_acc. unfold uhf_external. intros H.
  destruct (_gen_hop_uhf_external mf ws) as [[[hop1 hdiag1] hop2] hdiag2].
  exec_all H; close_run.
Qed.

(** *** Every entry point at once *)

Ltac one_channel H run :=
  apply run in H as (x0 & r & e & -> & He & -> & -> & Hc);
  exists [e]; split_and!; try done; [by repeat constructor|];
  exists r, e; split_and!; try done;
  unfold chosen in *; destruct (is_stable e); simpl;
  [by rewrite Hc|destruct Hc as (v & Hv & Hr); exists v; by rewrite Hr].

Ltac two_channels H run :=
  apply run in H
      as (x0 & r & e & x0' & r2 & e2 & -> & He & He2 & -> & -> & Hc);
  exists [e; e2]; split_and!; try done; [by repeat constructor|].

Lemma entry_run en rs nroots tol script t mo st rest :
  exec (entry_prog expmat en rs nroots tol) script
    = (t, Returned (mo, st), rest) →
  ∃ es,
    script = answers t ++ rest ∧
    Forall2 (λ r e, lowest r = Some e) (answers t) es ∧
    length es = length (channels en) ∧
    notes t = zip_with (λ c e, status_line (is_stable e) c.1 c.2)
                (channels en) es ∧
    ∃ r e,
      answers t !! deciding en = Some r ∧ es !! deciding en = Some e ∧
      st = (if rs then Some (is_stable e) else None) ∧
      chosen e r (unrotated en) (rotated expmat en) mo.
Proof.
  intros H. destruct en; simpl in H;
    apply exec_fmap_returned in H as ([a st'] & H & [= -> ->]).
  - one_channel H rhf_internal_run.
  - one_channel H rohf_internal_run.
  - one_channel H uhf_internal_run.
  - two_channels H ghf_real_run.
    exists r, e. split_and!; try done.
    unfold chosen in *. destruct (is_stable e); simpl.
    + by rewrite Hc.
    + destruct Hc as (v & Hv & Hr). exists v. by rewrite Hr.
  - one_channel H ghf_complex_run.
  - one_channel H dhf_stability_run.
  - two_channels H rhf_external_run.
    exists r2, e2. split_and!; try done.
    unfold chosen in *. destruct (is_stable e2); simpl.
    + by rewrite Hc.
    + destruct Hc as (v & Hv & Hr). exists v. split; [done|].
      destruct (_rotate_mo _ _ _ _); simpl in *; [|done].
      by injection Hr as <-.
  - two_channels H uhf_external_run.
    exists r2, e2. split_and!; try done.
    unfold chosen in *. destruct (is_stable e2); simpl.
    + by rewrite Hc.
    + destruct Hc as (v & Hv & Hr). exists v. by rewrite Hr.
Qed.

Lemma play_exec {A} (p : prog A) script t o :
  play p script = (t, o) ↔ ∃ rest, exec p script = (t, o, rest).
Proof.
  unfold play. destruct (exec p script) as [[t' o'] rest]. simpl. split.
  - intros [= -> ->]. eauto.
  - by intros (? & [= -> -> _]).
Qed.

End Runs.

(** ** The verdict (C1), the orbitals of a stable solution (C2) and the
    external drivers (C10) *)

Section Verdicts.

Variable expmat : ndarray → ndarray.

Lemma classified_is_stable e : classified e (is_stable e).
Proof.
  split_and!.
  - reflexivity.
  - apply is_stable_nonneg.
  - apply is_stable_false.
Qed.

(** C1.  Whenever an entry point returns, each of its channels, in the
    order of the solver calls, has logged the verdict [not (e < -1e-5)] of
    the lowest eigenvalue [e] of the solver's answer, and the status it
    returns is the verdict of its deciding channel; such a verdict is
    stable for [0 <= e] and unstable for [e < -1e-5]. *)
Theorem verdict_is_not_below_threshold en rs nroots tol script t mo st :
  play (entry_prog expmat en rs nroots tol) script = (t, Returned (mo, st)) →
  ∃ vs : list (Qc * bool),
    Forall2 (λ r v, lowest r = Some v.1 ∧ classified v.1 v.2) (answers t) vs
    ∧ length vs = length (channels en)
    ∧ notes t = zip_with (λ c v, status_line v.2 c.1 c.2) (channels en) vs
    ∧ ∃ v, vs !! deciding en = Some v
           ∧ st = (if rs then Some v.2 else None).
Proof.
  intros (rest & H)%play_exec.
  apply entry_run in H as (es & _ & Hes & Hlen & Hnotes & r & e & _ & He & -> & _).
  exists (map (λ e, (e, is_stable e)) es). split_and!.
  - apply Forall2_fmap_r. eapply Forall2_impl; [exact Hes|].
    intros r' e' Hr'. simpl. split; [done|apply classified_is_stable].
  - by rewrite length_map.
  - rewrite Hnotes. clear. generalize (channels en) as cs.
    induction es as [|e es IH]; intros [|c cs]; simpl; try done.
    by rewrite IH.
  - exists (e, is_stable e). split; [|done].
    by rewrite list_lookup_fmap, He.
Qed.

End Verdicts.

Lemma played {A} (p : prog A) script (o : outcome A) :
  (play p script).2 = o → play p script = ((play p script).1, o).
Proof. intros <-. by destruct (play p script). Qed.

Lemma verdict_is_not_below_threshold_witness :
  let p := entry_prog expmat_1 (Rhf_external ex_rhf true) true 3 ex_tol in
  let script := [answer [1; 2; 3]%Q; answer [-1; 0; 1]%Q] in
  let t := (play p script).1 in
  play p script
    = (t, Returned (OrbsPair (NdArray 2 2 [1; 1; -1; 1]) (eye 2), Some false))
  ∧ ∃ vs : list (Qc * bool),
    Forall2 (λ r v, lowest r = Some v.1 ∧ classified v.1 v.2) (answers t) vs
    ∧ length vs = 2%nat
    ∧ notes t
      = zip_with (λ c v, status_line v.2 c.1 c.2)
          [("RHF", "real -> complex"); ("RHF", "RHF/RKS -> UHF/UKS")] vs
    ∧ ∃ v, vs !! 1%nat = Some v ∧ Some false = Some v.2.
Proof.
  intros p script t.
  assert (H : play p script
    = (t, Returned (OrbsPair (NdArray 2 2 [1; 1; -1; 1]) (eye 2), Some false))).
  { apply played. vm_compute. reflexivity. }
  split; [exact H|].
  exact (verdict_is_not_below_threshold expmat_1 (Rhf_external ex_rhf true)
           true 3 ex_tol script t _ _ H).
Defined.

Section StableOrbitals.

Variable expmat : ndarray → ndarray.

(** C2.  When an internal-channel entry point returns and the lowest
    eigenvalue [e] of the solver's answer is not below [-1e-5], the
    orbitals it returns are the input coefficients [mf.mo_coeff]; when [e]
    is below [-1e-5] they are the rotation along the lowest
    eigenvector. *)
Theorem stable_internal_returns_input en rs nroots tol script t mo st r e :
  is_internal en = true →
  play (entry_prog expmat en rs nroots tol) script = (t, Returned (mo, st)) →
  answers t !! 0%nat = Some r →
  lowest r = Some e →
  (- lit_1e_5 ≤ e → mo = unrotated en)
  ∧ (e < - lit_1e_5 →
     ∃ v, lowest_vector r = Some v ∧ rotated expmat en v = Ok mo).
Proof.
  intros Hint (rest & H)%play_exec Hr He.
  apply entry_run in H
    as (es & _ & Hes & _ & _ & r' & e' & Hr' & He' & _ & Hc).
  pose proof (Forall2_lookup_lr _ _ _ _ _ _ Hes Hr' He') as Hl.
  unfold deciding in Hr'. rewrite Hint in Hr'.
  assert (r' = r) as -> by congruence.
  assert (e' = e) as -> by congruence.
  unfold chosen in Hc. split.
  - intros Hs%is_stable_true. by rewrite Hs in Hc.
  - intros Hs%is_stable_false. by rewrite Hs in Hc.
Qed.

(** C10.  Two runs of an external driver that receive the same answer for
    the reference-extension channel return the same status and the same
    orbitals, whatever the answers for the real -> complex channel; only
    the first logged verdict can differ. *)
Theorem external_result_ignores_real2complex en rs nroots tol
    r1 r1' r3 rest rest' t t' mo mo' st st' :
  is_internal en = false →
  play (entry_prog expmat en rs nroots tol) (r1 :: r3 :: rest)
    = (t, Returned (mo, st)) →
  play (entry_prog expmat en rs nroots tol) (r1' :: r3 :: rest')
    = (t', Returned (mo', st')) →
  mo = mo' ∧ st = st' ∧ drop 1 (notes t) = drop 1 (notes t')
  ∧ ∃ e3, lowest r3 = Some e3
          ∧ st = (if rs then Some (is_stable e3) else None)
          ∧ chosen e3 r3 (unrotated en) (rotated expmat en) mo.
Proof.
  intros Hext (s & H)%play_exec (s' & H')%play_exec.
  apply entry_run in H
    as (es & Hs & Hes & Hlen & Hn & r & e & Hr & He & -> & Hc).
  apply entry_run in H'
    as (es' & Hs' & Hes' & Hlen' & Hn' & r' & e' & Hr' & He' & -> & Hc').
  assert (Hch : ∃ c1 c2, channels en = [c1; c2])
    by (destruct en; try done; simpl; eauto).
  destruct Hch as (c1 & c2 & Hch).
  unfold deciding in *. rewrite Hext in *. rewrite Hch in *.
  destruct es as [|a1 [|a2 [|??]]]; try done.
  destruct es' as [|a1' [|a2' [|??]]]; try done.
  apply Forall2_length in Hes as Hl, Hes' as Hl'.
  destruct (answers t) as [|q1 [|q2 [|??]]]; try done.
  destruct (answers t') as [|q1' [|q2' [|??]]]; try done.
  simplify_eq/=.
  apply Forall2_cons_1 in Hes as [_ [Hq _]%Forall2_cons_1].
  apply Forall2_cons_1 in Hes' as [_ [Hq' _]%Forall2_cons_1].
  assert (e' = e) as -> by congruence.
  split_and!.
  - unfold chosen in *. destruct (is_stable e); [congruence|].
    destruct Hc as (v & Hv & Hm), Hc' as (v' & Hv' & Hm'). congruence.
  - done.
  - by rewrite Hn, Hn'.
  - eauto.
Qed.

End StableOrbitals.

Lemma stable_internal_returns_input_witness :
  let p := entry_prog expmat_1 (Uhf_internal ex_uhf false) true 3 ex_tol in
  let script := [answer [0; 1; 2]%Q] in
  let t := (play p script).1 in
  is_internal (Uhf_internal ex_uhf false) = true
  ∧ play p script = (t, Returned (OrbsPair (eye 2) (eye 2), Some true))
  ∧ answers t !! 0%nat = Some (answer [0; 1; 2]%Q)
  ∧ lowest (answer [0; 1; 2]%Q) = Some 0
  ∧ (- lit_1e_5 ≤ 0 → OrbsPair (eye 2) (eye 2) = OrbsPair (eye 2) (eye 2))
  ∧ (0 < - lit_1e_5 →
     ∃ v, lowest_vector (answer [0; 1; 2]%Q) = Some v
          ∧ rotated expmat_1 (Uhf_internal ex_uhf false) v
            = Ok (OrbsPair (eye 2) (eye 2))).
Proof.
  intros p script t.
  assert (H : play p script
                = (t, Returned (OrbsPair (eye 2) (eye 2), Some true))).
  { apply played. vm_compute. reflexivity. }
  assert (Ha : answers t !! 0%nat = Some (answer [0; 1; 2]%Q)).
  { vm_compute. reflexivity. }
  do 4 (split; [first [assumption|reflexivity]|]).
  exact (stable_internal_returns_input expmat_1 (Uhf_internal ex_uhf false)
           true 3 ex_tol script t _ _ _ 0 eq_refl H Ha eq_refl).
Defined.

Lemma external_result_ignores_real2complex_witness :
  let p := entry_prog expmat_1 (Rhf_external ex_rhf true) true 3 ex_tol in
  let r1 := answer [1; 2; 3]%Q in
  let r1' := answer [-1; 2; 3]%Q in
  let r3 := answer [-1; 0; 1]%Q in
  let mo := OrbsPair (NdArray 2 2 [1; 1; -1; 1]) (eye 2) in
  let t := (play p [r1; r3]).1 in
  let t' := (play p [r1'; r3]).1 in
  is_internal (Rhf_external ex_rhf true) = false
  ∧ play p [r1; r3] = (t, Returned (mo, Some false))
  ∧ play p [r1'; r3] = (t', Returned (mo, Some false))
  ∧ notes t ≠ notes t'
  ∧ (mo = mo ∧ Some false = Some false ∧ drop 1 (notes t) = drop 1 (notes t')
     ∧ ∃ e3, lowest r3 = Some e3
             ∧ Some false = Some (is_stable e3)
             ∧ chosen e3 r3 (unrotated (Rhf_external ex_rhf true))
                 (rotated expmat_1 (Rhf_external ex_rhf true)) mo).
Proof.
  intros p r1 r1' r3 mo t t'.
  assert (H : play p [r1; r3] = (t, Returned (mo, Some false))).
  { apply played. vm_compute. reflexivity. }
  assert (H' : play p [r1'; r3] = (t', Returned (mo, Some false))).
  { apply played. vm_compute. reflexivity. }
  do 3 (split; [first [assumption|reflexivity]|]).
  split; [by vm_compute|].
  exact (external_result_ignores_real2complex expmat_1
           (Rhf_external ex_rhf true) true 3 ex_tol r1 r1' r3 [] [] t t'
           mo mo (Some false) (Some false) eq_refl H H').
Defined.

(** ** The unsupported channel (C4) *)

Section Unsupported.

Variable expmat : ndarray → ndarray.


End Unsupported.


(** ** The operator and the diagonal handed to the solver (C5) *)

Section Operator.

Variable expmat : ndarray → ndarray.

Lemma hessian_x_twice hop x :
  hessian_x hop x = Ok (map (λ z, 2 * real z) (hop x)).
Proof.
  unfold hessian_x. f_equal. apply map_ext. intros z. apply Qcmult_comm.
Qed.

Lemma map_twice (hdiag : vec) :
  map (λ h, h * 2) hdiag = map (λ h, 2 * h) hdiag.
Proof. apply map_ext. intros h. apply Qcmult_comm. Qed.

(** C5, as amended.  The internal drivers built on a [gen_g_hop] oracle
    hand the solver the operator [x -> 2 Re(hop(x))] and precondition with
    twice the raw diagonal; [ghf_complex] hands over the operator and the
    diagonal of [_gen_hop_ghf_complex_internal] as they are. *)
Theorem internal_operator_is_twice_real_part en hop hdiag rs nroots tol c :
  raw_problem en = Some (hop, hdiag) →
  first_call (entry_prog expmat en rs nroots tol) = Some c →
  match en with
  | Ghf_complex mf =>
      call_aop c = (gen_hop_ghf_complex_internal mf).1
      ∧ call_precond c = precond (gen_hop_ghf_complex_internal mf).2
  | _ => twice_real_part c hop hdiag
  end.
Proof.
  intros Hraw Hfirst.
  destruct en; try done; simpl in Hraw, Hfirst;
    unfold rhf_internal, rohf_internal, uhf_internal, ghf_real, ghf_complex,
      dhf_stability in Hfirst.
  5: { destruct (gen_hop_ghf_complex_internal mf) as [hop' hdiag'].
       match type of Hfirst with
       | context [lift ?r] => destruct r; simpl in Hfirst; by simplify_eq
       end. }
  all: destruct (gen_g_hop mf _) as [[g hop'] hdiag'] eqn:Hg.
  all: simpl in Hraw; simplify_eq.
  all: match type of Hfirst with
       | context [lift ?r] => destruct r; simpl in Hfirst; simplify_eq
       end.
  all: split; simpl; intros; [apply hessian_x_twice|by rewrite map_twice].
Qed.

End Operator.

Lemma internal_operator_is_twice_real_part_witness :
  let en := Rhf_internal ex_rhf false in
  let hop := λ x : vec, Ok (map (λ a, Complex a 0) x) in
  ∃ c,
    raw_problem en = Some (hop, [1])
    ∧ first_call (entry_prog expmat_1 en true 3 ex_tol) = Some c
    ∧ twice_real_part c hop [1].
Proof.
  intros en hop. eexists. split; [reflexivity|]. split; [reflexivity|].
  exact (internal_operator_is_twice_real_part expmat_1 en hop [1] true 3
           ex_tol _ eq_refl eq_refl).
Defined.

(** C5 as stated fails for the complex generalized driver: on the example
    its operator maps the vector (1, 0) to (1, 0), not to (2, 0). *)
Lemma ghf_complex_hands_the_raw_operator :
  is_internal (Ghf_complex ex_ghf) = true
  ∧ ¬ hands_twice_real_part expmat_1 (Ghf_complex ex_ghf).
Proof.
  split; [done|]. intros H.
  destruct (H _ _ true 3%Z ex_tol _ eq_refl eq_refl) as [Hop _].
  specialize (Hop [1; 0]). vm_compute in Hop. discriminate Hop.
Qed.

(** ** The unwrapping of the roots (C7) *)

(** C7 at the failing input.  With the default root count, 3, the solver
    answers with sequences.  [dhf_stability] keeps the sequence and the
    truth value of its comparison with the threshold is an error, whether
    the lowest root is below the threshold or not; [rhf_internal], on the
    same answers, works with root 0. *)
Theorem dhf_stability_raises_on_three_roots :
  (play (dhf_stability expmat_1 ex_rhf true STAB_NROOTS ex_tol)
     [answer [-1; 0; 1]%Q]).2 = Raised ValueError
  ∧ (play (rhf_internal expmat_1 ex_rhf false true STAB_NROOTS ex_tol)
       [answer [-1; 0; 1]%Q]).2
    = Returned (NdArray 2 2 [1; 1; -1; 1], Some false)
  ∧ (play (dhf_stability expmat_1 ex_rhf true STAB_NROOTS ex_tol)
       [answer [0; 1; 2]%Q]).2 = Raised ValueError
  ∧ (play (rhf_internal expmat_1 ex_rhf false true STAB_NROOTS ex_tol)
       [answer [0; 1; 2]%Q]).2
    = Returned (eye 2, Some true).
Proof. split_and!; vm_compute; reflexivity. Qed.

Section Roots.

Variable expmat : ndarray → ndarray.

(** No answer with two roots or more lets [dhf_stability] return. *)
Lemma dhf_never_returns_from_a_sequence mf rs nroots tol e0 e1 es vs rest v :
  (play (dhf_stability expmat mf rs nroots tol)
     ((Eigs (e0 :: e1 :: es), vs) :: rest)).2 ≠ Returned v.
Proof.
  unfold play. destruct (exec _ _) as [[t o] rest'] eqn:H. simpl.
  intros ->. rewrite exec_exec_acc in H. unfold dhf_stability in H.
  destruct (gen_g_hop mf None) as [[g hop] hdiag].
  exec_all H.
Qed.

(** X1.  What an entry point returns depends on the answers only through
    the lowest eigenpair of its deciding channel: the other roots are
    logged and nothing else. *)
Lemma other_roots_are_informational en rs nroots tol script script' t t'
    mo mo' st st' r r' :
  play (entry_prog expmat en rs nroots tol) script = (t, Returned (mo, st)) →
  play (entry_prog expmat en rs nroots tol) script'
    = (t', Returned (mo', st')) →
  answers t !! deciding en = Some r →
  answers t' !! deciding en = Some r' →
  lowest r = lowest r' → lowest_vector r = lowest_vector r' →
  mo = mo' ∧ st = st'.
Proof.
  intros (s & H)%play_exec (s' & H')%play_exec Hr Hr' Hl Hv.
  apply entry_run in H
    as (es & _ & Hes & _ & _ & q & e & Hq & He & -> & Hc).
  apply entry_run in H'
    as (es' & _ & Hes' & _ & _ & q' & e' & Hq' & He' & -> & Hc').
  pose proof (Forall2_lookup_lr _ _ _ _ _ _ Hes Hq He) as Hle.
  pose proof (Forall2_lookup_lr _ _ _ _ _ _ Hes' Hq' He') as Hle'.
  assert (q = r) as -> by congruence.
  assert (q' = r') as -> by congruence.
  assert (e' = e) as -> by congruence.
  split; [|done].
  unfold chosen in *. destruct (is_stable e); [congruence|].
  destruct Hc as (v & Hv1 & Hm), Hc' as (v' & Hv' & Hm'). congruence.
Qed.

End Roots.

(** ** The preconditioner (C8) *)

Lemma fill_mask_map (p : Qc → bool) c (l : vec) :
  fill_mask (map p l) c l = map (λ d, if p d then c else d) l.
Proof.
  unfold fill_mask. induction l as [|d l IH]; simpl; [done|].
  by rewrite IH.
Qed.

Lemma floor_divisor_map hdiag e :
  floor_divisor hdiag e = map (λ h, floored (h - e)) hdiag.
Proof. unfold floor_divisor. by rewrite fill_mask_map, map_map. Qed.

Lemma Qcabs_0 : Qcabs 0 = 0.
Proof. by apply Qcabs_pos. Qed.

Lemma floored_bound d : lit_1e_8 ≤ Qcabs (floored d) ∧ floored d ≠ 0.
Proof.
  assert (Hpos : lit_1e_8 ≤ Qcabs (floored d)).
  { unfold floored. destruct (Qcltb (Qcabs d) lit_1e_8) eqn:Hd.
    - rewrite Qcabs_pos; [apply Qcle_refl|].
      apply Qclt_le_weak, lit_1e_8_pos.
    - by apply Qcltb_false. }
  split; [done|]. intros H0. rewrite H0, Qcabs_0 in Hpos.
  by apply Qcle_not_lt in Hpos.
Qed.

Section Preconditioner.

Variable expmat : ndarray → ndarray.

Ltac open_driver H :=
  repeat match type of H with
    | context [let '(_, _) := ?x in _] => destruct x
    end.

(** Whatever the outcome of a run, each of its solver calls carries a
    preconditioner [precond hd]. *)
Lemma entry_calls en rs nroots tol script t o rest :
  exec (entry_prog expmat en rs nroots tol) script = (t, o, rest) →
  Forall (λ c, ∃ hd, call_precond c = precond hd) (calls t).
Proof.
  rewrite exec_exec_acc. intros H.
  destruct en; simpl in H;
    unfold rhf_internal, rohf_internal, uhf_internal, ghf_real, ghf_complex,
      dhf_stability, rhf_external, uhf_external in H;
    open_driver H.
  all: exec_all H.
  all: repeat first [ progress open_driver H; simpl in H | exec_step H ].
  all: cbn [rev app calls omap]; repeat constructor; eauto.
Qed.

(** C8.  The preconditioner divides the residual by the differences
    [hdiag - e] in which every entry of magnitude below 1e-8 is replaced by
    1e-8: each divisor has magnitude at least 1e-8 and is not zero.  Every
    solver call of every entry point preconditions in this way. *)
Theorem preconditioner_divides_by_floored_difference hdiag e :
  let d := floor_divisor hdiag e in
  (∀ dx x0, precond hdiag dx e x0 = divide dx d)
  ∧ d = map (λ h, floored (h - e)) hdiag
  ∧ Forall (λ x, lit_1e_8 ≤ Qcabs x ∧ x ≠ 0) d
  ∧ (∀ dx x0, length dx = length hdiag →
       precond hdiag dx e x0 = Ok (zip_with Qcdiv dx d))
  ∧ (∀ en rs nroots tol script c,
       c ∈ calls (play (entry_prog expmat en rs nroots tol) script).1 →
       ∃ hd, call_precond c = precond hd).
Proof.
  intros d. split_and!.
  - done.
  - apply floor_divisor_map.
  - unfold d. rewrite floor_divisor_map. apply Forall_fmap, Forall_true.
    intros h. apply floored_bound.
  - intros dx x0 Hlen. unfold precond, divide. fold d.
    rewrite bool_decide_true; [done|].
    unfold d. by rewrite floor_divisor_map, length_map.
  - intros en rs nroots tol script c Hc. unfold play in Hc.
    destruct (exec _ script) as [[t o] rest] eqn:H.
    apply entry_calls in H. rewrite Forall_forall in H. by apply H.
Qed.

End Preconditioner.

Lemma preconditioner_divides_by_floored_difference_witness :
  length [1; 1] = length [1; 0]
  ∧ precond [1; 0] [1; 1] 1 []
    = Ok (zip_with Qcdiv [1; 1] [lit_1e_8; 0 - 1]).
Proof.
  split; [reflexivity|].
  exact (proj1 (proj2 (proj2 (proj2
           (preconditioner_divides_by_floored_difference expmat_1
              [1; 0] 1)))) [1; 1] [] eq_refl).
Defined.

(** ** Arrays *)

Lemma length_rows (f : nat → nat → Qc) m l :
  length (flat_map (λ i, map (f i) (seq 0 m)) l) = (length l * m)%nat.
Proof.
  induction l as [|a l IH]; simpl; [done|].
  by rewrite length_app, length_map, length_seq, IH.
Qed.

Lemma length_tabulate n m f : length (data (tabulate n m f)) = (n * m)%nat.
Proof. simpl. by rewrite length_rows, length_seq. Qed.

Lemma lookup_rows (f : nat → nat → Qc) m n s i j :
  (i < n)%nat → (j < m)%nat →
  flat_map (λ a, map (f a) (seq 0 m)) (seq s n) !! (i * m + j)%nat
  = Some (f (s + i)%nat j).
Proof.
  revert s i. induction n as [|n IH]; intros s i Hi Hj; [lia|].
  simpl. destruct i as [|i].
  - rewrite lookup_app_l by (rewrite length_map, length_seq; lia).
    rewrite list_lookup_fmap, lookup_seq_lt by done. simpl.
    by rewrite Nat.add_0_r.
  - rewrite lookup_app_r by (rewrite length_map, length_seq; lia).
    rewrite length_map, length_seq.
    replace (S i * m + j - m)%nat with (i * m + j)%nat by lia.
    rewrite IH by lia. do 2 f_equal. lia.
Qed.

Lemma get_tabulate n m f i j :
  (i < n)%nat → (j < m)%nat → get (tabulate n m f) i j = f i j.
Proof.
  intros Hi Hj. unfold get. simpl. apply nth_lookup_Some.
  by rewrite lookup_rows.
Qed.

Lemma tabulate_ext n m f g :
  (∀ i j, (i < n)%nat → (j < m)%nat → f i j = g i j) →
  tabulate n m f = tabulate n m g.
Proof.
  intros H. unfold tabulate. f_equal.
  rewrite !flat_map_concat_map. f_equal.
  apply map_ext_in. intros i [_ Hi]%in_seq.
  apply map_ext_in. intros j [_ Hj]%in_seq. apply H; lia.
Qed.

Lemma rows_zero m l :
  flat_map (λ _ : nat, map (λ _ : nat, 0) (seq 0 m)) l
  = replicate (length l * m) 0.
Proof.
  induction l as [|a l IH]; simpl; [done|].
  rewrite IH, replicate_add. f_equal.
  clear. generalize 0%nat as s. induction m as [|m IH]; intros s; simpl; [done|].
  by rewrite IH.
Qed.

Lemma tabulate_zero n m f :
  (∀ i j, (i < n)%nat → (j < m)%nat → f i j = 0) → tabulate n m f = zeros n m.
Proof.
  intros H. rewrite (tabulate_ext n m f (λ _ _, 0)) by done.
  unfold tabulate, zeros. f_equal. by rewrite rows_zero, length_seq.
Qed.

Lemma nth_replicate_0 k n : nth k (replicate n 0) 0 = 0.
Proof.
  destruct (decide (k < n)%nat).
  - apply nth_lookup_Some. by apply lookup_replicate_2.
  - apply nth_overflow. rewrite length_replicate. lia.
Qed.

Lemma get_zeros n m i j : get (zeros n m) i j = 0.
Proof. unfold get. simpl. apply nth_replicate_0. Qed.

Lemma sum_upto_zero n f :
  (∀ k, (k < n)%nat → f k = 0) → sum_upto n f = 0.
Proof.
  unfold sum_upto. intros H.
  assert (Hs : ∀ k, k ∈ seq 0 n → f k = 0)
    by (intros k [_ Hk]%elem_of_seq; apply H; lia).
  induction (seq 0 n) as [|k l IH]; simpl; [done|].
  rewrite Hs by left. rewrite IH; [ring|].
  intros k' Hk'. apply Hs. by right.
Qed.

Lemma all_zero_zeros n m : all_zero (zeros n m).
Proof. intros i j. apply get_zeros. Qed.

Lemma dot_zero_r A B : all_zero B → dot A B = zeros (nrows A) (ncols B).
Proof.
  intros HB. apply tabulate_zero. intros i j _ _.
  apply sum_upto_zero. intros k _. rewrite HB. ring.
Qed.

Lemma dot_zero_l A B : all_zero A → dot A B = zeros (nrows A) (ncols B).
Proof.
  intros HA. apply tabulate_zero. intros i j _ _.
  apply sum_upto_zero. intros k _. rewrite HA. ring.
Qed.

Lemma sub_zero A B :
  all_zero A → all_zero B → sub A B = zeros (nrows A) (ncols A).
Proof.
  intros HA HB. apply tabulate_zero. intros i j _ _. rewrite HA, HB. ring.
Qed.

Lemma add_zero A B :
  all_zero A → all_zero B → add A B = zeros (nrows A) (ncols A).
Proof.
  intros HA HB. apply tabulate_zero. intros i j _ _. rewrite HA, HB. ring.
Qed.

Lemma transpose_zero A : all_zero A → transpose A = zeros (ncols A) (nrows A).
Proof. intros HA. apply tabulate_zero. intros i j _ _. apply HA. Qed.

Lemma scale_zeros n m c : scale (zeros n m) c = zeros n m.
Proof.
  unfold scale, zeros. simpl. f_equal.
  induction (n * m)%nat as [|k IH]; simpl; [done|]. rewrite IH. f_equal. ring.
Qed.

Lemma fill_mask_replicate m k : fill_mask m 0 (replicate k 0) = replicate k 0.
Proof.
  unfold fill_mask. revert k.
  induction m as [|b m IH]; intros [|k]; simpl; try done.
  rewrite IH. by destruct b.
Qed.

Lemma fill_mask_allowed m (x : vec) :
  length x = length m →
  (∀ i, m !! i = Some false → x !! i = Some 0) →
  fill_mask m 0 x = replicate (length x) 0.
Proof.
  unfold fill_mask. revert x.
  induction m as [|b m IH]; intros [|a x] Hl H; simpl in *; try done.
  rewrite IH; [|lia|intros i Hi; apply (H (S i) Hi)].
  destruct b; [done|]. specialize (H 0%nat eq_refl). by simplify_eq/=.
Qed.

Lemma fill_mask_forbidden m (x : vec) i :
  m !! i = Some true → (i < length x)%nat → fill_mask m 0 x !! i = Some 0.
Proof.
  unfold fill_mask. revert x i.
  induction m as [|b m IH]; intros [|a x] i Hm Hi; simpl in *;
    try done; try lia.
  destruct i as [|i]; simpl in *.
  - by simplify_eq.
  - apply IH; [done|lia].
Qed.

Lemma length_fill_mask m c (x : vec) : length (fill_mask m c x) = length x.
Proof.
  unfold fill_mask. revert x.
  induction m as [|b m IH]; intros [|a x]; simpl; try done.
  by rewrite IH.
Qed.

(** ** Symmetry projection in the external operators (C6) *)

Lemma length_outer_ne s t r c :
  length (outer_ne s t r c) = (length r * length c)%nat.
Proof.
  unfold outer_ne. induction r as [|a r IH]; simpl; [done|].
  by rewrite length_app, length_map, IH.
Qed.

Lemma zeros_data n m k :
  k = (n * m)%nat → NdArray n m (replicate k 0) = zeros n m.
Proof. by intros ->. Qed.

Lemma dot_zeros_r A n m : dot A (zeros n m) = zeros (nrows A) m.
Proof. apply dot_zero_r, all_zero_zeros. Qed.
Lemma dot_zeros_l n k B : dot (zeros n k) B = zeros n (ncols B).
Proof. apply dot_zero_l, all_zero_zeros. Qed.
Lemma transpose_zeros n m : transpose (zeros n m) = zeros m n.
Proof. apply transpose_zero, all_zero_zeros. Qed.
Lemma sub_zeros n m n' m' : sub (zeros n m) (zeros n' m') = zeros n m.
Proof. apply sub_zero; apply all_zero_zeros. Qed.
Lemma add_zeros n m n' m' : add (zeros n m) (zeros n' m') = zeros n m.
Proof. apply add_zero; apply all_zero_zeros. Qed.

Lemma nrows_dot A B : nrows (dot A B) = nrows A. Proof. done. Qed.
Lemma ncols_dot A B : ncols (dot A B) = ncols B. Proof. done. Qed.
Lemma nrows_transpose A : nrows (transpose A) = ncols A. Proof. done. Qed.
Lemma ncols_transpose A : ncols (transpose A) = nrows A. Proof. done. Qed.
Lemma nrows_take_cols A idx : nrows (take_cols A idx) = nrows A.
Proof. done. Qed.
Lemma ncols_take_cols A idx : ncols (take_cols A idx) = length idx.
Proof. done. Qed.
Lemma nrows_take_block A r c : nrows (take_block A r c) = length r.
Proof. done. Qed.
Lemma ncols_take_block A r c : ncols (take_block A r c) = length c.
Proof. done. Qed.
Lemma nrows_zeros n m : nrows (zeros n m) = n. Proof. done. Qed.
Lemma ncols_zeros n m : ncols (zeros n m) = m. Proof. done. Qed.
Lemma data_zeros n m : data (zeros n m) = replicate (n * m) 0.
Proof. done. Qed.

Ltac zero_out :=
  repeat first
    [ rewrite scale_zeros
    | rewrite dot_zeros_r
    | rewrite dot_zeros_l
    | rewrite transpose_zeros
    | rewrite sub_zeros
    | rewrite add_zeros
    | rewrite nrows_dot | rewrite ncols_dot
    | rewrite nrows_transpose | rewrite ncols_transpose
    | rewrite nrows_take_cols | rewrite ncols_take_cols
    | rewrite nrows_take_block | rewrite ncols_take_block
    | rewrite nrows_zeros | rewrite ncols_zeros ].

Lemma data_fill_mask2 m c A : data (fill_mask2 m c A) = fill_mask m c (data A).
Proof. done. Qed.
Lemma nrows_fill_mask2 m c A : nrows (fill_mask2 m c A) = nrows A.
Proof. done. Qed.
Lemma ncols_fill_mask2 m c A : ncols (fill_mask2 m c A) = ncols A.
Proof. done. Qed.

Lemma fill_mask2_allowed m n k (x : vec) :
  length x = length m → length x = (n * k)%nat →
  (∀ i, m !! i = Some false → x !! i = Some 0) →
  fill_mask2 m 0 (NdArray n k x) = zeros n k.
Proof.
  intros Hm Hx H. unfold fill_mask2, zeros. cbn [nrows ncols data].
  rewrite fill_mask_allowed by done. by rewrite Hx.
Qed.

Lemma rhf_external_annihilates (mf : RHF) :
  mol_symmetry mf = true →
  let nao := nrows (mo_coeff mf) in
  (all_zero (gen_response mf [singlet None; hermi 2] (zeros nao nao)) →
   annihilates (rhf_sym_forbid mf) (_gen_hop_rhf_external mf true).1.1.1)
  ∧ (all_zero (gen_response mf [singlet (Some false); hermi 1]
                 (zeros nao nao)) →
     annihilates (rhf_sym_forbid mf) (_gen_hop_rhf_external mf true).1.2).
Proof.
  intros Hsym nao.
  unfold _gen_hop_rhf_external. cbv zeta. rewrite Hsym. cbn [andb fst snd].
  fold (rhf_virtual mf) (rhf_occupied mf). fold (rhf_sym_forbid mf).
  split; intros Hz x Hlen Hx.
  all: pose proof Hlen as Hlen'.
  all: unfold rhf_sym_forbid in Hlen'; rewrite length_outer_ne in Hlen'.
  all: unfold reshape; rewrite bool_decide_true by done.
  all: cbn [mbind result_bind].
  all: rewrite (fill_mask2_allowed _ _ _ _ Hlen Hlen' Hx).
  all: unfold conj, real_part; zero_out; fold nao.
  all: rewrite (dot_zero_r _ _ Hz); zero_out.
  all: unfold ravel; rewrite data_fill_mask2, data_zeros, fill_mask_replicate.
  all: by rewrite Hlen'.
Qed.

Lemma nrows_add A B : nrows (add A B) = nrows A. Proof. done. Qed.
Lemma ncols_add A B : ncols (add A B) = ncols A. Proof. done. Qed.
Lemma nrows_sub A B : nrows (sub A B) = nrows A. Proof. done. Qed.
Lemma ncols_sub A B : ncols (sub A B) = ncols A. Proof. done. Qed.
Lemma length_add A B : length (data (add A B)) = (nrows A * ncols A)%nat.
Proof. apply length_tabulate. Qed.

Ltac shapes :=
  repeat first
    [ rewrite nrows_add | rewrite ncols_add | rewrite nrows_sub
    | rewrite ncols_sub | rewrite nrows_dot | rewrite ncols_dot
    | rewrite nrows_transpose | rewrite ncols_transpose
    | rewrite nrows_take_cols | rewrite ncols_take_cols
    | rewrite nrows_take_block | rewrite ncols_take_block
    | rewrite nrows_zeros | rewrite ncols_zeros
    | rewrite nrows_fill_mask2 | rewrite ncols_fill_mask2 ].

Lemma reshape_ok n m x A :
  reshape n m x = Ok A → A = NdArray n m x ∧ length x = (n * m)%nat.
Proof. unfold reshape. case_bool_decide; [|done]. by intros [= <-]. Qed.

Lemma rhf_external_projects (mf : RHF) :
  mol_symmetry mf = true →
  projects (rhf_sym_forbid mf) (_gen_hop_rhf_external mf true).1.1.1
  ∧ projects (rhf_sym_forbid mf) (_gen_hop_rhf_external mf true).1.2.
Proof.
  intros Hsym.
  unfold _gen_hop_rhf_external. cbv zeta. rewrite Hsym. cbn [andb fst snd].
  fold (rhf_virtual mf) (rhf_occupied mf). fold (rhf_sym_forbid mf).
  split; split.
  1,3: intros x y i Hy Hi.
  1,2: destruct (reshape _ _ x) as [X|] eqn:HX; [|done].
  1,2: apply reshape_ok in HX as [-> Hlen].
  1,2: cbn [mbind result_bind mret result_ret] in Hy.
  1,2: injection Hy as <-.
  1,2: apply fill_mask_forbidden; [done|].
  1,2: rewrite length_rows, length_seq.
  1,2: apply lookup_lt_Some in Hi.
  1,2: unfold rhf_sym_forbid in Hi; by rewrite length_outer_ne in Hi.
  all: intros x Hlen.
  all: pose proof Hlen as Hlen'.
  all: unfold rhf_sym_forbid in Hlen'; rewrite length_outer_ne in Hlen'.
  all: unfold reshape; rewrite bool_decide_true by done.
  all: cbn [mbind result_bind mret result_ret].
  all: eexists; split; [reflexivity|].
  all: unfold ravel, real_part; rewrite data_fill_mask2, length_fill_mask.
  all: rewrite length_add; shapes; done.
Qed.

Lemma ghf_real2complex_annihilates (mf : RHF) :
  mol_symmetry mf = true →
  let nao := nrows (mo_coeff mf) in
  all_zero (gen_response mf [with_j false; hermi 0] (zeros nao nao)) →
  annihilates (ghf_sym_forbid mf) (_gen_hop_ghf_real2complex mf true).1.
Proof.
  intros Hsym nao Hz.
  unfold _gen_hop_ghf_real2complex. cbv zeta. rewrite Hsym. cbn [andb fst snd].
  fold (ghf_virtual mf) (ghf_occupied mf). fold (ghf_sym_forbid mf).
  intros x Hlen Hx.
  pose proof Hlen as Hlen'.
  unfold ghf_sym_forbid in Hlen'. rewrite length_outer_ne in Hlen'.
  unfold reshape. rewrite bool_decide_true by done. cbn [mbind result_bind].
  rewrite (fill_mask2_allowed _ _ _ _ Hlen Hlen' Hx).
  unfold conj. zero_out. fold nao. rewrite (dot_zero_r _ _ Hz). zero_out.
  unfold ravel. rewrite data_fill_mask2, data_zeros, fill_mask_replicate.
  by rewrite Hlen'.
Qed.

Lemma ghf_real2complex_projects (mf : RHF) :
  mol_symmetry mf = true →
  projects (ghf_sym_forbid mf) (_gen_hop_ghf_real2complex mf true).1.
Proof.
  intros Hsym.
  unfold _gen_hop_ghf_real2complex. cbv zeta. rewrite Hsym. cbn [andb fst snd].
  fold (ghf_virtual mf) (ghf_occupied mf). fold (ghf_sym_forbid mf).
  split.
  - intros x y i Hy Hi.
    destruct (reshape _ _ x) as [X|] eqn:HX; [|done].
    apply reshape_ok in HX as [-> Hlen].
    cbn [mbind result_bind mret result_ret] in Hy.
    injection Hy as <-.
    apply fill_mask_forbidden; [done|].
    rewrite length_rows, length_seq.
    apply lookup_lt_Some in Hi.
    unfold ghf_sym_forbid in Hi; by rewrite length_outer_ne in Hi.
  - intros x Hlen.
    pose proof Hlen as Hlen'.
    unfold ghf_sym_forbid in Hlen'; rewrite length_outer_ne in Hlen'.
    unfold reshape; rewrite bool_decide_true by done.
    cbn [mbind result_bind mret result_ret].
    eexists; split; [reflexivity|].
    unfold ravel; rewrite data_fill_mask2, length_fill_mask.
    rewrite length_add; shapes; done.
Qed.

Lemma length_uhf_sym_forbid1 mf :
  length (uhf_sym_forbid1 mf)
  = (length (uhf_virtual_a mf) * length (uhf_occupied_a mf)
     + length (uhf_virtual_b mf) * length (uhf_occupied_b mf))%nat.
Proof. unfold uhf_sym_forbid1. by rewrite length_app, !length_outer_ne. Qed.

Lemma length_uhf_sym_forbid2 mf :
  length (uhf_sym_forbid2 mf)
  = (length (uhf_virtual_a mf) * length (uhf_occupied_b mf)
     + length (uhf_virtual_b mf) * length (uhf_occupied_a mf))%nat.
Proof. unfold uhf_sym_forbid2. by rewrite length_app, !length_outer_ne. Qed.

Lemma take_zeros n m k :
  NdArray n m (take (n * m) (replicate (n * m + k) 0)) = zeros n m.
Proof. rewrite take_replicate. apply zeros_data. lia. Qed.

Lemma drop_zeros n m k j :
  j = (n * m)%nat →
  NdArray n m (drop k (replicate (k + j) 0)) = zeros n m.
Proof. intros ->. rewrite drop_replicate. apply zeros_data. lia. Qed.

Lemma uhf_external_annihilates (mf : UHF) :
  mol_symmetry mf = true →
  let naoa := nrows (mo_coeff mf).1 in
  let naob := nrows (mo_coeff mf).2 in
  let vz := gen_response mf [with_j false; hermi 2]
              (zeros naoa naoa, zeros naob naob) in
  let v1 := gen_response mf [with_j false; hermi 0]
              (zeros naoa naob, zeros naob naoa) in
  (all_zero vz.1 → all_zero vz.2 →
   annihilates (uhf_sym_forbid1 mf) (_gen_hop_uhf_external mf true).1.1.1)
  ∧ (all_zero v1.1 → all_zero v1.2 →
     annihilates (uhf_sym_forbid2 mf) (_gen_hop_uhf_external mf true).1.2).
Proof.
  intros Hsym naoa naob vz v1.
  pose proof (length_uhf_sym_forbid1 mf) as L1.
  pose proof (length_uhf_sym_forbid2 mf) as L2.
  revert L1 L2.
  unfold uhf_sym_forbid1, uhf_sym_forbid2, _gen_hop_uhf_external.
  destruct (get_orbsym mf) as [sa sb].
  cbv beta iota zeta. rewrite Hsym. cbn [andb fst snd].
  fold (uhf_virtual_a mf) (uhf_virtual_b mf).
  fold (uhf_occupied_a mf) (uhf_occupied_b mf).
  intros L1 L2.
  split; intros Ha Hb x Hlen Hx.
  - unfold fill_mask_arg. rewrite bool_decide_true by done.
    cbn [mbind result_bind].
    rewrite fill_mask_allowed by done.
    rewrite Hlen, L1.
    unfold reshape. rewrite take_replicate, drop_replicate, !length_replicate.
    rewrite !bool_decide_true by lia. cbn [mbind result_bind].
    rewrite !zeros_data by lia.
    unfold conj. zero_out. fold naoa naob. fold vz.
    rewrite (dot_zero_r _ _ Ha), (dot_zero_r _ _ Hb). zero_out.
    unfold ravel. rewrite !data_zeros, <- replicate_add, fill_mask_replicate.
    done.
  - unfold fill_mask_arg. rewrite bool_decide_true by done.
    cbn [mbind result_bind].
    rewrite fill_mask_allowed by done.
    rewrite Hlen, L2.
    unfold reshape. rewrite take_replicate, drop_replicate, !length_replicate.
    rewrite !bool_decide_true by lia. cbn [mbind result_bind].
    rewrite !zeros_data by lia.
    unfold conj, real_part. zero_out. fold naoa naob. fold v1.
    rewrite (dot_zero_r _ _ Ha), (dot_zero_r _ _ Hb). zero_out.
    unfold ravel. rewrite !data_zeros, <- replicate_add, fill_mask_replicate.
    done.
Qed.

Lemma fill_mask_arg_ok m c x y :
  fill_mask_arg m c x = Ok y → y = fill_mask m c x ∧ length x = length m.
Proof. unfold fill_mask_arg. case_bool_decide; [|done]. by intros [= <-]. Qed.

Lemma length_ravel_add A B : length (ravel (add A B)) = (nrows A * ncols A)%nat.
Proof. apply length_add. Qed.

Lemma uhf_external_projects (mf : UHF) :
  mol_symmetry mf = true →
  projects (uhf_sym_forbid1 mf) (_gen_hop_uhf_external mf true).1.1.1
  ∧ projects (uhf_sym_forbid2 mf) (_gen_hop_uhf_external mf true).1.2.
Proof.
  intros Hsym.
  pose proof (length_uhf_sym_forbid1 mf) as L1.
  pose proof (length_uhf_sym_forbid2 mf) as L2.
  revert L1 L2.
  unfold uhf_sym_forbid1, uhf_sym_forbid2, _gen_hop_uhf_external.
  destruct (get_orbsym mf) as [sa sb].
  cbv beta iota zeta. rewrite Hsym. cbn [andb fst snd].
  fold (uhf_virtual_a mf) (uhf_virtual_b mf).
  fold (uhf_occupied_a mf) (uhf_occupied_b mf).
  intros L1 L2.
  split; split.
  1,3: intros x y i Hy Hi.
  1,2: destruct (fill_mask_arg _ _ x) as [x'|] eqn:Hx'; [|done].
  1,2: cbn [mbind result_bind] in Hy.
  1,2: destruct (reshape _ _ (take _ x')) as [Xa|] eqn:HXa; [|done].
  1,2: cbn [mbind result_bind] in Hy.
  1,2: destruct (reshape _ _ (drop _ x')) as [Xb|] eqn:HXb; [|done].
  1,2: apply reshape_ok in HXa as [-> Hla], HXb as [-> Hlb].
  1,2: cbn [mbind result_bind mret result_ret] in Hy.
  1,2: injection Hy as <-.
  1,2: apply fill_mask_forbidden; [done|].
  1,2: apply lookup_lt_Some in Hi.
  1,2: rewrite length_app, !length_rows, !length_seq.
  1: by rewrite <- L1. 1: by rewrite <- L2.
  all: intros x Hlen.
  all: unfold fill_mask_arg; rewrite bool_decide_true by done.
  all: cbn [mbind result_bind].
  all: unfold reshape.
  all: rewrite length_take, length_drop, length_fill_mask, Hlen.
  1: rewrite L1. 2: rewrite L2.
  all: rewrite !bool_decide_true by lia.
  all: cbn [mbind result_bind mret result_ret].
  all: eexists; split; [reflexivity|].
  all: rewrite length_fill_mask.
  all: unfold real_part; rewrite length_app, !length_ravel_add; shapes.
  all: cbn [nrows ncols]; lia.
Qed.

(** C6.  With symmetry enabled, each Hessian-vector operator of the
    external channels returns the zero vector on every trial vector whose
    nonzero entries lie only in symmetry-forbidden positions, provided
    the response function sends the zero density perturbation to a zero
    potential; and whatever trial vector it is given, every entry of its
    output in a symmetry-forbidden position is zero. *)
Theorem forbidden_entries_are_projected_out o :
  has_symmetry o = true →
  (zero_response o → annihilates (sym_forbidden o) (external_hop o))
  ∧ projects (sym_forbidden o) (external_hop o).
Proof.
  intros Hsym. destruct o as [mf|mf|mf|mf|mf]; cbn in Hsym; split.
  - exact (proj1 (rhf_external_annihilates mf Hsym)).
  - exact (proj1 (rhf_external_projects mf Hsym)).
  - exact (proj2 (rhf_external_annihilates mf Hsym)).
  - exact (proj2 (rhf_external_projects mf Hsym)).
  - intros [Ha Hb]. exact (proj1 (uhf_external_annihilates mf Hsym) Ha Hb).
  - exact (proj1 (uhf_external_projects mf Hsym)).
  - intros [Ha Hb]. exact (proj2 (uhf_external_annihilates mf Hsym) Ha Hb).
  - exact (proj2 (uhf_external_projects mf Hsym)).
  - exact (ghf_real2complex_annihilates mf Hsym).
  - exact (ghf_real2complex_projects mf Hsym).
Qed.

Lemma forbidden_entries_are_projected_out_witness :
  has_symmetry (Op_rhf_real2complex ex_rhf) = true
  ∧ zero_response (Op_rhf_real2complex ex_rhf)
  ∧ sym_forbidden (Op_rhf_real2complex ex_rhf) = [true]
  ∧ external_hop (Op_rhf_real2complex ex_rhf) [1] = Ok [0].
Proof.
  assert (Hs : has_symmetry (Op_rhf_real2complex ex_rhf) = true)
    by reflexivity.
  assert (Hz : zero_response (Op_rhf_real2complex ex_rhf))
    by (intros i j; apply get_zeros).
  split; [exact Hs|]. split; [exact Hz|]. split; [reflexivity|].
  destruct (forbidden_entries_are_projected_out _ Hs) as [Ha _].
  apply (Ha Hz [1]); [reflexivity|].
  intros [|i] Hi; vm_compute in Hi; discriminate.
Defined.

(** ** Rotation along the zero vector (C9) *)

Lemma put_mask_zeros (m : list bool) k j :
  put_mask m (replicate k 0) (replicate j 0) = replicate j 0.
Proof.
  revert k j. induction m as [|b m IH]; intros k [|j]; simpl; try done.
  destruct b; [destruct k as [|k]; simpl|]; f_equal.
  - apply (IH 0%nat).
  - apply IH.
  - apply IH.
Qed.

Lemma sum_delta_from (f : nat → Qc) j s n :
  foldr (λ k acc, f k * (if bool_decide (k = j) then 1 else 0) + acc) 0
        (seq s n)
  = if bool_decide (s ≤ j < s + n)%nat then f j else 0.
Proof.
  revert s. induction n as [|n IH]; intros s; simpl.
  - rewrite bool_decide_false by lia. done.
  - rewrite IH. case_bool_decide as Hk.
    + subst. rewrite bool_decide_false by lia.
      rewrite bool_decide_true by lia. ring.
    + repeat case_bool_decide; try lia; ring.
Qed.

Lemma get_eye n k j :
  (k < n)%nat → (j < n)%nat →
  get (eye n) k j = if bool_decide (k = j) then 1 else 0.
Proof. intros Hk Hj. unfold eye. by rewrite get_tabulate. Qed.

Lemma tabulate_get C :
  length (data C) = (nrows C * ncols C)%nat →
  tabulate (nrows C) (ncols C) (get C) = C.
Proof.
  destruct C as [r c d]. cbn [nrows ncols data]. intros Hd.
  unfold tabulate. f_equal.
  apply (list_eq_same_length _ _ (r * c)%nat); [done| |].
  { by rewrite length_rows, length_seq. }
  intros p x y Hp Hx Hy.
  assert (c ≠ 0)%nat as Hc by lia.
  assert (p `div` c < r)%nat by (apply Nat.Div0.div_lt_upper_bound; lia).
  pose proof (Nat.mod_upper_bound p c Hc).
  pose proof (Nat.div_mod_eq p c) as E.
  replace p with (p `div` c * c + p `mod` c)%nat in Hx at 1 by lia.
  rewrite lookup_rows in Hx by done.
  injection Hx as <-. unfold get. cbn [ncols data].
  replace (0 + p `div` c)%nat with (p `div` c) by done.
  replace (p `div` c * c + p `mod` c)%nat with p by lia.
  by apply nth_lookup_Some.
Qed.

Lemma sum_upto_ext n f g :
  (∀ k, (k < n)%nat → f k = g k) → sum_upto n f = sum_upto n g.
Proof.
  unfold sum_upto. intros H.
  assert (Hs : ∀ k, k ∈ seq 0 n → f k = g k)
    by (intros k [_ Hk]%elem_of_seq; apply H; lia).
  induction (seq 0 n) as [|k l IH]; simpl; [done|].
  rewrite Hs by left. rewrite IH; [done|].
  intros k' Hk'. apply Hs. by right.
Qed.

Lemma dot_eye C :
  length (data C) = (nrows C * ncols C)%nat → dot C (eye (ncols C)) = C.
Proof.
  intros Hd. unfold dot.
  replace (ncols (eye (ncols C))) with (ncols C) by done.
  transitivity (tabulate (nrows C) (ncols C) (get C));
    [|by apply tabulate_get].
  apply tabulate_ext. intros i j Hi Hj.
  rewrite (sum_upto_ext _ _
             (λ k, get C i k * (if bool_decide (k = j) then 1 else 0)))
    by (intros k Hk; by rewrite get_eye).
  unfold sum_upto. rewrite sum_delta_from.
  by rewrite bool_decide_true by lia.
Qed.

Section Rotation.

Variable expmat : ndarray → ndarray.

(** C9.  The rotation along the zero vector returns the coefficient
    matrix it was given: the generator scattered from the zero vector is
    the zero matrix, and the exponential of the zero matrix is the
    identity. *)
Theorem rotation_by_zero_is_identity (C : ndarray) (n : vec) :
  let nmo := length n in
  let zero := replicate (count_true (uniq_var_indices n)) 0 in
  expmat (zeros nmo nmo) = eye nmo →
  ncols C = nmo →
  length (data C) = (nrows C * ncols C)%nat →
  unpack_uniq_var zero n = Ok (zeros nmo nmo)
  ∧ _rotate_mo expmat C n zero = Ok C.
Proof.
  intros nmo zero Hexp Hshape Hdata.
  assert (Hdr : unpack_uniq_var zero n = Ok (zeros nmo nmo)).
  { unfold unpack_uniq_var, zero. fold nmo.
    rewrite bool_decide_true by apply length_replicate.
    rewrite data_zeros, put_mask_zeros. fold (zeros nmo nmo).
    unfold conj. by rewrite transpose_zeros, sub_zeros. }
  split; [done|].
  unfold _rotate_mo. rewrite Hdr. cbn [mbind result_bind mret result_ret].
  rewrite Hexp, <- Hshape. f_equal. by apply dot_eye.
Qed.

End Rotation.

Lemma rotation_by_zero_is_identity_witness :
  expmat_1 (zeros 2 2) = eye 2
  ∧ ncols (mo_coeff ex_rhf) = length (mo_occ ex_rhf)
  ∧ length (data (mo_coeff ex_rhf)) = 4%nat
  ∧ _rotate_mo expmat_1 (mo_coeff ex_rhf) (mo_occ ex_rhf) [0]
    = Ok (mo_coeff ex_rhf).
Proof.
  assert (H : expmat_1 (zeros 2 2) = eye 2) by (vm_compute; reflexivity).
  do 3 (split; [first [assumption|reflexivity]|]).
  exact (proj2 (rotation_by_zero_is_identity expmat_1 (mo_coeff ex_rhf)
                  (mo_occ ex_rhf) H eq_refl eq_refl)).
Defined.

(** ** The attempts of the stabilize-and-reoptimize driver (C3) *)

Lemma runs_snoc_note {dm} (t : list (opt_event dm)) f c :
  runs (t ++ [OptNote f c]) = runs t.
Proof. unfold runs. rewrite omap_app. simpl. apply app_nil_r. Qed.

Lemma note_cycles_snoc {dm} fmt (t : list (opt_event dm)) f c :
  note_cycles fmt (t ++ [OptNote f c])
  = note_cycles fmt t ++ (if decide (f = fmt) then [c] else []).
Proof. unfold note_cycles. rewrite omap_app. simpl. by destruct (decide _). Qed.

Section StableOptProps.
Context {scf orbs ext occ dm : Type}.
Variable stability : scf → result (stability_result orbs ext).
Variable mf_mo_occ : scf → occ.
Variable mf_make_rdm1 : scf → orbs → occ → dm.
Variable mf_run : scf → dm → scf.

Lemma opt_loop_spec max_attempt mf mo1 stable cyc :
  status_pair stability mf = Ok (mo1, stable) →
  ∃ (k : nat) (mfk : scf),
    let run := opt_loop stability mf_mo_occ mf_make_rdm1 mf_run
                 max_attempt mf mo1 stable cyc in
    let t := run.1 in
    let r := run.2 in
    attempts_from stability mf_mo_occ mf_make_rdm1 mf_run mf t k mfk
    ∧ note_cycles fmt_try t = map (λ i, cyc + Z.of_nat i)%Z (seq 0 k)
    ∧ note_cycles fmt_failed t = []
    ∧ (cyc + Z.of_nat k ≤ Z.max cyc max_attempt)%Z
    ∧ match status_pair stability mfk with
      | Ok (_, st) =>
          r = Ok (mfk, st, (cyc + Z.of_nat k)%Z)
          ∧ (st = false → (max_attempt ≤ cyc + Z.of_nat k)%Z)
      | Err e => r = Err e
      end.
Proof.
  funelim (opt_loop stability mf_mo_occ mf_make_rdm1 mf_run
             max_attempt mf mo1 stable cyc);
    intros Hst; clear Heqcall.
  - pose proof (andb_prop _ _ H) as [Hu Hc%Z.ltb_lt]. clear H1.
    apply negb_true_iff in Hu as ->.
    set (dm1 := mf_make_rdm1 mf mo1 (mf_mo_occ mf)) in *.
    destruct (status_pair stability (mf_run mf dm1)) as [[mo2 st2]|e] eqn:Hq.
    + destruct (H0 (mo2, st2) mo2 st2 eq_refl)
        as (k & mfk & (Hk & Hj & Hs) & Ht & Hf & Hb & Hend).
      destruct (opt_loop _ _ _ _ max_attempt (mf_run mf dm1) mo2 st2 _)
        as [t r]. cbn [fst snd] in *.
      exists (S k), mfk. cbn [fst snd]. split_and!.
      * split_and!.
        -- simpl. by rewrite Hk.
        -- intros [|j] Hlt.
           ++ exists mf, mo1. done.
           ++ destruct (Hj j ltac:(lia)) as (mfj & moj & ? & ? & ?).
              exists mfj, moj. split_and!; [|done|done].
              simpl. by rewrite Hst.
        -- simpl. by rewrite Hst.
      * simpl. rewrite Ht. f_equal; [f_equal; lia|].
        rewrite <- fmap_S_seq, <- list_fmap_compose.
        apply list_fmap_ext. intros ? i ?. simpl. lia.
      * done.
      * lia.
      * destruct (status_pair stability mfk) as [[? st]|e]; [|done].
        destruct Hend as [-> Hmax].
        replace (cyc + Z.of_nat (S k))%Z with (cyc + 1 + Z.of_nat k)%Z by lia.
        split; [done|].
        intros Hs'. specialize (Hmax Hs'). lia.
    + exists 1%nat, (mf_run mf dm1). cbn [fst snd]. split_and!.
      * split_and!; [done| |by simpl; rewrite Hst].
        intros [|j] Hlt; [|lia]. exists mf, mo1. done.
      * simpl. do 2 f_equal. lia.
      * done.
      * lia.
      * by rewrite Hq.
  - exists 0%nat, mf. cbn [fst snd]. split_and!.
    + split_and!; [done| |done]. intros j Hj. lia.
    + done.
    + done.
    + lia.
    + rewrite Hst. rewrite Z.add_0_r. split; [done|].
      intros ->. clear H0. simpl in H. apply Z.ltb_ge in H. lia.
Qed.

(** C3.  The driver makes at most [max_attempt] re-optimizations; each of
    them starts from a solution whose internal verdict is unstable, with
    the attempt counter, which counts up from zero, below [max_attempt].
    At the exit of the loop the last solution obtained is returned,
    stable or not; when it is not stable the budget is exhausted and this
    is only noted in the log.  Nothing is raised but what the stability
    query itself raises. *)
Theorem stable_opt_internal_attempts (mf : scf) (max_attempt : Z) :
  let t := (stable_opt_internal stability mf_mo_occ mf_make_rdm1 mf_run
              mf max_attempt).1 in
  let r := (stable_opt_internal stability mf_mo_occ mf_make_rdm1 mf_run
              mf max_attempt).2 in
  ∃ (k : nat) (mfk : scf),
    attempts_from stability mf_mo_occ mf_make_rdm1 mf_run mf t k mfk
    ∧ (Z.of_nat k ≤ Z.max 0 max_attempt)%Z
    ∧ note_cycles fmt_try t = map Z.of_nat (seq 0 k)
    ∧ Forall (λ c, 0 ≤ c < max_attempt)%Z (note_cycles fmt_try t)
    ∧ match status_pair stability mfk with
      | Ok (_, true) => r = Ok mfk ∧ note_cycles fmt_failed t = []
      | Ok (_, false) =>
          r = Ok mfk
          ∧ Z.of_nat k = Z.max 0 max_attempt
          ∧ note_cycles fmt_failed t = [Z.of_nat k]
          ∧ last t = Some (OptNote fmt_failed (Z.of_nat k))
      | Err e => r = Err e ∧ note_cycles fmt_failed t = []
      end.
Proof.
  unfold stable_opt_internal.
  destruct (status_pair stability mf) as [[mo1 stable]|e] eqn:Hst.
  - destruct (opt_loop_spec max_attempt mf mo1 stable 0 Hst)
      as (k & mfk & (Hk & Hj & Hs) & Ht & Hf & Hb & Hend).
    destruct (opt_loop _ _ _ _ max_attempt mf mo1 stable 0) as [t r].
    cbn [fst snd] in *.
    assert (Htries : note_cycles fmt_try t = map Z.of_nat (seq 0 k)).
    { rewrite Ht. apply list_fmap_ext. intros _ i _. lia. }
    assert (Hrange : Forall (λ c, 0 ≤ c < max_attempt)%Z
                       (map Z.of_nat (seq 0 k))).
    { apply Forall_fmap, Forall_forall. intros i [_ Hi]%elem_of_seq.
      simpl. lia. }
    exists k, mfk.
    destruct (status_pair stability mfk) as [[mo st]|e] eqn:Hq.
    + destruct Hend as [-> Hmax]. destruct st; cbn [negb fst snd].
      * split_and!; try done. by rewrite Htries.
      * specialize (Hmax eq_refl). fold fmt_failed. unfold attempts_from.
        rewrite runs_snoc_note, !note_cycles_snoc, Hf, Htries.
        rewrite decide_False, decide_True, app_nil_r by done.
        rewrite Z.add_0_l, last_snoc.
        split_and!; try done. lia.
    + subst r. cbn [fst snd]. split_and!; try done. by rewrite Htries.
  - exists 0%nat, mf. cbn [fst snd]. rewrite Hst.
    split_and!; try done; [|lia].
    split_and!; try done. intros j Hj. lia.
Qed.

(** With the default budget the driver re-optimizes ten times at most. *)
Lemma stable_opt_internal_default_budget (mf : scf) :
  (length (runs (stable_opt_internal stability mf_mo_occ mf_make_rdm1 mf_run
                   mf max_attempt_default).1) ≤ 10)%nat.
Proof.
  unfold stable_opt_internal.
  destruct (status_pair stability mf) as [[mo1 stable]|e] eqn:Hst;
    [|simpl; lia].
  destruct (opt_loop_spec max_attempt_default mf mo1 stable 0 Hst)
    as (k & mfk & (Hk & _) & _ & _ & Hb & Hend).
  destruct (opt_loop _ _ _ _ max_attempt_default mf mo1 stable 0) as [t r].
  cbn [fst snd] in *. unfold max_attempt_default in Hb.
  destruct r as [[[mf' st] cyc]|e]; [destruct st|]; cbn [negb fst snd];
    rewrite ?runs_snoc_note; lia.
Qed.

End StableOptProps.

(** Two runs of the driver from solution 0, stable from solution 3 on:
    with a budget of ten it stops at the stable solution after three
    attempts, with a budget of two it returns the unstable solution 2. *)
Lemma stable_opt_internal_examples :
  ex_opt 3 0 10
  = ([OptNote fmt_try 0; OptRun 0%Z; OptNote fmt_try 1; OptRun 1%Z;
      OptNote fmt_try 2; OptRun 2%Z], Ok 3%Z)
  ∧ ex_opt 3 0 2
    = ([OptNote fmt_try 0; OptRun 0%Z; OptNote fmt_try 1; OptRun 1%Z;
        OptNote fmt_failed 2], Ok 2%Z)
  ∧ ex_opt 3 0 (-1) = ([OptNote fmt_failed 0], Ok 0%Z).
Proof. by vm_compute. Qed.

(** ** The initial guess and the first call of the solver *)

Lemma argmin_from_spec (x : list Qc) : ∀ i best least (pre : list Qc),
  length pre = i → (best < i)%nat →
  pre !! best = Some least →
  (∀ j a, pre !! j = Some a → least ≤ a ∧ ((j < best)%nat → least < a)) →
  let k := argmin_from i best least x in
  ∃ m, (pre ++ x) !! k = Some m
       ∧ ∀ j a, (pre ++ x) !! j = Some a → m ≤ a ∧ ((j < k)%nat → m < a).
Proof.
  induction x as [|a x IH]; intros i best least pre Hlen Hb Hbest Hmin; simpl.
  - exists least. rewrite app_nil_r. done.
  - destruct (Qcltb a least) eqn:Ha.
    + apply Qcltb_true in Ha.
      specialize (IH (S i) i a (pre ++ [a])).
      rewrite <- (assoc_L (++)) in IH. simpl in IH. apply IH.
      * rewrite length_app. simpl. lia.
      * lia.
      * rewrite lookup_app_r by lia. by rewrite Hlen, Nat.sub_diag.
      * intros j b Hj. apply lookup_app_Some in Hj as [Hj|[Hge Hj]].
        -- destruct (Hmin j b Hj) as [H1 _]. split.
           ++ apply Qclt_le_weak. by eapply Qclt_le_trans.
           ++ intros _. by eapply Qclt_le_trans.
        -- rewrite Hlen in *. destruct (j - i)%nat eqn:E; [|done].
           simpl in Hj. injection Hj as <-. split; [apply Qcle_refl|lia].
    + apply Qcltb_false in Ha.
      specialize (IH (S i) best least (pre ++ [a])).
      rewrite <- (assoc_L (++)) in IH. simpl in IH. apply IH.
      * rewrite length_app. simpl. lia.
      * lia.
      * rewrite lookup_app_l by lia. done.
      * intros j b Hj. apply lookup_app_Some in Hj as [Hj|[Hge Hj]].
        -- by apply Hmin.
        -- rewrite Hlen in *. destruct (j - i)%nat eqn:E; [|done].
           simpl in Hj. injection Hj as <-. split; [done|lia].
Qed.

Lemma argmin_spec (x : vec) i :
  argmin x = Ok i →
  ∃ m, x !! i = Some m
       ∧ ∀ j a, x !! j = Some a → m ≤ a ∧ ((j < i)%nat → m < a).
Proof.
  destruct x as [|a x]; [done|]. simpl. intros [= <-].
  apply (argmin_from_spec x 1 0 a [a]); try done; [lia|].
  intros [|j] b Hj; [|done]. simpl in Hj. injection Hj as <-.
  split; [apply Qcle_refl|lia].
Qed.

(** X6.  With symmetry kept the initial guess is handed on as it is.
    Without it one entry of the guess is set to one, at [argmin(hdiag)]:
    the first index at which the diagonal is least; on an empty diagonal
    [argmin] raises [ValueError]. *)
Theorem symmetry_breaking_guess (hdiag x0 : vec) :
  allow_break true hdiag x0 = Ok x0
  ∧ (hdiag = [] → allow_break false hdiag x0 = Err ValueError)
  ∧ (hdiag ≠ [] → length x0 = length hdiag →
     ∃ i m, allow_break false hdiag x0 = Ok (<[i := 1]> x0)
            ∧ <[i := 1]> x0 !! i = Some 1
            ∧ hdiag !! i = Some m
            ∧ ∀ j a, hdiag !! j = Some a → m ≤ a ∧ ((j < i)%nat → m < a)).
Proof.
  split_and!; [done|by intros ->|].
  intros Hne Hlen. unfold allow_break, break_symmetry. simpl.
  destruct (argmin hdiag) as [i|e] eqn:Hi.
  - destruct (argmin_spec _ _ Hi) as (m & Hm & Hmin).
    exists i, m. split_and!; try done.
    apply list_lookup_insert_eq. apply lookup_lt_Some in Hm. lia.
  - by destruct hdiag.
Qed.







Section Reach.

Variable expmat : ndarray → ndarray.

Lemma exec_raise_bind {A B} (e : exn) (f : A → prog B) script :
  exec (lift (Err e) ≫= f) script = ([], Raised e, script).
Proof. done. Qed.



End Reach.

(** ** Bookkeeping of the solver calls *)

Section Bookkeeping.

Variable expmat : ndarray → ndarray.

Ltac open_pairs H :=
  repeat match type of H with
    | context [let '(_, _) := ?x in _] => destruct x
    end.

(** X2.  Every call of the solver that an entry point makes carries the
    caller's [tol] and [nroots] unchanged.  An entry point calls the solver
    once per channel at most and reads one answer per call; it returns
    only after it has called the solver for every one of its channels, and
    it is left without an answer only when the script is shorter than its
    channels. *)
Theorem solver_calls_keep_tol_and_nroots en rs nroots tol script :
  let t := (play (entry_prog expmat en rs nroots tol) script).1 in
  let o := (play (entry_prog expmat en rs nroots tol) script).2 in
  Forall (λ c, call_tol c = tol ∧ call_nroots c = nroots) (calls t)
  ∧ (length (calls t) ≤ length (channels en))%nat
  ∧ length (answers t) = length (calls t)
  ∧ (∀ v, o = Returned v → length (calls t) = length (channels en))
  ∧ (o = Starved → (length script < length (channels en))%nat).
Proof.
  unfold play.
  destruct (exec _ script) as [[t o] rest] eqn:H. cbn [fst snd].
  rewrite exec_exec_acc in H.
  destruct en; simpl in H;
    unfold rhf_internal, rohf_internal, uhf_internal, ghf_real, ghf_complex,
      dhf_stability, rhf_external, uhf_external in H;
    open_pairs H.
  all: exec_all H.
  all: repeat first [ progress open_pairs H; simpl in H | exec_step H ].
  all: simpl.
  all: split_and!; [by repeat constructor|lia|done|done|try done; simpl; lia].
Qed.

End Bookkeeping.

Section Seeds.

Variable expmat : ndarray → ndarray.

Ltac open_pairs H :=
  repeat match type of H with
    | context [let '(_, _) := ?x in _] => destruct x eqn:?
    end.

(** X3.  The second solve of [rhf_external] starts from the eigenvector the
    first solve returned ([x0 = v1]), so there is a second call only when
    the first answer unwraps; the second solve of [uhf_external] starts
    from a fresh guess built from [hdiag2], whatever the first solve
    returned. *)
Theorem second_solve_seed (mf : RHF) (uf : UHF) ws rs nroots tol script x :
  (guesses (play (rhf_external expmat mf ws rs nroots tol) script).1 !! 1%nat
     = Some x →
   ∃ r1 e1, head script = Some r1 ∧ unwrap nroots r1 = Ok (e1, x))
  ∧ (guesses (play (uhf_external expmat uf ws rs nroots tol) script).1 !! 1%nat
       = Some x →
     let hdiag2 := (_gen_hop_uhf_external uf ws).2 in
     ∃ x0, allow_break ws hdiag2 (guess_diagonal hdiag2) = Ok x0
           ∧ x = Vector x0).
Proof.
  split.
  - unfold play. destruct (exec _ script) as [[t o] rest] eqn:H. cbn [fst].
    rewrite exec_exec_acc in H. unfold rhf_external in H.
    open_pairs H. exec_all H.
    all: repeat first [ progress open_pairs H; simpl in H | exec_step H ].
    all: unfold guesses; simpl; intros Hx; simplify_eq.
    all: eauto.
  - unfold play. destruct (exec _ script) as [[t o] rest] eqn:H. cbn [fst].
    rewrite exec_exec_acc in H. unfold uhf_external in H.
    destruct (_gen_hop_uhf_external uf ws) as [[[hop1 hdiag1] hop2] hdiag2].
    exec_all H.
    all: repeat first [ progress open_pairs H; simpl in H | exec_step H ].
    all: unfold guesses; simpl; intros Hx; simplify_eq.
    all: eauto.
Qed.

End Seeds.

(** ** Dimension of the external operators *)

Lemma length_sym_forbidden o : length (sym_forbidden o) = hop_dim o.
Proof.
  destruct o; simpl.
  - apply length_outer_ne.
  - apply length_outer_ne.
  - apply length_uhf_sym_forbid1.
  - apply length_uhf_sym_forbid2.
  - apply length_outer_ne.
Qed.

Lemma reshape_err n m (x : vec) :
  length x ≠ (n * m)%nat → reshape n m x = Err ValueError.
Proof. intros H. unfold reshape. by rewrite bool_decide_false. Qed.

Lemma reshape_eq n m (x : vec) :
  length x = (n * m)%nat → reshape n m x = Ok (NdArray n m x).
Proof. intros H. unfold reshape. by rewrite bool_decide_true. Qed.

Lemma length_outer_sub a b :
  length (ravel (outer_sub a b)) = (length a * length b)%nat.
Proof. apply length_tabulate. Qed.

Lemma length_diagonal_block A idx :
  length (diagonal (take_block A idx idx)) = length idx.
Proof.
  unfold diagonal. rewrite length_map, length_seq.
  rewrite nrows_take_block, ncols_take_block. lia.
Qed.

Lemma length_take_diag A idx : length (take_diag A idx) = length idx.
Proof. unfold take_diag. by rewrite length_map. Qed.

Lemma length_ravel_masked (b : bool) m c A :
  length (ravel (if b then fill_mask2 m c A else A)) = length (data A).
Proof.
  destruct b; unfold ravel; [|done].
  by rewrite data_fill_mask2, length_fill_mask.
Qed.

Lemma length_data_outer_sub a b :
  length (data (outer_sub a b)) = (length a * length b)%nat.
Proof. apply length_tabulate. Qed.

Lemma rhf_external_dimension (mf : RHF) ws x :
  let n := (length (rhf_virtual mf) * length (rhf_occupied mf))%nat in
  let g := _gen_hop_rhf_external mf ws in
  length g.1.1.2 = n ∧ length g.2 = n
  ∧ (length x = n →
     (∃ y, g.1.1.1 x = Ok y ∧ length y = n)
     ∧ (∃ y, g.1.2 x = Ok y ∧ length y = n))
  ∧ (length x ≠ n →
     g.1.1.1 x = Err ValueError ∧ g.1.2 x = Err ValueError).
Proof.
  intros n g. unfold g, _gen_hop_rhf_external. cbv zeta.
  fold (rhf_virtual mf) (rhf_occupied mf). fold (rhf_sym_forbid mf).
  cbn [fst snd]. fold n.
  rewrite length_ravel_masked, length_data_outer_sub,
    !length_diagonal_block. fold n.
  split_and!; try done.
  - intros Hx. rewrite (reshape_eq _ _ _ Hx).
    cbn [mbind result_bind mret result_ret].
    split; eexists; (split; [reflexivity|]).
    all: unfold real_part; rewrite length_ravel_masked, length_add; shapes.
    all: by destruct (ws && mol_symmetry mf).
  - intros Hx. by rewrite (reshape_err _ _ _ Hx).
Qed.

Lemma ghf_real2complex_dimension (mf : RHF) ws x :
  let n := (length (ghf_virtual mf) * length (ghf_occupied mf))%nat in
  let g := _gen_hop_ghf_real2complex mf ws in
  length g.2 = n
  ∧ (length x = n → ∃ y, g.1 x = Ok y ∧ length y = n)
  ∧ (length x ≠ n → g.1 x = Err ValueError).
Proof.
  intros n g. unfold g, _gen_hop_ghf_real2complex. cbv zeta.
  fold (ghf_virtual mf) (ghf_occupied mf). fold (ghf_sym_forbid mf).
  cbn [fst snd]. fold n.
  rewrite length_ravel_masked, length_data_outer_sub,
    !length_diagonal_block. fold n.
  split_and!; try done.
  - intros Hx. rewrite (reshape_eq _ _ _ Hx).
    cbn [mbind result_bind mret result_ret].
    eexists; (split; [reflexivity|]).
    rewrite length_ravel_masked, length_add; shapes.
    by destruct (ws && mol_symmetry mf).
  - intros Hx. by rewrite (reshape_err _ _ _ Hx).
Qed.

Lemma length_masked (b : bool) m c (x : vec) :
  length (if b then fill_mask m c x else x) = length x.
Proof. destruct b; [apply length_fill_mask|done]. Qed.

Lemma split_reshape_ok n m n' m' (x : vec) :
  length x = (n * m + n' * m')%nat →
  reshape n m (take (n * m) x) = Ok (NdArray n m (take (n * m) x))
  ∧ reshape n' m' (drop (n * m) x) = Ok (NdArray n' m' (drop (n * m) x)).
Proof.
  intros H. split; apply reshape_eq.
  - rewrite length_take. lia.
  - rewrite length_drop. lia.
Qed.

Lemma split_reshape_err {A} n m n' m' (x : vec) (f : ndarray → ndarray → result A) :
  length x ≠ (n * m + n' * m')%nat →
  (x1 ← reshape n m (take (n * m) x);
   x2 ← reshape n' m' (drop (n * m) x); f x1 x2) = Err ValueError.
Proof.
  intros H. destruct (decide (length (take (n * m) x) = (n * m)%nat)) as [E|E].
  - rewrite (reshape_eq _ _ _ E). cbn [mbind result_bind].
    rewrite reshape_err; [done|].
    rewrite length_take in E. rewrite length_drop. lia.
  - by rewrite (reshape_err _ _ _ E).
Qed.

Lemma uhf_external_dimension (mf : UHF) ws x :
  let n1 := (length (uhf_virtual_a mf) * length (uhf_occupied_a mf)
             + length (uhf_virtual_b mf) * length (uhf_occupied_b mf))%nat in
  let n2 := (length (uhf_virtual_a mf) * length (uhf_occupied_b mf)
             + length (uhf_virtual_b mf) * length (uhf_occupied_a mf))%nat in
  let g := _gen_hop_uhf_external mf ws in
  let err := if ws && mol_symmetry mf then IndexError else ValueError in
  length g.1.1.2 = n1 ∧ length g.2 = n2
  ∧ (length x = n1 → ∃ y, g.1.1.1 x = Ok y ∧ length y = n1)
  ∧ (length x = n2 → ∃ y, g.1.2 x = Ok y ∧ length y = n2)
  ∧ (length x ≠ n1 → g.1.1.1 x = Err err)
  ∧ (length x ≠ n2 → g.1.2 x = Err err).
Proof.
  intros n1 n2 g err.
  pose proof (length_uhf_sym_forbid1 mf) as L1.
  pose proof (length_uhf_sym_forbid2 mf) as L2.
  revert L1 L2. unfold g, err.
  unfold uhf_sym_forbid1, uhf_sym_forbid2, _gen_hop_uhf_external.
  destruct (get_orbsym mf) as [sa sb].
  cbv beta iota zeta. cbn [fst snd].
  fold (uhf_virtual_a mf) (uhf_virtual_b mf).
  fold (uhf_occupied_a mf) (uhf_occupied_b mf).
  fold n1 n2. intros L1 L2.
  rewrite !length_masked, !length_app. unfold ravel.
  rewrite !length_data_outer_sub, !length_take_diag, !length_diagonal_block.
  fold n1 n2.
  split_and!; try done.
  - intros Hx. destruct (ws && mol_symmetry mf).
    + unfold fill_mask_arg. rewrite bool_decide_true by congruence.
      cbn [mbind result_bind].
      destruct (split_reshape_ok (length (uhf_virtual_a mf))
        (length (uhf_occupied_a mf)) (length (uhf_virtual_b mf))
        (length (uhf_occupied_b mf)) (fill_mask
          (outer_ne sa sa (uhf_virtual_a mf) (uhf_occupied_a mf) ++
           outer_ne sb sb (uhf_virtual_b mf) (uhf_occupied_b mf)) 0 x))
        as [-> ->]; [by rewrite length_fill_mask|].
      cbn [mbind result_bind mret result_ret].
      eexists; split; [reflexivity|].
      rewrite length_fill_mask, length_app, !length_add. shapes. done.
    + cbn [mbind result_bind mret result_ret].
      destruct (split_reshape_ok (length (uhf_virtual_a mf))
        (length (uhf_occupied_a mf)) (length (uhf_virtual_b mf))
        (length (uhf_occupied_b mf)) x) as [-> ->]; [done|].
      cbn [mbind result_bind mret result_ret].
      eexists; split; [reflexivity|].
      rewrite length_app, !length_add. shapes. done.
  - intros Hx. destruct (ws && mol_symmetry mf).
    + unfold fill_mask_arg. rewrite bool_decide_true by congruence.
      cbn [mbind result_bind].
      destruct (split_reshape_ok (length (uhf_virtual_a mf))
        (length (uhf_occupied_b mf)) (length (uhf_virtual_b mf))
        (length (uhf_occupied_a mf)) (fill_mask
          (outer_ne sa sb (uhf_virtual_a mf) (uhf_occupied_b mf) ++
           outer_ne sb sa (uhf_virtual_b mf) (uhf_occupied_a mf)) 0 x))
        as [-> ->]; [by rewrite length_fill_mask|].
      cbn [mbind result_bind mret result_ret].
      eexists; split; [reflexivity|].
      unfold real_part.
      rewrite length_fill_mask, length_app, !length_add. shapes. done.
    + cbn [mbind result_bind mret result_ret].
      destruct (split_reshape_ok (length (uhf_virtual_a mf))
        (length (uhf_occupied_b mf)) (length (uhf_virtual_b mf))
        (length (uhf_occupied_a mf)) x) as [-> ->]; [done|].
      cbn [mbind result_bind mret result_ret].
      eexists; split; [reflexivity|].
      unfold real_part. rewrite length_app, !length_add. shapes. done.
  - intros Hx. destruct (ws && mol_symmetry mf).
    + unfold fill_mask_arg. rewrite bool_decide_false by congruence. done.
    + cbn [mbind result_bind mret result_ret]. by apply split_reshape_err.
  - intros Hx. destruct (ws && mol_symmetry mf).
    + unfold fill_mask_arg. rewrite bool_decide_false by congruence. done.
    + cbn [mbind result_bind mret result_ret]. by apply split_reshape_err.
Qed.

Lemma rhf_external_is_projected (mf : RHF) x :
  mol_symmetry mf = true →
  let P := fill_mask (rhf_sym_forbid mf) 0 in
  let s := _gen_hop_rhf_external mf true in
  let g := _gen_hop_rhf_external mf false in
  s.1.1.2 = P g.1.1.2 ∧ s.2 = P g.2
  ∧ s.1.1.1 x = (y ← g.1.1.1 (P x); Ok (P y))
  ∧ s.1.2 x = (y ← g.1.2 (P x); Ok (P y)).
Proof.
  intros Hsym P s g. unfold s, g, P, _gen_hop_rhf_external. cbv zeta.
  rewrite Hsym. cbn [andb fst snd].
  fold (rhf_virtual mf) (rhf_occupied mf). fold (rhf_sym_forbid mf).
  split_and!; try done.
  all: unfold reshape; rewrite length_fill_mask.
  all: case_bool_decide; [|done].
  all: reflexivity.
Qed.

Lemma ghf_real2complex_is_projected (mf : RHF) x :
  mol_symmetry mf = true →
  let P := fill_mask (ghf_sym_forbid mf) 0 in
  let s := _gen_hop_ghf_real2complex mf true in
  let g := _gen_hop_ghf_real2complex mf false in
  s.2 = P g.2 ∧ s.1 x = (y ← g.1 (P x); Ok (P y)).
Proof.
  intros Hsym P s g. unfold s, g, P, _gen_hop_ghf_real2complex. cbv zeta.
  rewrite Hsym. cbn [andb fst snd].
  fold (ghf_virtual mf) (ghf_occupied mf). fold (ghf_sym_forbid mf).
  split_and!; try done.
  all: unfold reshape; rewrite length_fill_mask.
  all: case_bool_decide; [|done].
  all: reflexivity.
Qed.

Lemma uhf_external_is_projected (mf : UHF) x :
  mol_symmetry mf = true →
  let P1 := fill_mask (uhf_sym_forbid1 mf) 0 in
  let P2 := fill_mask (uhf_sym_forbid2 mf) 0 in
  let s := _gen_hop_uhf_external mf true in
  let g := _gen_hop_uhf_external mf false in
  s.1.1.2 = P1 g.1.1.2 ∧ s.2 = P2 g.2
  ∧ (length x = length (uhf_sym_forbid1 mf) →
     s.1.1.1 x = (y ← g.1.1.1 (P1 x); Ok (P1 y)))
  ∧ (length x = length (uhf_sym_forbid2 mf) →
     s.1.2 x = (y ← g.1.2 (P2 x); Ok (P2 y))).
Proof.
  intros Hsym P1 P2 s g.
  unfold s, g, P1, P2, uhf_sym_forbid1, uhf_sym_forbid2,
    _gen_hop_uhf_external.
  destruct (get_orbsym mf) as [sa sb].
  cbv beta iota zeta. rewrite Hsym. cbn [andb fst snd].
  fold (uhf_virtual_a mf) (uhf_virtual_b mf).
  fold (uhf_occupied_a mf) (uhf_occupied_b mf).
  split_and!; try done.
  all: intros Hx; unfold fill_mask_arg; rewrite bool_decide_true by done.
  all: cbn [mbind result_bind mret result_ret].
  all: destruct (reshape _ _ (take _ _)); [|done].
  all: cbn [mbind result_bind mret result_ret].
  all: destruct (reshape _ _ (drop _ _)); [|done].
  all: reflexivity.
Qed.

Lemma masked_inverse_map (p : Qc → bool) (f : Qc → Qc) (l : vec) :
  put_mask (map p l) (map f (select_mask (map p l) l)) (zeros_like l)
  = map (λ h, if p h then f h else 0) l.
Proof.
  unfold zeros_like. induction l as [|h l IH]; simpl; [done|].
  destruct (p h); simpl; by rewrite IH.
Qed.

Lemma lookup_map {A B} (f : A → B) (l : list A) i :
  map f l !! i = f <$> l !! i.
Proof. apply list_lookup_fmap. Qed.

Lemma guess_diagonal_map hdiag :
  guess_diagonal hdiag
  = map (λ h, if Qcltb lit_1e_5 h then 1 / h else 0) hdiag.
Proof. apply masked_inverse_map. Qed.

Lemma inverse_below h : lit_1e_5 < h → 0 < 1 / h ∧ 1 / h < lit_1e5.
Proof.
  intros Hh.
  assert (H0 : 0 < h) by (eapply Qclt_trans; [apply lit_1e_5_pos|done]).
  split.
  - unfold Qcdiv. rewrite Qcmult_1_l. by apply Qcinv_pos.
  - apply (Qcmult_lt_mono_pos_r _ _ h H0).
    unfold Qcdiv. rewrite Qcmult_1_l, Qcmult_inv_l
      by (intros ->; by apply Qclt_not_eq in H0).
    replace 1 with (lit_1e5 * lit_1e_5) by (by apply Qc_is_canon).
    by apply Qcmult_lt_mono_pos_l.
Qed.

(** X4.  The guess of the external solves is [1/hdiag] where [hdiag] is
    above [1e-5] and zero elsewhere: it has the length of the diagonal,
    every entry of it lies in [[0, 1e5)], and it is zero where the diagonal
    is [1e-5] or less (negative entries included). *)
Theorem diagonal_guess_is_bounded hdiag :
  guess_diagonal hdiag
  = map (λ h, if Qcltb lit_1e_5 h then 1 / h else 0) hdiag
  ∧ length (guess_diagonal hdiag) = length hdiag
  ∧ Forall (λ x, 0 ≤ x ∧ x < lit_1e5) (guess_diagonal hdiag)
  ∧ (∀ i h, hdiag !! i = Some h → h ≤ lit_1e_5 →
       guess_diagonal hdiag !! i = Some 0).
Proof.
  rewrite guess_diagonal_map. split_and!.
  - done.
  - by rewrite length_map.
  - apply Forall_fmap, Forall_true. intros h. simpl.
    destruct (Qcltb lit_1e_5 h) eqn:Hh.
    + apply Qcltb_true, inverse_below in Hh as [H1 H2].
      split; [by apply Qclt_le_weak|done].
    + split; [done|reflexivity].
  - intros i h Hi Hh.
    unfold vec in *. rewrite lookup_map, Hi. simpl.
    by rewrite (proj2 (Qcltb_false _ _) Hh).
Qed.

(** X8.  The diagonal of each of the five external operators has one entry
    per virtual-occupied pair of its channel.  On a trial vector of that
    length the operator returns a vector of that length; on any other
    length its [reshape] raises: [ValueError], except that the two
    unrestricted operators under point-group symmetry raise [IndexError]
    from the masked assignment that comes first. *)
Theorem external_operators_check_the_dimension ws o x :
  length (external_hdiag ws o) = hop_dim o
  ∧ (length x = hop_dim o →
     ∃ y, external_hop_with ws o x = Ok y ∧ length y = hop_dim o)
  ∧ (length x ≠ hop_dim o →
     external_hop_with ws o x = Err (dimension_error ws o)).
Proof.
  destruct o as [mf|mf|mf|mf|mf]; cbn [external_hdiag external_hop_with
    hop_dim dimension_error].
  - destruct (rhf_external_dimension mf ws x) as (H1 & H2 & H3 & H4).
    split_and!; [done|intros H; by apply H3|intros H; by apply H4].
  - destruct (rhf_external_dimension mf ws x) as (H1 & H2 & H3 & H4).
    split_and!; [done|intros H; by apply H3|intros H; by apply H4].
  - destruct (uhf_external_dimension mf ws x)
      as (H1 & H2 & H3 & H4 & H5 & H6). done.
  - destruct (uhf_external_dimension mf ws x)
      as (H1 & H2 & H3 & H4 & H5 & H6). done.
  - destruct (ghf_real2complex_dimension mf ws x) as (H1 & H2 & H3). done.
Qed.

Lemma external_operators_check_the_dimension_witness :
  hop_dim (Op_rhf_rhf2uhf ex_rhf) = 1%nat
  ∧ (∃ y, external_hop_with false (Op_rhf_rhf2uhf ex_rhf) [1] = Ok y
          ∧ length y = 1%nat)
  ∧ external_hop_with false (Op_rhf_rhf2uhf ex_rhf) [1; 1] = Err ValueError.
Proof.
  split; [reflexivity|].
  pose proof (external_operators_check_the_dimension false
                (Op_rhf_rhf2uhf ex_rhf)) as H.
  split.
  - exact (proj1 (proj2 (H [1])) eq_refl).
  - apply (proj2 (proj2 (H [1; 1]))). discriminate.
Defined.

(** X9.  Under point-group symmetry each external operator is the operator
    built without symmetry between two projections: the forbidden entries
    of the trial vector are zeroed, the unprojected operator is applied,
    and the forbidden entries of the product are zeroed; its diagonal is
    the unprojected diagonal with the forbidden entries zeroed. *)
Theorem symmetric_operator_is_projected o x :
  has_symmetry o = true →
  length x = hop_dim o →
  external_hdiag true o = project o (external_hdiag false o)
  ∧ external_hop_with true o x
    = (y ← external_hop_with false o (project o x); Ok (project o y)).
Proof.
  intros Hsym Hx. unfold project.
  destruct o as [mf|mf|mf|mf|mf]; cbn in Hsym;
    cbn [external_hdiag external_hop_with hop_dim sym_forbidden] in *.
  - destruct (rhf_external_is_projected mf x Hsym) as (H1 & H2 & H3 & H4).
    done.
  - destruct (rhf_external_is_projected mf x Hsym) as (H1 & H2 & H3 & H4).
    done.
  - destruct (uhf_external_is_projected mf x Hsym) as (H1 & H2 & H3 & H4).
    split; [done|]. apply H3. by rewrite length_uhf_sym_forbid1.
  - destruct (uhf_external_is_projected mf x Hsym) as (H1 & H2 & H3 & H4).
    split; [done|]. apply H4. by rewrite length_uhf_sym_forbid2.
  - destruct (ghf_real2complex_is_projected mf x Hsym) as (H1 & H2). done.
Qed.

Lemma external_hdiag_forbidden o i :
  has_symmetry o = true → sym_forbidden o !! i = Some true →
  external_hdiag true o !! i = Some 0.
Proof.
  intros Hsym Hi.
  assert (H : external_hdiag true o
              = fill_mask (sym_forbidden o) 0 (external_hdiag false o)).
  { destruct o as [mf|mf|mf|mf|mf]; cbn in Hsym;
      cbn [external_hdiag sym_forbidden].
    - apply (rhf_external_is_projected mf [] Hsym).
    - apply (rhf_external_is_projected mf [] Hsym).
    - apply (uhf_external_is_projected mf [] Hsym).
    - apply (uhf_external_is_projected mf [] Hsym).
    - apply (ghf_real2complex_is_projected mf [] Hsym). }
  rewrite H. apply fill_mask_forbidden; [done|].
  apply lookup_lt_Some in Hi. rewrite length_sym_forbidden in Hi.
  destruct o as [mf|mf|mf|mf|mf]; cbn [external_hdiag hop_dim] in *.
  - by rewrite (proj1 (rhf_external_dimension mf false [])).
  - by rewrite (proj1 (proj2 (rhf_external_dimension mf false []))).
  - by rewrite (proj1 (uhf_external_dimension mf false [])).
  - by rewrite (proj1 (proj2 (uhf_external_dimension mf false []))).
  - by rewrite (proj1 (ghf_real2complex_dimension mf false [])).
Qed.

(** X5.  Under point-group symmetry the diagonal of an external operator is
    zero at every symmetry-forbidden entry, so the guess built from it is
    zero there too, and with symmetry kept that guess is handed to the
    solver unchanged. *)
Theorem symmetric_guess_respects_symmetry o i :
  has_symmetry o = true → sym_forbidden o !! i = Some true →
  external_hdiag true o !! i = Some 0
  ∧ guess_diagonal (external_hdiag true o) !! i = Some 0
  ∧ allow_break true (external_hdiag true o)
      (guess_diagonal (external_hdiag true o))
    = Ok (guess_diagonal (external_hdiag true o)).
Proof.
  intros Hsym Hi.
  pose proof (external_hdiag_forbidden o i Hsym Hi) as H.
  split_and!; [done| |done].
  rewrite guess_diagonal_map. unfold vec in *.
  rewrite lookup_map, H. cbn [fmap option_fmap option_map].
  by rewrite (proj2 (Qcltb_false lit_1e_5 0))
    by apply Qclt_le_weak, lit_1e_5_pos.
Qed.

(** ** Additivity of the external operators *)












Lemma vadd_nil_l (y : vec) : vadd [] y = [].
Proof. done. Qed.




























(** ** More on the stabilize-and-reoptimize driver *)

Section Driver.
Context {scf orbs ext occ dm : Type}.
Variable stability : scf → result (stability_result orbs ext).
Variable mf_mo_occ : scf → occ.
Variable mf_make_rdm1 : scf → orbs → occ → dm.
Variable mf_run : scf → dm → scf.

Lemma opt_loop_step (stab : scf → result (stability_result orbs ext))
    max_attempt mf mo1 stable cyc :
  opt_loop stab mf_mo_occ mf_make_rdm1 mf_run max_attempt mf mo1 stable cyc
  = if negb stable && (cyc <? max_attempt)%Z then
      let dm1 := mf_make_rdm1 mf mo1 (mf_mo_occ mf) in
      let here := [OptNote fmt_try cyc; OptRun dm1] in
      match status_pair stab (mf_run mf dm1) with
      | Ok (mo2, stable2) =>
          let r := opt_loop stab mf_mo_occ mf_make_rdm1 mf_run max_attempt
                     (mf_run mf dm1) mo2 stable2 (cyc + 1)%Z in
          (here ++ r.1, r.2)
      | Err e => (here, Err e)
      end
    else ([], Ok (mf, stable, cyc)).
Proof.
  funelim (opt_loop stab mf_mo_occ mf_make_rdm1 mf_run
             max_attempt mf mo1 stable cyc); clear Heqcall.
  - rewrite H. cbv zeta.
    destruct (status_pair stab _) as [[mo2 st2]|e]; [|done].
    by destruct (opt_loop _ _ _ _ _ _ _ _ _).
  - by rewrite H.
Qed.

Lemma opt_loop_ext (s1 s2 : scf → result (stability_result orbs ext))
    max_attempt mf mo1 stable cyc :
  (∀ mf, status_pair s1 mf = status_pair s2 mf) →
  opt_loop s1 mf_mo_occ mf_make_rdm1 mf_run max_attempt mf mo1 stable cyc
  = opt_loop s2 mf_mo_occ mf_make_rdm1 mf_run max_attempt mf mo1 stable cyc.
Proof.
  intros Hs.
  funelim (opt_loop s1 mf_mo_occ mf_make_rdm1 mf_run
             max_attempt mf mo1 stable cyc); clear Heqcall.
  - rewrite (opt_loop_step s2), H. cbv zeta. rewrite <- Hs.
    destruct (status_pair s1 _) as [[mo2 st2]|e] eqn:Hq; [|done].
    rewrite <- (H0 (mo2, st2) mo2 st2 s2 Hs).
    by destruct (opt_loop s1 _ _ _ _ _ _ _ _).
  - by rewrite (opt_loop_step s2), H.
Qed.

Lemma status_pair_internal_part mf :
  status_pair (λ mf, result_map internal_part (stability mf)) mf
  = status_pair stability mf.
Proof.
  unfold status_pair, _get_internal_stability_status.
  destruct (stability mf) as [[| |]|e]; done.
Qed.

(** X13.  The stabilize-and-reoptimize driver reads only the internal part
    of what [mf.stability] answers: dropping the external orbitals and the
    external verdict from every answer changes neither the log, nor the
    calculations run, nor the result. *)
Theorem driver_reads_the_internal_part (mf : scf) (max_attempt : Z) :
  stable_opt_internal (λ mf, result_map internal_part (stability mf))
    mf_mo_occ mf_make_rdm1 mf_run mf max_attempt
  = stable_opt_internal stability mf_mo_occ mf_make_rdm1 mf_run
      mf max_attempt.
Proof.
  unfold stable_opt_internal. rewrite status_pair_internal_part.
  destruct (status_pair stability mf) as [[mo1 stable]|e]; [|done].
  by rewrite (opt_loop_ext _ stability)
    by (intros; apply status_pair_internal_part).
Qed.

Lemma opt_loop_larger_budget m m' mf mo1 stable cyc t mf' c :
  opt_loop stability mf_mo_occ mf_make_rdm1 mf_run m mf mo1 stable cyc
    = (t, Ok (mf', true, c)) →
  (m ≤ m')%Z →
  opt_loop stability mf_mo_occ mf_make_rdm1 mf_run m' mf mo1 stable cyc
    = (t, Ok (mf', true, c)).
Proof.
  revert t.
  funelim (opt_loop stability mf_mo_occ mf_make_rdm1 mf_run
             m mf mo1 stable cyc); clear Heqcall; intros t Hrun Hle.
  - pose proof (andb_prop _ _ H) as [Hu Hc%Z.ltb_lt].
    rewrite opt_loop_step, Hu.
    rewrite (proj2 (Z.ltb_lt cyc m')) by lia. cbn [andb]. cbv zeta.
    destruct (status_pair stability _) as [[mo2 st2]|e] eqn:Hq; [|done].
    destruct (opt_loop stability _ _ _ max_attempt _ mo2 st2 _)
      as [t2 r2] eqn:Hl.
    injection Hrun as <- ->.
    by rewrite (H0 (mo2, st2) mo2 st2 m' mf' c t2 Hl Hle).
  - injection Hrun as <- <- -> <-. rewrite opt_loop_step. done.
Qed.

(** X12.  A run of the driver that did not end on the failure note is not
    changed by a larger [max_attempt]: the same log, the same calculations
    and the same result. *)
Theorem larger_budget_same_run (mf mf' : scf) (m m' : Z) t :
  stable_opt_internal stability mf_mo_occ mf_make_rdm1 mf_run mf m
    = (t, Ok mf') →
  note_cycles fmt_failed t = [] →
  (m ≤ m')%Z →
  stable_opt_internal stability mf_mo_occ mf_make_rdm1 mf_run mf m'
    = (t, Ok mf').
Proof.
  unfold stable_opt_internal. intros Hrun Hok Hle.
  destruct (status_pair stability mf) as [[mo1 stable]|e]; [|done].
  destruct (opt_loop stability _ _ _ m mf mo1 stable 0) as [t0 r0] eqn:Hl.
  destruct r0 as [[[mf0 st0] c0]|e]; [|done].
  destruct st0; cbn [negb] in Hrun; injection Hrun as <- <-.
  - by rewrite (opt_loop_larger_budget _ _ _ _ _ _ _ _ _ Hl Hle).
  - fold fmt_failed in Hok. rewrite note_cycles_snoc in Hok.
    rewrite decide_True in Hok by done. by destruct (note_cycles _ t0).
Qed.

(** X11.  When the first check finds the solution stable, or
    [max_attempt] is zero or less, the driver runs no calculation and
    returns the object it was given; it logs nothing in the first case and
    the failure note at attempt 0 in the second. *)
Theorem no_attempt_without_need_or_budget (mf : scf) (max_attempt : Z)
    mo stable :
  status_pair stability mf = Ok (mo, stable) →
  stable = true ∨ (max_attempt ≤ 0)%Z →
  stable_opt_internal stability mf_mo_occ mf_make_rdm1 mf_run mf max_attempt
  = (if stable then [] else [OptNote fmt_failed 0], Ok mf).
Proof.
  intros Hst Hno. unfold stable_opt_internal. rewrite Hst.
  rewrite opt_loop_step.
  assert (negb stable && (0 <? max_attempt)%Z = false) as ->.
  { destruct Hno as [->|Hle]; [done|].
    rewrite (proj2 (Z.ltb_ge 0 max_attempt)) by done.
    by destruct stable. }
  by destruct stable.
Qed.

End Driver.

(** ** The dispatchers *)

Section Dispatch.

Variable expmat : ndarray → ndarray.

(** X14.  [rhf_stability] and [uhf_stability] run the internal analysis,
    then the external one on the answers the internal one left: the log is
    the two logs in that order, the orbitals are those of the two drivers
    called with symmetry, and the statuses are theirs when
    [return_status] is set.  A channel switched off contributes [None] and
    no solver call. *)
Theorem dispatchers_compose (rs : bool) nroots tol :
  let status (i e : option bool) := if rs then Some (i, e) else None in
  (∀ (mf : RHF) script t1 mo_i st_i rest1 t2 mo_e st_e rest2,
     exec (rhf_internal expmat mf true rs nroots tol) script
       = (t1, Returned (mo_i, st_i), rest1) →
     exec (rhf_external expmat mf true rs nroots tol) rest1
       = (t2, Returned (mo_e, st_e), rest2) →
     exec (rhf_stability expmat mf true true rs nroots tol) script
       = (t1 ++ t2, Returned (Some mo_i, Some mo_e, status st_i st_e), rest2)
     ∧ exec (rhf_stability expmat mf true false rs nroots tol) script
       = (t1, Returned (Some mo_i, None, status st_i None), rest1)
     ∧ exec (rhf_stability expmat mf false true rs nroots tol) rest1
       = (t2, Returned (None, Some mo_e, status None st_e), rest2)
     ∧ exec (rhf_stability expmat mf false false rs nroots tol) script
       = ([], Returned (None, None, status None None), script))
  ∧ (∀ (mf : UHF) script t1 mo_i st_i rest1 t2 mo_e st_e rest2,
     exec (uhf_internal expmat mf true rs nroots tol) script
       = (t1, Returned (mo_i, st_i), rest1) →
     exec (uhf_external expmat mf true rs nroots tol) rest1
       = (t2, Returned (mo_e, st_e), rest2) →
     exec (uhf_stability expmat mf true true rs nroots tol) script
       = (t1 ++ t2, Returned (Some mo_i, Some mo_e, status st_i st_e), rest2)
     ∧ exec (uhf_stability expmat mf true false rs nroots tol) script
       = (t1, Returned (Some mo_i, None, status st_i None), rest1)
     ∧ exec (uhf_stability expmat mf false true rs nroots tol) rest1
       = (t2, Returned (None, Some mo_e, status None st_e), rest2)
     ∧ exec (uhf_stability expmat mf false false rs nroots tol) script
       = ([], Returned (None, None, status None None), script)).
Proof.
  intros status. unfold status. split.
  - intros mf script t1 mo_i st_i rest1 t2 mo_e st_e rest2 H1 H2.
    unfold rhf_stability. destruct rs; revert H1 H2.
    all: generalize (rhf_internal expmat mf true) as p_i.
    all: generalize (rhf_external expmat mf true) as p_e.
    all: intros p_e p_i H1 H2.
    all: split_and!; rewrite ?exec_bind, ?H1; simpl;
      rewrite ?exec_bind, ?H2; simpl; rewrite ?app_nil_r; done.
  - intros mf script t1 mo_i st_i rest1 t2 mo_e st_e rest2 H1 H2.
    unfold uhf_stability. destruct rs; revert H1 H2.
    all: generalize (uhf_internal expmat mf true) as p_i.
    all: generalize (uhf_external expmat mf true) as p_e.
    all: intros p_e p_i H1 H2.
    all: split_and!; rewrite ?exec_bind, ?H1; simpl;
      rewrite ?exec_bind, ?H2; simpl; rewrite ?app_nil_r; done.
Qed.

End Dispatch.

Lemma executed {A} (p : prog A) script (o : outcome A) rest :
  (exec p script).1.2 = o → (exec p script).2 = rest →
  exec p script = ((exec p script).1.1, o, rest).
Proof. intros <- <-. by destruct (exec p script) as [[??]?]. Qed.

Lemma dispatchers_compose_witness :
  let r1 := answer [0; 1; 2]%Q in
  let r2 := answer [1; 2; 3]%Q in
  let r3 := answer [-1; 0; 1]%Q in
  let t1 := (exec (rhf_internal expmat_1 ex_rhf true true 3 ex_tol)
               [r1; r2; r3]).1.1 in
  let t2 := (exec (rhf_external expmat_1 ex_rhf true true 3 ex_tol)
               [r2; r3]).1.1 in
  exec (rhf_internal expmat_1 ex_rhf true true 3 ex_tol) [r1; r2; r3]
    = (t1, Returned (eye 2, Some true), [r2; r3])
  ∧ exec (rhf_external expmat_1 ex_rhf true true 3 ex_tol) [r2; r3]
    = (t2, Returned ((NdArray 2 2 [1; 1; -1; 1], eye 2), Some false), [])
  ∧ exec (rhf_stability expmat_1 ex_rhf true true true 3 ex_tol) [r1; r2; r3]
    = (t1 ++ t2,
       Returned (Some (eye 2), Some (NdArray 2 2 [1; 1; -1; 1], eye 2),
                 Some (Some true, Some false)), []).
Proof.
  intros r1 r2 r3 t1 t2.
  assert (H1 : exec (rhf_internal expmat_1 ex_rhf true true 3 ex_tol)
                 [r1; r2; r3] = (t1, Returned (eye 2, Some true), [r2; r3])).
  { apply executed; vm_compute; reflexivity. }
  assert (H2 : exec (rhf_external expmat_1 ex_rhf true true 3 ex_tol)
                 [r2; r3]
               = (t2, Returned ((NdArray 2 2 [1; 1; -1; 1], eye 2),
                                Some false), [])).
  { apply executed; vm_compute; reflexivity. }
  split; [exact H1|]. split; [exact H2|].
  exact (proj1 (proj1 (dispatchers_compose expmat_1 true 3 ex_tol)
                  ex_rhf _ _ _ _ _ _ _ _ _ H1 H2)).
Defined.

Lemma foldl_max_spec (a : list Qc) : ∀ x c,
  c < foldl (λ m y, if Qcltb m y then y else m) x a
  ↔ c < x ∨ Exists (λ y, c < y) a.
Proof.
  induction a as [|y a IH]; intros x c; simpl.
  - rewrite Exists_nil. tauto.
  - rewrite IH, Exists_cons. destruct (Qcltb x y) eqn:H.
    + apply Qcltb_true in H. split; [tauto|].
      intros [Hx|[Hy|Ha]]; [|tauto..]. left. by eapply Qclt_trans.
    + apply Qcltb_false in H. split; [tauto|].
      intros [Hx|[Hy|Ha]]; [tauto| |tauto]. left. by eapply Qclt_le_trans.
Qed.

Lemma amax_spec (a : list Qc) m c :
  amax a = Ok m → (c < m ↔ Exists (λ y, c < y) a).
Proof.
  destruct a as [|x a]; [done|]. simpl. intros [= <-].
  by rewrite foldl_max_spec, Exists_cons.
Qed.

Section GhfProps.
Variable expmat : ndarray → ndarray.

(** X15.  [ghf_stability] runs [ghf_real] on real orbitals (dtype
    [float64]) without looking at the density.  Otherwise it runs
    [ghf_complex] when some entry of the density matrix has an imaginary
    part above [1e-6] in magnitude and [ghf_real] when none has; on an
    empty density matrix [max] raises [ValueError]. *)
Theorem ghf_stability_dispatch (mf : ghf_object) rs nroots tol :
  let complex_density :=
    Exists (λ x, lit_1e_6 < Qcabs x) (rdm1_imag mf) in
  (dtype_is_float64 mf = true →
   ghf_stability expmat mf rs nroots tol
   = ghf_real expmat (ghf_mf mf) true rs nroots tol)
  ∧ (dtype_is_float64 mf = false → rdm1_imag mf = [] →
     ghf_stability expmat mf rs nroots tol = Raise ValueError)
  ∧ (dtype_is_float64 mf = false → complex_density →
     ghf_stability expmat mf rs nroots tol
     = ghf_complex expmat (ghf_mf mf) rs nroots tol)
  ∧ (dtype_is_float64 mf = false → rdm1_imag mf ≠ [] → ¬ complex_density →
     ghf_stability expmat mf rs nroots tol
     = ghf_real expmat (ghf_mf mf) true rs nroots tol).
Proof.
  intros cd. unfold ghf_stability, is_complex. split_and!.
  - by intros ->.
  - by intros -> ->.
  - intros -> Hc. destruct (amax _) as [m|e] eqn:Hm.
    + cbn [mbind result_bind].
      assert (Qcltb lit_1e_6 m = true) as ->; [|done].
      apply Qcltb_true. apply (amax_spec _ _ _ Hm).
      apply Exists_fmap. exact Hc.
    + destruct (rdm1_imag mf); [by apply Exists_nil in Hc|done].
  - intros -> Hne Hc. destruct (amax _) as [m|e] eqn:Hm.
    + cbn [mbind result_bind].
      assert (Qcltb lit_1e_6 m = false) as ->; [|done].
      destruct (Qcltb lit_1e_6 m) eqn:E; [|done].
      apply Qcltb_true in E. apply (amax_spec _ _ _ Hm) in E.
      destruct Hc.
      exact (proj1 (Exists_fmap _ _ _) E).
    + destruct (rdm1_imag mf); [done|simpl in Hm; done].
Qed.

End GhfProps.

(** ** Examples of the further properties *)

Lemma second_solve_seed_witness :
  let script := [answer [1; 2; 3]%Q; answer [-1; 0; 1]%Q] in
  guesses (play (rhf_external expmat_1 ex_rhf true true 3 ex_tol) script).1
    !! 1%nat = Some (Vector [1])
  ∧ ∃ r1 e1, head script = Some r1 ∧ unwrap 3 r1 = Ok (e1, Vector [1]).
Proof.
  intros script.
  assert (H : guesses (play (rhf_external expmat_1 ex_rhf true true 3 ex_tol)
                         script).1 !! 1%nat = Some (Vector [1])).
  { vm_compute. reflexivity. }
  split; [exact H|].
  exact (proj1 (second_solve_seed expmat_1 ex_rhf ex_uhf true true 3 ex_tol
                  script (Vector [1])) H).
Defined.

Lemma diagonal_guess_is_bounded_witness :
  [1; 0] !! 1%nat = Some 0 ∧ 0 ≤ lit_1e_5
  ∧ guess_diagonal [1; 0] !! 1%nat = Some 0.
Proof.
  assert (H : 0 ≤ lit_1e_5) by (apply Qclt_le_weak, lit_1e_5_pos).
  split; [reflexivity|]. split; [exact H|].
  exact (proj2 (proj2 (proj2 (diagonal_guess_is_bounded [1; 0])))
           1%nat 0 eq_refl H).
Defined.

Lemma symmetric_guess_respects_symmetry_witness :
  has_symmetry (Op_rhf_real2complex ex_rhf) = true
  ∧ sym_forbidden (Op_rhf_real2complex ex_rhf) !! 0%nat = Some true
  ∧ external_hdiag true (Op_rhf_real2complex ex_rhf) !! 0%nat = Some 0.
Proof.
  split; [reflexivity|]. split; [reflexivity|].
  exact (proj1 (symmetric_guess_respects_symmetry
                  (Op_rhf_real2complex ex_rhf) 0 eq_refl eq_refl)).
Defined.

Lemma symmetry_breaking_guess_witness :
  [2; 1; 1] ≠ ([] : vec)
  ∧ length ([0; 0; 0] : vec) = length ([2; 1; 1] : vec)
  ∧ ∃ i m, allow_break false [2; 1; 1] [0; 0; 0] = Ok (<[i := 1]> [0; 0; 0])
           ∧ <[i := 1]> ([0; 0; 0] : vec) !! i = Some 1
           ∧ [2; 1; 1] !! i = Some m
           ∧ ∀ j a, [2; 1; 1] !! j = Some a → m ≤ a ∧ ((j < i)%nat → m < a).
Proof.
  assert (H : [2; 1; 1] ≠ ([] : vec)) by discriminate.
  split; [exact H|]. split; [reflexivity|].
  exact (proj2 (proj2 (symmetry_breaking_guess [2; 1; 1] [0; 0; 0]))
           H eq_refl).
Defined.

Lemma symmetric_operator_is_projected_witness :
  has_symmetry (Op_rhf_rhf2uhf ex_rhf) = true
  ∧ length [1] = hop_dim (Op_rhf_rhf2uhf ex_rhf)
  ∧ external_hop_with true (Op_rhf_rhf2uhf ex_rhf) [1]
    = (y ← external_hop_with false (Op_rhf_rhf2uhf ex_rhf)
             (project (Op_rhf_rhf2uhf ex_rhf) [1]);
       Ok (project (Op_rhf_rhf2uhf ex_rhf) y)).
Proof.
  split; [reflexivity|]. split; [reflexivity|].
  exact (proj2 (symmetric_operator_is_projected (Op_rhf_rhf2uhf ex_rhf) [1]
                  eq_refl eq_refl)).
Defined.

Lemma no_attempt_without_need_or_budget_witness :
  status_pair (ex_query 3) 0%Z = Ok (0%Z, false)
  ∧ (0 ≤ 0)%Z
  ∧ ex_opt 3 0 0 = ([OptNote fmt_failed 0], Ok 0%Z).
Proof.
  split; [reflexivity|]. split; [lia|].
  exact (no_attempt_without_need_or_budget (ex_query 3) (λ _, tt)
           (λ _ mo _, mo) (λ mf dm1, (dm1 + 1)%Z) 0%Z 0%Z 0%Z false
           eq_refl (or_intror (Z.le_refl 0))).
Defined.

Lemma larger_budget_same_run_witness :
  let t := [OptNote fmt_try 0; OptRun 0%Z; OptNote fmt_try 1; OptRun 1%Z;
            OptNote fmt_try 2; OptRun 2%Z] in
  ex_opt 3 0 3 = (t, Ok 3%Z)
  ∧ note_cycles fmt_failed t = []
  ∧ (3 ≤ 10)%Z
  ∧ ex_opt 3 0 10 = (t, Ok 3%Z).
Proof.
  intros t.
  assert (H : ex_opt 3 0 3 = (t, Ok 3%Z)) by (vm_compute; reflexivity).
  assert (Hn : note_cycles fmt_failed t = []) by reflexivity.
  assert (Hle : (3 ≤ 10)%Z) by lia.
  split; [exact H|]. split; [exact Hn|]. split; [exact Hle|].
  exact (larger_budget_same_run (ex_query 3) (λ _, tt) (λ _ mo _, mo)
           (λ mf dm1, (dm1 + 1)%Z) 0%Z 3%Z 3%Z 10%Z t H Hn Hle).
Defined.


Lemma other_roots_are_informational_witness :
  let p := entry_prog expmat_1 (Rhf_internal ex_rhf false) true 3 ex_tol in
  let r := (Eigs [qc (-1); 0; 1], Vectors [[1]; [1]; [1]]) in
  let r' := (Eigs [qc (-1); qc 5], Vectors [[1]; [qc 7]]) in
  let t := (play p [r]).1 in
  let t' := (play p [r']).1 in
  play p [r] = (t, Returned (Orbs (NdArray 2 2 [1; -1; 1; 1]), Some false))
  ∧ play p [r']
    = (t', Returned (Orbs (NdArray 2 2 [1; -1; 1; 1]), Some false))
  ∧ answers t !! 0%nat = Some r ∧ answers t' !! 0%nat = Some r'
  ∧ lowest r = lowest r' ∧ lowest_vector r = lowest_vector r'
  ∧ Orbs (NdArray 2 2 [1; -1; 1; 1]) = Orbs (NdArray 2 2 [1; -1; 1; 1])
  ∧ Some false = Some false.
Proof.
  intros p r r' t t'.
  assert (H : play p [r]
    = (t, Returned (Orbs (NdArray 2 2 [1; -1; 1; 1]), Some false))).
  { apply played. vm_compute. reflexivity. }
  assert (H' : play p [r']
    = (t', Returned (Orbs (NdArray 2 2 [1; -1; 1; 1]), Some false))).
  { apply played. vm_compute. reflexivity. }
  assert (Ha : answers t !! 0%nat = Some r) by (vm_compute; reflexivity).
  assert (Ha' : answers t' !! 0%nat = Some r') by (vm_compute; reflexivity).
  do 6 (split; [first [assumption|reflexivity]|]).
  exact (other_roots_are_informational expmat_1 (Rhf_internal ex_rhf false)
           true 3 ex_tol [r] [r'] t t' _ _ _ _ r r' H H' Ha Ha'
           eq_refl eq_refl).
Defined.

Lemma solver_calls_keep_tol_and_nroots_witness :
  let p := entry_prog expmat_1 (Uhf_external ex_uhf true) true 3 ex_tol in
  let script := [answer [1; 2; 3]%Q; answer [0; 1; 2]%Q] in
  (play p script).2
    = Returned (Orbs (block_diag (eye 2) (eye 2)), Some true)
  ∧ length (calls (play p script).1) = 2%nat.
Proof.
  intros p script.
  assert (H : (play p script).2
              = Returned (Orbs (block_diag (eye 2) (eye 2)), Some true)).
  { vm_compute. reflexivity. }
  split; [exact H|].
  exact (proj1 (proj2 (proj2 (proj2
           (solver_calls_keep_tol_and_nroots expmat_1
              (Uhf_external ex_uhf true) true 3 ex_tol script)))) _ H).
Defined.

Lemma ghf_stability_dispatch_witness :
  dtype_is_float64 ex_ghf_object = false
  ∧ rdm1_imag ex_ghf_object ≠ []
  ∧ ¬ Exists (λ x, lit_1e_6 < Qcabs x) (rdm1_imag ex_ghf_object)
  ∧ ghf_stability expmat_1 ex_ghf_object true 3 ex_tol
    = ghf_real expmat_1 ex_ghf true true 3 ex_tol.
Proof.
  assert (H : ¬ Exists (λ x, lit_1e_6 < Qcabs x) (rdm1_imag ex_ghf_object)).
  { intros H. repeat (apply Exists_cons in H as [H|H]; [by vm_compute in H|]).
    by apply Exists_nil in H. }
  split; [reflexivity|]. split; [discriminate|]. split; [exact H|].
  exact (proj2 (proj2 (proj2 (ghf_stability_dispatch expmat_1 ex_ghf_object
                                true 3 ex_tol))) eq_refl
           ltac:(discriminate) H).
Defined.
